(** * LayoutPipelineSolver: the layout pipeline orchestrator and its validator

    A shallow embedding of [LayoutPipelineSolver.ts]: the rotation-aware
    overlap validator ([getRotatedBounds], [calculateOverlapArea],
    [checkForOverlaps]), the phase state machine ([_step], [step],
    [getCurrentPhase], [solveUntilPhase]), the visualization compositor
    ([visualize]), the progress preview ([preview]) and the layout accessor
    ([getOutputLayout]).

    Conventions of the embedding.
    - The validator is embedded twice.  The module [Double] has it in the
      arithmetic of the code: a JavaScript [number] is an IEEE-754 binary64
      value, [Math.cos] and [Math.sin] are those of the implementation, and
      reading [chipMap[id]] goes through the prototype chain.  What the
      validator reports, when it throws, and what its bounds are at the
      right angles is stated there.  The definitions outside [Double] are
      its idealisation: a coordinate, a size or an angle is a real number,
      arithmetic is exact, [Math.cos], [Math.sin] and [Math.PI] are the real
      cosine, sine and pi, and a chip map is read by its own keys only.
      The geometry of the bounds (enclosure, tightness, symmetry of the
      area) is stated of the idealisation, and it is the validator that
      the embedding of [getOutputLayout] calls.
    - A JavaScript object used as a dictionary whose enumeration order is
      observed ([Object.keys]) is an association list in enumeration order;
      one whose order is never observed is a [gmap].
    - A thrown exception is the [Throw] case of [result].
    - Sub-solver objects are shared by reference: they live in a heap and
      the orchestrator's fields hold locations. *)

From Stdlib Require Import Reals Lra Lia.
From Stdlib Require Import Floats.
From stdpp Require Import base strings gmap list.

(** ** Exceptions *)

Inductive JsError :=
| TypeError
| Error (message : string).

Inductive result (A : Type) :=
| Ok (a : A)
| Throw (e : JsError).

Arguments Ok {A} a.
Arguments Throw {A} e.

#[global] Instance result_ret : MRet result := fun A a => Ok a.
#[global] Instance result_bind : MBind result := fun A B f m =>
  match m with
  | Ok a => f a
  | Throw e => Throw e
  end.

(** ** Numbers *)

#[global] Instance Rle_decision (a b : R) : Decision (a <= b)%R := Rle_dec a b.
#[global] Instance Rlt_decision (a b : R) : Decision (a < b)%R := Rlt_dec a b.
#[global] Instance Rge_decision (a b : R) : Decision (a >= b)%R := Rge_dec a b.
#[global] Instance Rgt_decision (a b : R) : Decision (a > b)%R := Rgt_dec a b.

(** ** Data model of the validator *)

Module Point.
Record t := { x : R; y : R }.
End Point.

Module Placement.
Record t := { x : R; y : R; ccwRotationDegrees : R }.
End Placement.

Module Bounds.
Record t := { minX : R; maxX : R; minY : R; maxY : R }.
End Bounds.

Module Chip.
Record t := { size : Point.t }.
End Chip.

Module InputProblem.
Record t := { chipMap : gmap string Chip.t }.
End InputProblem.

Module OutputLayout.
Record t := { chipPlacements : list (string * Placement.t) }.
End OutputLayout.

Module Overlap.
Record t := { chip1 : string; chip2 : string; overlapArea : R }.
End Overlap.

(** [obj[key]] on an association list: the value of the first entry
    with that key, [None] for [undefined]. *)
Fixpoint prop_lookup {V : Type} (key : string) (obj : list (string * V)) : option V :=
  match obj with
  | [] => None
  | (k, v) :: rest => if decide (k = key) then Some v else prop_lookup key rest
  end.

(** [Object.keys(obj)] *)
Definition Object_keys {V : Type} (obj : list (string * V)) : list string :=
  fst <$> obj.

(** ** The validator, in exact arithmetic *)

Section Validator.
Local Open Scope R_scope.

Definition getRotatedBounds (placement : Placement.t) (size : Point.t) : Bounds.t :=
  let halfWidth := Point.x size / 2 in
  let halfHeight := Point.y size / 2 in
  let angleRad := (Placement.ccwRotationDegrees placement * PI) / 180 in
  let cos := Rabs (cos angleRad) in
  let sin := Rabs (sin angleRad) in
  let rotatedWidth := halfWidth * cos + halfHeight * sin in
  let rotatedHeight := halfWidth * sin + halfHeight * cos in
  {| Bounds.minX := Placement.x placement - rotatedWidth;
     Bounds.maxX := Placement.x placement + rotatedWidth;
     Bounds.minY := Placement.y placement - rotatedHeight;
     Bounds.maxY := Placement.y placement + rotatedHeight |}.

Definition calculateOverlapArea (bounds1 bounds2 : Bounds.t) : R :=
  if bool_decide (Bounds.maxX bounds1 <= Bounds.minX bounds2)
     || bool_decide (Bounds.minX bounds1 >= Bounds.maxX bounds2)
     || bool_decide (Bounds.maxY bounds1 <= Bounds.minY bounds2)
     || bool_decide (Bounds.minY bounds1 >= Bounds.maxY bounds2)
  then 0
  else
    let overlapWidth :=
      Rmin (Bounds.maxX bounds1) (Bounds.maxX bounds2)
      - Rmax (Bounds.minX bounds1) (Bounds.minX bounds2) in
    let overlapHeight :=
      Rmin (Bounds.maxY bounds1) (Bounds.maxY bounds2)
      - Rmax (Bounds.minY bounds1) (Bounds.minY bounds2) in
    overlapWidth * overlapHeight.

(** [getRotatedBounds] called on the result of a property read: reading
    [placement.x] of [undefined] throws. *)
Definition getRotatedBounds_of (placement : option Placement.t) (size : Point.t)
  : result Bounds.t :=
  match placement with
  | Some p => Ok (getRotatedBounds p size)
  | None => Throw TypeError
  end.

(** The body of the inner loop of [checkForOverlaps], for the pair
    [(chipIds[i], chipIds[j])]; [overlaps] is the array being filled. *)
Definition checkPair (inputProblem : InputProblem.t) (layout : OutputLayout.t)
    (chip1Id chip2Id : string) (overlaps : list Overlap.t) : result (list Overlap.t) :=
  let placement1 := prop_lookup chip1Id (OutputLayout.chipPlacements layout) in
  let placement2 := prop_lookup chip2Id (OutputLayout.chipPlacements layout) in
  match InputProblem.chipMap inputProblem !! chip1Id,
        InputProblem.chipMap inputProblem !! chip2Id with
  | Some chip1, Some chip2 =>
      bounds1 ← getRotatedBounds_of placement1 (Chip.size chip1);
      bounds2 ← getRotatedBounds_of placement2 (Chip.size chip2);
      let overlapArea := calculateOverlapArea bounds1 bounds2 in
      if bool_decide (overlapArea > 0)
      then Ok (overlaps ++ [ {| Overlap.chip1 := chip1Id;
                                Overlap.chip2 := chip2Id;
                                Overlap.overlapArea := overlapArea |} ])
      else Ok overlaps
  | _, _ => Ok overlaps
  end.

(** [for (let j = i + 1; j < chipIds.length; j++)]: [later] is
    [chipIds.slice(i + 1)]. *)
Fixpoint checkAgainstLater (inputProblem : InputProblem.t) (layout : OutputLayout.t)
    (chip1Id : string) (later : list string) (overlaps : list Overlap.t)
  : result (list Overlap.t) :=
  match later with
  | [] => Ok overlaps
  | chip2Id :: later' =>
      overlaps' ← checkPair inputProblem layout chip1Id chip2Id overlaps;
      checkAgainstLater inputProblem layout chip1Id later' overlaps'
  end.

(** [for (let i = 0; i < chipIds.length; i++)]: [chipIds] is
    [chipIds.slice(i)]. *)
Fixpoint checkFrom (inputProblem : InputProblem.t) (layout : OutputLayout.t)
    (chipIds : list string) (overlaps : list Overlap.t) : result (list Overlap.t) :=
  match chipIds with
  | [] => Ok overlaps
  | chip1Id :: later =>
      overlaps' ← checkAgainstLater inputProblem layout chip1Id later overlaps;
      checkFrom inputProblem layout later overlaps'
  end.

Definition checkForOverlaps (inputProblem : InputProblem.t) (layout : OutputLayout.t)
  : result (list Overlap.t) :=
  checkFrom inputProblem layout (Object_keys (OutputLayout.chipPlacements layout)) [].

(** *** The pairs that are reported *)

(** What the body of the inner loop pushes for the pair [(chip1Id, chip2Id)]
    when it does not throw. *)
Definition pushed (inputProblem : InputProblem.t) (layout : OutputLayout.t)
    (chip1Id chip2Id : string) : option Overlap.t :=
  match InputProblem.chipMap inputProblem !! chip1Id,
        InputProblem.chipMap inputProblem !! chip2Id,
        prop_lookup chip1Id (OutputLayout.chipPlacements layout),
        prop_lookup chip2Id (OutputLayout.chipPlacements layout) with
  | Some chip1, Some chip2, Some placement1, Some placement2 =>
      let overlapArea :=
        calculateOverlapArea (getRotatedBounds placement1 (Chip.size chip1))
                             (getRotatedBounds placement2 (Chip.size chip2)) in
      if bool_decide (overlapArea > 0)
      then Some {| Overlap.chip1 := chip1Id; Overlap.chip2 := chip2Id;
                   Overlap.overlapArea := overlapArea |}
      else None
  | _, _, _, _ => None
  end.

(** What the two loops push, pair by pair, for the ids [chipIds]. *)
Fixpoint pushed_from (inputProblem : InputProblem.t) (layout : OutputLayout.t)
    (chipIds : list string) : list Overlap.t :=
  match chipIds with
  | [] => []
  | chip1Id :: later =>
      omap (pushed inputProblem layout chip1Id) later
      ++ pushed_from inputProblem layout later
  end.

(** *** Vocabulary of the specification of the validator *)

(** Two bounds are disjoint when one's max is at most the other's min on
    the X axis, or likewise on the Y axis. *)
Definition disjoint (b1 b2 : Bounds.t) : Prop :=
  Bounds.maxX b1 <= Bounds.minX b2 \/ Bounds.maxX b2 <= Bounds.minX b1 \/
  Bounds.maxY b1 <= Bounds.minY b2 \/ Bounds.maxY b2 <= Bounds.minY b1.

Definition xExtent (b1 b2 : Bounds.t) : R :=
  Rmin (Bounds.maxX b1) (Bounds.maxX b2) - Rmax (Bounds.minX b1) (Bounds.minX b2).

Definition yExtent (b1 b2 : Bounds.t) : R :=
  Rmin (Bounds.maxY b1) (Bounds.maxY b2) - Rmax (Bounds.minY b1) (Bounds.minY b2).

(** Half of the width and half of the height of a bound. *)
Definition halfExtents (b : Bounds.t) : R * R :=
  ((Bounds.maxX b - Bounds.minX b) / 2, (Bounds.maxY b - Bounds.minY b) / 2).

(** The centre of a bound. *)
Definition centre (b : Bounds.t) : R * R :=
  ((Bounds.minX b + Bounds.maxX b) / 2, (Bounds.minY b + Bounds.maxY b) / 2).

End Validator.

(** ** The validator in the arithmetic of the code

    The same three methods with the numbers of the code: a JavaScript
    [number] is an IEEE-754 binary64 value, [+], [-], [*] and [/] round to
    nearest, ties to even, and a comparison with [NaN] is false.
    ECMAScript leaves the values of [Math.cos] and [Math.sin] to the
    implementation (it only fixes them at special arguments), so they are
    an interface.  [chipMap] is an ordinary object: reading a property that
    it does not own finds the members that it inherits from
    [Object.prototype]. *)

Module Double.

Module Point.
Record t := { x : float; y : float }.
End Point.

Module Placement.
Record t := { x : float; y : float; ccwRotationDegrees : float }.
End Placement.

Module Bounds.
Record t := { minX : float; maxX : float; minY : float; maxY : float }.
End Bounds.

Module Chip.
Record t := { size : Point.t }.
End Chip.

Module InputProblem.
Record t := { chipMap : gmap string Chip.t }.
End InputProblem.

Module OutputLayout.
Record t := { chipPlacements : list (string * Placement.t) }.
End OutputLayout.

Module Overlap.
Record t := { chip1 : string; chip2 : string; overlapArea : float }.
End Overlap.

(** *** [Math] *)

(** [Math.PI], the double nearest to pi. *)
Definition Math_PI : float := 0x1.921fb54442d18p+1%float.

Definition Math_abs (x : float) : float := abs x.

Definition is_negative_zero (x : float) : bool :=
  match classify x with
  | NZero => true
  | _ => false
  end.


(** [Math.min(a, b)] and [Math.max(a, b)]: [NaN] when an argument is
    [NaN]; [+0] counts as larger than [-0]. *)
Definition Math_min (a b : float) : float :=
  if is_nan a || is_nan b then nan
  else if (a <? b)%float then a
  else if (b <? a)%float then b
  else if is_negative_zero a then a else b.

Definition Math_max (a b : float) : float :=
  if is_nan a || is_nan b then nan
  else if (a <? b)%float then b
  else if (b <? a)%float then a
  else if is_negative_zero a then b else a.

(** [Math.cos] and [Math.sin] of an implementation, with what ECMAScript
    fixes of them at [+0]. *)
Class MathLibrary := {
  Math_cos : float → float;
  Math_sin : float → float;
  Math_cos_zero : Math_cos 0%float = 1%float;
  Math_sin_zero : Math_sin 0%float = 0%float
}.

(** *** Property reads *)

(** The names of the members of [Object.prototype]. *)
Definition Object_prototype : list string :=
  [ "constructor"; "hasOwnProperty"; "isPrototypeOf"; "propertyIsEnumerable";
    "toLocaleString"; "toString"; "valueOf"; "__proto__";
    "__defineGetter__"; "__defineSetter__"; "__lookupGetter__"; "__lookupSetter__" ].

(** What [obj[key]] evaluates to on an ordinary object: an own property,
    a member inherited from [Object.prototype] (a function, or the
    prototype itself for [__proto__]), or [undefined]. *)
Inductive property (V : Type) :=
| Own (v : V)
| Inherited
| Undefined.

Arguments Own {V} v.
Arguments Inherited {V}.
Arguments Undefined {V}.

Definition get {V : Type} (obj : gmap string V) (key : string) : property V :=
  match obj !! key with
  | Some v => Own v
  | None => if bool_decide (key ∈ Object_prototype) then Inherited else Undefined
  end.

(** [!v] is false for an object and for a function. *)
Definition truthy {V : Type} (v : property V) : bool :=
  match v with
  | Undefined => false
  | _ => true
  end.

(** [chip.size]: the members of [Object.prototype] have no property
    [size]. *)
Definition size_of (chip : property Chip.t) : option Point.t :=
  match chip with
  | Own c => Some (Chip.size c)
  | _ => None
  end.

Section Validator.
Context `{MathLibrary}.
Local Open Scope float_scope.

Definition getRotatedBounds (placement : Placement.t) (size : Point.t) : Bounds.t :=
  let halfWidth := Point.x size / 2 in
  let halfHeight := Point.y size / 2 in
  let angleRad := (Placement.ccwRotationDegrees placement * Math_PI) / 180 in
  let cos := Math_abs (Math_cos angleRad) in
  let sin := Math_abs (Math_sin angleRad) in
  let rotatedWidth := halfWidth * cos + halfHeight * sin in
  let rotatedHeight := halfWidth * sin + halfHeight * cos in
  {| Bounds.minX := Placement.x placement - rotatedWidth;
     Bounds.maxX := Placement.x placement + rotatedWidth;
     Bounds.minY := Placement.y placement - rotatedHeight;
     Bounds.maxY := Placement.y placement + rotatedHeight |}.

(** [a >= b] *)
Definition geb (a b : float) : bool := b <=? a.

Definition calculateOverlapArea (bounds1 bounds2 : Bounds.t) : float :=
  if (Bounds.maxX bounds1 <=? Bounds.minX bounds2)
     || geb (Bounds.minX bounds1) (Bounds.maxX bounds2)
     || (Bounds.maxY bounds1 <=? Bounds.minY bounds2)
     || geb (Bounds.minY bounds1) (Bounds.maxY bounds2)
  then 0
  else
    let overlapWidth :=
      Math_min (Bounds.maxX bounds1) (Bounds.maxX bounds2)
      - Math_max (Bounds.minX bounds1) (Bounds.minX bounds2) in
    let overlapHeight :=
      Math_min (Bounds.maxY bounds1) (Bounds.maxY bounds2)
      - Math_max (Bounds.minY bounds1) (Bounds.minY bounds2) in
    overlapWidth * overlapHeight.

(** [getRotatedBounds] called on the results of two property reads:
    reading [size.x] of [undefined], or a property of an [undefined]
    placement, throws. *)
Definition getRotatedBounds_of (placement : option Placement.t) (size : option Point.t)
  : result Bounds.t :=
  match size, placement with
  | Some sz, Some p => Ok (getRotatedBounds p sz)
  | _, _ => Throw TypeError
  end.

(** The body of the inner loop of [checkForOverlaps], for the pair
    [(chipIds[i], chipIds[j])]; [overlaps] is the array being filled. *)
Definition checkPair (inputProblem : InputProblem.t) (layout : OutputLayout.t)
    (chip1Id chip2Id : string) (overlaps : list Overlap.t) : result (list Overlap.t) :=
  let placement1 := prop_lookup chip1Id (OutputLayout.chipPlacements layout) in
  let placement2 := prop_lookup chip2Id (OutputLayout.chipPlacements layout) in
  let chip1 := get (InputProblem.chipMap inputProblem) chip1Id in
  let chip2 := get (InputProblem.chipMap inputProblem) chip2Id in
  if negb (truthy chip1) || negb (truthy chip2) then Ok overlaps
  else
    bounds1 ← getRotatedBounds_of placement1 (size_of chip1);
    bounds2 ← getRotatedBounds_of placement2 (size_of chip2);
    let overlapArea := calculateOverlapArea bounds1 bounds2 in
    if 0 <? overlapArea
    then Ok (overlaps ++ [ {| Overlap.chip1 := chip1Id;
                              Overlap.chip2 := chip2Id;
                              Overlap.overlapArea := overlapArea |} ])
    else Ok overlaps.

(** [for (let j = i + 1; j < chipIds.length; j++)]: [later] is
    [chipIds.slice(i + 1)]. *)
Fixpoint checkAgainstLater (inputProblem : InputProblem.t) (layout : OutputLayout.t)
    (chip1Id : string) (later : list string) (overlaps : list Overlap.t)
  : result (list Overlap.t) :=
  match later with
  | [] => Ok overlaps
  | chip2Id :: later' =>
      overlaps' ← checkPair inputProblem layout chip1Id chip2Id overlaps;
      checkAgainstLater inputProblem layout chip1Id later' overlaps'
  end.

(** [for (let i = 0; i < chipIds.length; i++)]: [chipIds] is
    [chipIds.slice(i)]. *)
Fixpoint checkFrom (inputProblem : InputProblem.t) (layout : OutputLayout.t)
    (chipIds : list string) (overlaps : list Overlap.t) : result (list Overlap.t) :=
  match chipIds with
  | [] => Ok overlaps
  | chip1Id :: later =>
      overlaps' ← checkAgainstLater inputProblem layout chip1Id later overlaps;
      checkFrom inputProblem layout later overlaps'
  end.

Definition checkForOverlaps (inputProblem : InputProblem.t) (layout : OutputLayout.t)
  : result (list Overlap.t) :=
  checkFrom inputProblem layout (Object_keys (OutputLayout.chipPlacements layout)) [].

(** *** Vocabulary *)


(** The disjointness test of the code: one's max is at most the other's
    min on the X axis, or likewise on the Y axis, in the comparisons of
    doubles. *)
Definition disjoint (b1 b2 : Bounds.t) : bool :=
  (Bounds.maxX b1 <=? Bounds.minX b2) || (Bounds.maxX b2 <=? Bounds.minX b1)
  || (Bounds.maxY b1 <=? Bounds.minY b2) || (Bounds.maxY b2 <=? Bounds.minY b1).

Definition xExtent (b1 b2 : Bounds.t) : float :=
  Math_min (Bounds.maxX b1) (Bounds.maxX b2) - Math_max (Bounds.minX b1) (Bounds.minX b2).

Definition yExtent (b1 b2 : Bounds.t) : float :=
  Math_min (Bounds.maxY b1) (Bounds.maxY b2) - Math_max (Bounds.minY b1) (Bounds.minY b2).

(** The body of the inner loop throws on the pair: both reads of the
    chip map are truthy and one of them is an inherited member. *)
Definition breaks (inputProblem : InputProblem.t) (chip1Id chip2Id : string) : bool :=
  match get (InputProblem.chipMap inputProblem) chip1Id,
        get (InputProblem.chipMap inputProblem) chip2Id with
  | Undefined, _ | _, Undefined => false
  | Own _, Own _ => false
  | _, _ => true
  end.

(** Some pair of the ids, taken in order, makes the body throw. *)
Fixpoint breaks_from (inputProblem : InputProblem.t) (chipIds : list string) : bool :=
  match chipIds with
  | [] => false
  | chip1Id :: later =>
      existsb (breaks inputProblem chip1Id) later || breaks_from inputProblem later
  end.

(** What the body of the inner loop pushes for the pair when it does not
    throw. *)
Definition pushed (inputProblem : InputProblem.t) (layout : OutputLayout.t)
    (chip1Id chip2Id : string) : option Overlap.t :=
  match InputProblem.chipMap inputProblem !! chip1Id,
        InputProblem.chipMap inputProblem !! chip2Id,
        prop_lookup chip1Id (OutputLayout.chipPlacements layout),
        prop_lookup chip2Id (OutputLayout.chipPlacements layout) with
  | Some chip1, Some chip2, Some placement1, Some placement2 =>
      let overlapArea :=
        calculateOverlapArea (getRotatedBounds placement1 (Chip.size chip1))
                             (getRotatedBounds placement2 (Chip.size chip2)) in
      if 0 <? overlapArea
      then Some {| Overlap.chip1 := chip1Id; Overlap.chip2 := chip2Id;
                   Overlap.overlapArea := overlapArea |}
      else None
  | _, _, _, _ => None
  end.

(** What the two loops push, pair by pair, for the ids [chipIds]. *)
Fixpoint pushed_from (inputProblem : InputProblem.t) (layout : OutputLayout.t)
    (chipIds : list string) : list Overlap.t :=
  match chipIds with
  | [] => []
  | chip1Id :: later =>
      omap (pushed inputProblem layout chip1Id) later
      ++ pushed_from inputProblem layout later
  end.

(** The two chips of a report. *)
Definition pair_of (o : Overlap.t) : string * string :=
  (Overlap.chip1 o, Overlap.chip2 o).

(** The pair [(c1, c2)] is among the reports. *)
Definition reported (overlaps : list Overlap.t) (c1 c2 : string) : Prop :=
  ∃ o, o ∈ overlaps /\ pair_of o = (c1, c2).

(** The pair [(c1, c2)] is reported in one order or the other, with the
    area [a]. *)
Definition reported_with (overlaps : list Overlap.t) (c1 c2 : string) (a : float) : Prop :=
  {| Overlap.chip1 := c1; Overlap.chip2 := c2; Overlap.overlapArea := a |} ∈ overlaps \/
  {| Overlap.chip1 := c2; Overlap.chip2 := c1; Overlap.overlapArea := a |} ∈ overlaps.

End Validator.

(** *** An implementation of [Math.cos] and [Math.sin], for examples

    The correctly rounded values of the cosine and the sine at the
    arguments that the examples reach, the angles of 0, 90, 180 and 270
    degrees as [getRotatedBounds] converts them to radians; they are the
    values that V8 returns there.  No example reads the table elsewhere,
    where it answers [NaN]. *)

Definition quarter_turn : float := 0x1.921fb54442d18p+0%float.
Definition half_turn : float := 0x1.921fb54442d18p+1%float.
Definition three_quarter_turn : float := 0x1.2d97c7f3321d2p+2%float.

Definition tabulated_cos (x : float) : float :=
  if (x =? 0)%float then 1%float
  else if (x =? quarter_turn)%float then 0x1.1a62633145c07p-54%float
  else if (x =? half_turn)%float then (-1)%float
  else if (x =? three_quarter_turn)%float then (-0x1.a79394c9e8a0ap-53)%float
  else nan.

Definition tabulated_sin (x : float) : float :=
  if (x =? 0)%float then x
  else if (x =? quarter_turn)%float then 1%float
  else if (x =? half_turn)%float then 0x1.1a62633145c07p-53%float
  else if (x =? three_quarter_turn)%float then (-1)%float
  else nan.

Definition tabulated : MathLibrary :=
  {| Math_cos := tabulated_cos; Math_sin := tabulated_sin;
     Math_cos_zero := eq_refl; Math_sin_zero := eq_refl |}.

(** *** Example data *)

Definition at_angle (x y deg : float) : Placement.t :=
  {| Placement.x := x; Placement.y := y; Placement.ccwRotationDegrees := deg |}.

Definition chip (w h : float) : Chip.t :=
  {| Chip.size := {| Point.x := w; Point.y := h |} |}.

(** A chip without extent and a 2 x 2 chip, both placed at the origin. *)
Definition dot_problem : InputProblem.t :=
  {| InputProblem.chipMap := <["dot" := chip 0 0]> (<["box" := chip 2 2]> ∅) |}.

Definition dot_layout : OutputLayout.t :=
  {| OutputLayout.chipPlacements := [("dot", at_angle 0 0 0); ("box", at_angle 0 0 0)] |}.

(** Two 2 x 2 chips, at (0, 0) and at (1, 0). *)
Definition two_boxes_problem : InputProblem.t :=
  {| InputProblem.chipMap := <["U1" := chip 2 2]> (<["U2" := chip 2 2]> ∅) |}.

Definition two_boxes_layout : OutputLayout.t :=
  {| OutputLayout.chipPlacements := [("U1", at_angle 0 0 0); ("U2", at_angle 1 0 0)] |}.

(** The same layout with its keys in the other order. *)
Definition two_boxes_reversed : OutputLayout.t :=
  {| OutputLayout.chipPlacements := [("U2", at_angle 1 0 0); ("U1", at_angle 0 0 0)] |}.



(** A problem with the chip U1 only, and a layout that also places a chip
    called toString, away from U1. *)
Definition one_chip_problem : InputProblem.t :=
  {| InputProblem.chipMap := <["U1" := chip 2 2]> ∅ |}.

Definition inherited_name_layout : OutputLayout.t :=
  {| OutputLayout.chipPlacements :=
       [("U1", at_angle 0 0 0); ("toString", at_angle 10 10 0)] |}.

(** The same layout with a chip called stray instead. *)
Definition stray_layout : OutputLayout.t :=
  {| OutputLayout.chipPlacements :=
       [("U1", at_angle 0 0 0); ("stray", at_angle 0 0 0)] |}.

End Double.

(** ** Debug graphics

    A graphical primitive of [graphics-debug] (point, rectangle, line,
    circle, text) is its geometry and styling, which this file never
    inspects, together with the optional [step] tag it carries. *)

Module Primitive.
Record t := { shape : string; step : option nat }.
End Primitive.

#[global] Instance Primitive_eq_dec : EqDecision Primitive.t.
Proof. solve_decision. Defined.

Module GraphicsObject.
Record t := {
  points : option (list Primitive.t);
  rects : option (list Primitive.t);
  lines : option (list Primitive.t);
  circles : option (list Primitive.t);
  texts : option (list Primitive.t)
}.
End GraphicsObject.

(** ** Timestamps

    [performance.now()] returns a finite number; subtracting a missing
    ([undefined]) entry of a timing table gives [NaN]. *)

Inductive number :=
| Num (r : R)
| NaN.

Definition js_minus (a b : option number) : number :=
  match a, b with
  | Some (Num u), Some (Num v) => Num (u - v)
  | _, _ => NaN
  end.

(** ** The phase solvers

    The four phase solver classes, the connectivity precomputation and the
    renderer of the input problem are collaborators of the orchestrator:
    it only constructs the solvers, steps them, and reads their status and
    their outputs.  They are taken as an interface; their constructors and
    methods are taken to return, and a step of a solver to change that
    solver only. *)

Class Collaborators := {
  Solver : Type;
  DecouplingCapGroups : Type;
  Partitions : Type;
  PackedPartition : Type;
  PinMap : Type;
  (* the incremental solver contract, as the orchestrator uses it *)
  sub_solved : Solver → bool;
  sub_failed : Solver → bool;
  sub_error : Solver → option string;
  sub_step : Solver → Solver;
  sub_visualize : Solver → GraphicsObject.t;
  (* what the phases expose *)
  outputDecouplingCapGroups : Solver → option DecouplingCapGroups;
  partitions : Solver → option Partitions;
  sub_packedPartitions : Solver → option (list PackedPartition);
  finalLayout : Solver → option OutputLayout.t;
  (* [new C(...)] for the four classes *)
  IdentifyDecouplingCapsSolver : InputProblem.t → Solver;
  ChipPartitionsSolver : InputProblem.t → option DecouplingCapGroups → Solver;
  PackInnerPartitionsSolver : option Partitions → PinMap → Solver;
  PartitionPackingSolver : list PackedPartition → InputProblem.t → Solver;
  (* helpers of the orchestrator *)
  getPinIdToStronglyConnectedPinsObj : InputProblem.t → PinMap;
  (* [visualizeInputProblem(p, doBasicInputProblemLayout(p))] *)
  visualizeBasicLayout : InputProblem.t → GraphicsObject.t
}.

(** ** The orchestrator *)

(** A reference to a sub-solver object. *)
Definition loc := nat.

Inductive PhaseField :=
| startTime
| endTime
| timeSpent
| firstIteration.

(** The effects of [_step] on the orchestrator.  An event is an effect
    with the name of the phase during which it happens.  The history of
    events (in program order) is not a field of the class: it is kept
    beside the object so that what is written when, and what happens
    before what, can be stated. *)
Inductive Effect :=
| Constructed                 (* [this.activeSubSolver = new solverClass(...)] *)
| Wrote (field : PhaseField)  (* an assignment to an entry of a timing table *)
| OnSolved                    (* [pipelineStepDef.onSolved?.(this)] *)
| Cleared                     (* [this.activeSubSolver = null] *)
| Advanced.                   (* [this.currentPipelineStepIndex++] *)

Definition Event : Type := string * Effect.

#[global] Instance PhaseField_eq_dec : EqDecision PhaseField.
Proof. solve_decision. Defined.

#[global] Instance Effect_eq_dec : EqDecision Effect.
Proof. solve_decision. Defined.

Section Orchestrator.
Context `{Collaborators}.

(** The fields of the class with those it inherits from [BaseSolver]
    ([solved], [failed], [error], [iterations], [MAX_ITERATIONS],
    [activeSubSolver]).  The four optional solver fields
    ([identifyDecouplingCapsSolver], ...) are assigned by name, so they are
    kept in [solvers], keyed by field name.  [heap], [clock], [ticks] and
    [trace] are the environment: the sub-solver objects, the readings of
    [performance.now()] with the number of readings taken, and the history
    of effects. *)
Record LayoutPipelineSolver := {
  solved : bool;
  failed : bool;
  error : option string;
  iterations : Z;
  MAX_ITERATIONS : Z;
  activeSubSolver : option loc;
  solvers : gmap string loc;
  startTimeOfPhase : gmap string number;
  endTimeOfPhase : gmap string number;
  timeSpentOnPhase : gmap string number;
  firstIterationOfPhase : gmap string Z;
  pinIdToStronglyConnectedPins : PinMap;
  inputProblem : InputProblem.t;
  chipPartitions : option Partitions;
  packedPartitions : option (list PackedPartition);
  currentPipelineStepIndex : nat;
  heap : list Solver;
  clock : nat → R;
  ticks : nat;
  trace : list Event
}.

Definition set_solved (v : bool) (s : LayoutPipelineSolver) : LayoutPipelineSolver :=
  {| solved := v; failed := failed s; error := error s; iterations := iterations s;
     MAX_ITERATIONS := MAX_ITERATIONS s; activeSubSolver := activeSubSolver s;
     solvers := solvers s; startTimeOfPhase := startTimeOfPhase s;
     endTimeOfPhase := endTimeOfPhase s; timeSpentOnPhase := timeSpentOnPhase s;
     firstIterationOfPhase := firstIterationOfPhase s;
     pinIdToStronglyConnectedPins := pinIdToStronglyConnectedPins s;
     inputProblem := inputProblem s; chipPartitions := chipPartitions s;
     packedPartitions := packedPartitions s;
     currentPipelineStepIndex := currentPipelineStepIndex s; heap := heap s;
     clock := clock s; ticks := ticks s; trace := trace s |}.

Definition set_failed (v : bool) (s : LayoutPipelineSolver) : LayoutPipelineSolver :=
  {| solved := solved s; failed := v; error := error s; iterations := iterations s;
     MAX_ITERATIONS := MAX_ITERATIONS s; activeSubSolver := activeSubSolver s;
     solvers := solvers s; startTimeOfPhase := startTimeOfPhase s;
     endTimeOfPhase := endTimeOfPhase s; timeSpentOnPhase := timeSpentOnPhase s;
     firstIterationOfPhase := firstIterationOfPhase s;
     pinIdToStronglyConnectedPins := pinIdToStronglyConnectedPins s;
     inputProblem := inputProblem s; chipPartitions := chipPartitions s;
     packedPartitions := packedPartitions s;
     currentPipelineStepIndex := currentPipelineStepIndex s; heap := heap s;
     clock := clock s; ticks := ticks s; trace := trace s |}.

Definition set_error (v : option string) (s : LayoutPipelineSolver) : LayoutPipelineSolver :=
  {| solved := solved s; failed := failed s; error := v; iterations := iterations s;
     MAX_ITERATIONS := MAX_ITERATIONS s; activeSubSolver := activeSubSolver s;
     solvers := solvers s; startTimeOfPhase := startTimeOfPhase s;
     endTimeOfPhase := endTimeOfPhase s; timeSpentOnPhase := timeSpentOnPhase s;
     firstIterationOfPhase := firstIterationOfPhase s;
     pinIdToStronglyConnectedPins := pinIdToStronglyConnectedPins s;
     inputProblem := inputProblem s; chipPartitions := chipPartitions s;
     packedPartitions := packedPartitions s;
     currentPipelineStepIndex := currentPipelineStepIndex s; heap := heap s;
     clock := clock s; ticks := ticks s; trace := trace s |}.

Definition set_iterations (v : Z) (s : LayoutPipelineSolver) : LayoutPipelineSolver :=
  {| solved := solved s; failed := failed s; error := error s; iterations := v;
     MAX_ITERATIONS := MAX_ITERATIONS s; activeSubSolver := activeSubSolver s;
     solvers := solvers s; startTimeOfPhase := startTimeOfPhase s;
     endTimeOfPhase := endTimeOfPhase s; timeSpentOnPhase := timeSpentOnPhase s;
     firstIterationOfPhase := firstIterationOfPhase s;
     pinIdToStronglyConnectedPins := pinIdToStronglyConnectedPins s;
     inputProblem := inputProblem s; chipPartitions := chipPartitions s;
     packedPartitions := packedPartitions s;
     currentPipelineStepIndex := currentPipelineStepIndex s; heap := heap s;
     clock := clock s; ticks := ticks s; trace := trace s |}.

Definition set_activeSubSolver (v : option loc) (s : LayoutPipelineSolver) : LayoutPipelineSolver :=
  {| solved := solved s; failed := failed s; error := error s;
     iterations := iterations s; MAX_ITERATIONS := MAX_ITERATIONS s;
     activeSubSolver := v; solvers := solvers s; startTimeOfPhase := startTimeOfPhase s;
     endTimeOfPhase := endTimeOfPhase s; timeSpentOnPhase := timeSpentOnPhase s;
     firstIterationOfPhase := firstIterationOfPhase s;
     pinIdToStronglyConnectedPins := pinIdToStronglyConnectedPins s;
     inputProblem := inputProblem s; chipPartitions := chipPartitions s;
     packedPartitions := packedPartitions s;
     currentPipelineStepIndex := currentPipelineStepIndex s; heap := heap s;
     clock := clock s; ticks := ticks s; trace := trace s |}.

Definition set_solvers (v : gmap string loc) (s : LayoutPipelineSolver) : LayoutPipelineSolver :=
  {| solved := solved s; failed := failed s; error := error s;
     iterations := iterations s; MAX_ITERATIONS := MAX_ITERATIONS s;
     activeSubSolver := activeSubSolver s; solvers := v;
     startTimeOfPhase := startTimeOfPhase s; endTimeOfPhase := endTimeOfPhase s;
     timeSpentOnPhase := timeSpentOnPhase s;
     firstIterationOfPhase := firstIterationOfPhase s;
     pinIdToStronglyConnectedPins := pinIdToStronglyConnectedPins s;
     inputProblem := inputProblem s; chipPartitions := chipPartitions s;
     packedPartitions := packedPartitions s;
     currentPipelineStepIndex := currentPipelineStepIndex s; heap := heap s;
     clock := clock s; ticks := ticks s; trace := trace s |}.

Definition set_startTimeOfPhase (v : gmap string number) (s : LayoutPipelineSolver) : LayoutPipelineSolver :=
  {| solved := solved s; failed := failed s; error := error s;
     iterations := iterations s; MAX_ITERATIONS := MAX_ITERATIONS s;
     activeSubSolver := activeSubSolver s; solvers := solvers s; startTimeOfPhase := v;
     endTimeOfPhase := endTimeOfPhase s; timeSpentOnPhase := timeSpentOnPhase s;
     firstIterationOfPhase := firstIterationOfPhase s;
     pinIdToStronglyConnectedPins := pinIdToStronglyConnectedPins s;
     inputProblem := inputProblem s; chipPartitions := chipPartitions s;
     packedPartitions := packedPartitions s;
     currentPipelineStepIndex := currentPipelineStepIndex s; heap := heap s;
     clock := clock s; ticks := ticks s; trace := trace s |}.

Definition set_endTimeOfPhase (v : gmap string number) (s : LayoutPipelineSolver) : LayoutPipelineSolver :=
  {| solved := solved s; failed := failed s; error := error s;
     iterations := iterations s; MAX_ITERATIONS := MAX_ITERATIONS s;
     activeSubSolver := activeSubSolver s; solvers := solvers s;
     startTimeOfPhase := startTimeOfPhase s; endTimeOfPhase := v;
     timeSpentOnPhase := timeSpentOnPhase s;
     firstIterationOfPhase := firstIterationOfPhase s;
     pinIdToStronglyConnectedPins := pinIdToStronglyConnectedPins s;
     inputProblem := inputProblem s; chipPartitions := chipPartitions s;
     packedPartitions := packedPartitions s;
     currentPipelineStepIndex := currentPipelineStepIndex s; heap := heap s;
     clock := clock s; ticks := ticks s; trace := trace s |}.

Definition set_timeSpentOnPhase (v : gmap string number) (s : LayoutPipelineSolver) : LayoutPipelineSolver :=
  {| solved := solved s; failed := failed s; error := error s;
     iterations := iterations s; MAX_ITERATIONS := MAX_ITERATIONS s;
     activeSubSolver := activeSubSolver s; solvers := solvers s;
     startTimeOfPhase := startTimeOfPhase s; endTimeOfPhase := endTimeOfPhase s;
     timeSpentOnPhase := v; firstIterationOfPhase := firstIterationOfPhase s;
     pinIdToStronglyConnectedPins := pinIdToStronglyConnectedPins s;
     inputProblem := inputProblem s; chipPartitions := chipPartitions s;
     packedPartitions := packedPartitions s;
     currentPipelineStepIndex := currentPipelineStepIndex s; heap := heap s;
     clock := clock s; ticks := ticks s; trace := trace s |}.

Definition set_firstIterationOfPhase (v : gmap string Z) (s : LayoutPipelineSolver) : LayoutPipelineSolver :=
  {| solved := solved s; failed := failed s; error := error s;
     iterations := iterations s; MAX_ITERATIONS := MAX_ITERATIONS s;
     activeSubSolver := activeSubSolver s; solvers := solvers s;
     startTimeOfPhase := startTimeOfPhase s; endTimeOfPhase := endTimeOfPhase s;
     timeSpentOnPhase := timeSpentOnPhase s; firstIterationOfPhase := v;
     pinIdToStronglyConnectedPins := pinIdToStronglyConnectedPins s;
     inputProblem := inputProblem s; chipPartitions := chipPartitions s;
     packedPartitions := packedPartitions s;
     currentPipelineStepIndex := currentPipelineStepIndex s; heap := heap s;
     clock := clock s; ticks := ticks s; trace := trace s |}.

Definition set_chipPartitions (v : option Partitions) (s : LayoutPipelineSolver) : LayoutPipelineSolver :=
  {| solved := solved s; failed := failed s; error := error s;
     iterations := iterations s; MAX_ITERATIONS := MAX_ITERATIONS s;
     activeSubSolver := activeSubSolver s; solvers := solvers s;
     startTimeOfPhase := startTimeOfPhase s; endTimeOfPhase := endTimeOfPhase s;
     timeSpentOnPhase := timeSpentOnPhase s;
     firstIterationOfPhase := firstIterationOfPhase s;
     pinIdToStronglyConnectedPins := pinIdToStronglyConnectedPins s;
     inputProblem := inputProblem s; chipPartitions := v;
     packedPartitions := packedPartitions s;
     currentPipelineStepIndex := currentPipelineStepIndex s; heap := heap s;
     clock := clock s; ticks := ticks s; trace := trace s |}.

Definition set_packedPartitions (v : option (list PackedPartition)) (s : LayoutPipelineSolver) : LayoutPipelineSolver :=
  {| solved := solved s; failed := failed s; error := error s;
     iterations := iterations s; MAX_ITERATIONS := MAX_ITERATIONS s;
     activeSubSolver := activeSubSolver s; solvers := solvers s;
     startTimeOfPhase := startTimeOfPhase s; endTimeOfPhase := endTimeOfPhase s;
     timeSpentOnPhase := timeSpentOnPhase s;
     firstIterationOfPhase := firstIterationOfPhase s;
     pinIdToStronglyConnectedPins := pinIdToStronglyConnectedPins s;
     inputProblem := inputProblem s; chipPartitions := chipPartitions s;
     packedPartitions := v; currentPipelineStepIndex := currentPipelineStepIndex s;
     heap := heap s; clock := clock s; ticks := ticks s; trace := trace s |}.

Definition set_currentPipelineStepIndex (v : nat) (s : LayoutPipelineSolver) : LayoutPipelineSolver :=
  {| solved := solved s; failed := failed s; error := error s;
     iterations := iterations s; MAX_ITERATIONS := MAX_ITERATIONS s;
     activeSubSolver := activeSubSolver s; solvers := solvers s;
     startTimeOfPhase := startTimeOfPhase s; endTimeOfPhase := endTimeOfPhase s;
     timeSpentOnPhase := timeSpentOnPhase s;
     firstIterationOfPhase := firstIterationOfPhase s;
     pinIdToStronglyConnectedPins := pinIdToStronglyConnectedPins s;
     inputProblem := inputProblem s; chipPartitions := chipPartitions s;
     packedPartitions := packedPartitions s; currentPipelineStepIndex := v;
     heap := heap s; clock := clock s; ticks := ticks s; trace := trace s |}.

Definition set_heap (v : list Solver) (s : LayoutPipelineSolver) : LayoutPipelineSolver :=
  {| solved := solved s; failed := failed s; error := error s;
     iterations := iterations s; MAX_ITERATIONS := MAX_ITERATIONS s;
     activeSubSolver := activeSubSolver s; solvers := solvers s;
     startTimeOfPhase := startTimeOfPhase s; endTimeOfPhase := endTimeOfPhase s;
     timeSpentOnPhase := timeSpentOnPhase s;
     firstIterationOfPhase := firstIterationOfPhase s;
     pinIdToStronglyConnectedPins := pinIdToStronglyConnectedPins s;
     inputProblem := inputProblem s; chipPartitions := chipPartitions s;
     packedPartitions := packedPartitions s;
     currentPipelineStepIndex := currentPipelineStepIndex s; heap := v;
     clock := clock s; ticks := ticks s; trace := trace s |}.

Definition set_ticks (v : nat) (s : LayoutPipelineSolver) : LayoutPipelineSolver :=
  {| solved := solved s; failed := failed s; error := error s;
     iterations := iterations s; MAX_ITERATIONS := MAX_ITERATIONS s;
     activeSubSolver := activeSubSolver s; solvers := solvers s;
     startTimeOfPhase := startTimeOfPhase s; endTimeOfPhase := endTimeOfPhase s;
     timeSpentOnPhase := timeSpentOnPhase s;
     firstIterationOfPhase := firstIterationOfPhase s;
     pinIdToStronglyConnectedPins := pinIdToStronglyConnectedPins s;
     inputProblem := inputProblem s; chipPartitions := chipPartitions s;
     packedPartitions := packedPartitions s;
     currentPipelineStepIndex := currentPipelineStepIndex s; heap := heap s;
     clock := clock s; ticks := v; trace := trace s |}.

Definition set_trace (v : list Event) (s : LayoutPipelineSolver) : LayoutPipelineSolver :=
  {| solved := solved s; failed := failed s; error := error s;
     iterations := iterations s; MAX_ITERATIONS := MAX_ITERATIONS s;
     activeSubSolver := activeSubSolver s; solvers := solvers s;
     startTimeOfPhase := startTimeOfPhase s; endTimeOfPhase := endTimeOfPhase s;
     timeSpentOnPhase := timeSpentOnPhase s;
     firstIterationOfPhase := firstIterationOfPhase s;
     pinIdToStronglyConnectedPins := pinIdToStronglyConnectedPins s;
     inputProblem := inputProblem s; chipPartitions := chipPartitions s;
     packedPartitions := packedPartitions s;
     currentPipelineStepIndex := currentPipelineStepIndex s; heap := heap s;
     clock := clock s; ticks := ticks s; trace := v |}.

Definition identifyDecouplingCapsSolver (s : LayoutPipelineSolver) : option loc :=
  solvers s !! "identifyDecouplingCapsSolver".
Definition chipPartitionsSolver (s : LayoutPipelineSolver) : option loc :=
  solvers s !! "chipPartitionsSolver".
Definition packInnerPartitionsSolver (s : LayoutPipelineSolver) : option loc :=
  solvers s !! "packInnerPartitionsSolver".
Definition partitionPackingSolver (s : LayoutPipelineSolver) : option loc :=
  solvers s !! "partitionPackingSolver".

(** The object behind a reference. *)
Definition deref (s : LayoutPipelineSolver) (l : loc) : option Solver :=
  heap s !! l.

(** The object behind an optional field: [this.f?.] *)
Definition deref_opt (s : LayoutPipelineSolver) (f : option loc) : option Solver :=
  f ≫= deref s.

Definition emit (e : Event) (s : LayoutPipelineSolver) : LayoutPipelineSolver :=
  set_trace (trace s ++ [e]) s.

(** [performance.now()] *)
Definition performance_now (s : LayoutPipelineSolver) : R * LayoutPipelineSolver :=
  (clock s (ticks s), set_ticks (S (ticks s)) s).

(** [this.activeSubSolver = new solverClass(...)]: the new object gets a
    fresh location. *)
Definition allocate (o : Solver) (s : LayoutPipelineSolver) : loc * LayoutPipelineSolver :=
  let l := length (heap s) in
  (l, set_activeSubSolver (Some l) (set_heap (heap s ++ [o]) s)).

Record PipelineStep := {
  solverName : string;
  (* [new solverClass(...getConstructorParams(instance))] *)
  construct : LayoutPipelineSolver → Solver;
  onSolved : option (LayoutPipelineSolver → result LayoutPipelineSolver)
}.

Definition pipelineDef : list PipelineStep :=
  [ {| solverName := "identifyDecouplingCapsSolver";
       construct := fun this => IdentifyDecouplingCapsSolver (inputProblem this);
       onSolved := Some (fun this => Ok this) |};
    {| solverName := "chipPartitionsSolver";
       construct := fun this =>
         ChipPartitionsSolver (inputProblem this)
           (deref_opt this (identifyDecouplingCapsSolver this)
              ≫= outputDecouplingCapGroups);
       onSolved := Some (fun this =>
         match deref_opt this (chipPartitionsSolver this) with
         | Some o => Ok (set_chipPartitions (partitions o) this)
         | None => Throw TypeError
         end) |};
    {| solverName := "packInnerPartitionsSolver";
       construct := fun this =>
         PackInnerPartitionsSolver (chipPartitions this)
           (pinIdToStronglyConnectedPins this);
       onSolved := Some (fun this =>
         match deref_opt this (packInnerPartitionsSolver this) with
         | Some o => Ok (set_packedPartitions (sub_packedPartitions o) this)
         | None => Throw TypeError
         end) |};
    {| solverName := "partitionPackingSolver";
       construct := fun this =>
         PartitionPackingSolver (default [] (packedPartitions this))
           (inputProblem this);
       onSolved := Some (fun this => Ok this) |} ].

(** [constructor(inputProblem)]; [clock] is the environment's clock.  The
    inherited fields start as the base class leaves them: not solved, not
    failed, no error, no iteration, no active sub-solver. *)
Definition new_LayoutPipelineSolver (problem : InputProblem.t) (clock : nat → R)
  : LayoutPipelineSolver :=
  {| solved := false; failed := false; error := None; iterations := 0;
     MAX_ITERATIONS := 1000000; activeSubSolver := None; solvers := ∅;
     startTimeOfPhase := ∅; endTimeOfPhase := ∅; timeSpentOnPhase := ∅;
     firstIterationOfPhase := ∅;
     pinIdToStronglyConnectedPins := getPinIdToStronglyConnectedPinsObj problem;
     inputProblem := problem; chipPartitions := None; packedPartitions := None;
     currentPipelineStepIndex := 0; heap := []; clock := clock; ticks := 0;
     trace := [] |}.

(** [pipelineStepDef.onSolved?.(this)] *)
Definition run_onSolved (pipelineStepDef : PipelineStep) (s : LayoutPipelineSolver)
  : result LayoutPipelineSolver :=
  match onSolved pipelineStepDef with
  | Some hook => hook (emit (solverName pipelineStepDef, OnSolved) s)
  | None => Ok s
  end.

(** The branch of [_step] taken when the active sub-solver is solved. *)
Definition complete_phase (pipelineStepDef : PipelineStep) (s : LayoutPipelineSolver)
  : result LayoutPipelineSolver :=
  let name := solverName pipelineStepDef in
  let '(now, s) := performance_now s in
  let s := emit (name, Wrote endTime)
             (set_endTimeOfPhase (<[name := Num now]> (endTimeOfPhase s)) s) in
  let s := emit (name, Wrote timeSpent)
             (set_timeSpentOnPhase
                (<[name := js_minus (endTimeOfPhase s !! name) (startTimeOfPhase s !! name)]>
                   (timeSpentOnPhase s)) s) in
  s ← run_onSolved pipelineStepDef s;
  let s := emit (name, Cleared) (set_activeSubSolver None s) in
  Ok (emit (name, Advanced)
        (set_currentPipelineStepIndex (S (currentPipelineStepIndex s)) s)).

(** The branch of [_step] taken when the active sub-solver is failed. *)
Definition fail_phase (pipelineStepDef : PipelineStep) (sub : Solver)
    (s : LayoutPipelineSolver) : LayoutPipelineSolver :=
  let s := set_error (sub_error sub) s in
  let s := set_failed true s in
  emit (solverName pipelineStepDef, Cleared) (set_activeSubSolver None s).

(** The part of [_step] that initializes the next solver in the pipeline. *)
Definition start_phase (pipelineStepDef : PipelineStep) (s : LayoutPipelineSolver)
  : LayoutPipelineSolver :=
  let name := solverName pipelineStepDef in
  let '(l, s) := allocate (construct pipelineStepDef s) s in
  let s := emit (name, Constructed) s in
  let s := set_solvers (<[name := l]> (solvers s)) s in
  let s := emit (name, Wrote timeSpent)
             (set_timeSpentOnPhase (<[name := Num 0]> (timeSpentOnPhase s)) s) in
  let '(now, s) := performance_now s in
  let s := emit (name, Wrote startTime)
             (set_startTimeOfPhase (<[name := Num now]> (startTimeOfPhase s)) s) in
  emit (name, Wrote firstIteration)
    (set_firstIterationOfPhase (<[name := iterations s]> (firstIterationOfPhase s)) s).

(** [_step()].  A reference that points outside the heap does not exist
    in JavaScript; the model throws there. *)
Definition _step (s : LayoutPipelineSolver) : result LayoutPipelineSolver :=
  match pipelineDef !! currentPipelineStepIndex s with
  | None => Ok (set_solved true s)
  | Some pipelineStepDef =>
      match activeSubSolver s with
      | Some l =>
          match deref s l with
          | Some sub =>
              let sub := sub_step sub in
              let s := set_heap (<[l := sub]> (heap s)) s in
              if sub_solved sub then complete_phase pipelineStepDef s
              else if sub_failed sub then Ok (fail_phase pipelineStepDef sub s)
              else Ok s
          | None => Throw TypeError
          end
      | None => Ok (start_phase pipelineStepDef s)
      end
  end.

Definition IterationLimitExceeded : string := "IterationLimitExceeded".

(** Modelled from the spec: [BaseSolver.step], the method of the base
    class (lib/solvers/BaseSolver, not among the sources) that wraps
    [_step].  It is a no-op once [solved] or [failed] is true; otherwise it
    increments the iteration counter, performs one [_step], and when the
    iteration bound is exceeded without reaching [solved] the solver
    becomes [failed] with an IterationLimitExceeded error. *)
Definition step (s : LayoutPipelineSolver) : result LayoutPipelineSolver :=
  if solved s || failed s then Ok s
  else
    s ← _step (set_iterations (iterations s + 1) s);
    if negb (solved s) && bool_decide (MAX_ITERATIONS s < iterations s)%Z
    then Ok (set_failed true (set_error (Some IterationLimitExceeded) s))
    else Ok s.

Definition getCurrentPhase (s : LayoutPipelineSolver) : string :=
  default "none" (solverName <$> pipelineDef !! currentPipelineStepIndex s).

(** [solveUntilPhase(phase)].  The [while] loop is unrolled at most [fuel]
    times: [None] means that the loop is still running after [fuel] calls
    of [step]. *)
Fixpoint solveUntilPhase (fuel : nat) (phase : string) (s : LayoutPipelineSolver)
  : option (result LayoutPipelineSolver) :=
  if decide (getCurrentPhase s = phase) then Some (Ok s)
  else
    match fuel with
    | O => None
    | S fuel' =>
        match step s with
        | Ok s' => solveUntilPhase fuel' phase s'
        | Throw e => Some (Throw e)
        end
    end.

(** [n] calls of [step()] in a row. *)
Fixpoint steps (n : nat) (s : LayoutPipelineSolver) : result LayoutPipelineSolver :=
  match n with
  | O => Ok s
  | S n' => s' ← step s; steps n' s'
  end.

(** *** The visualization compositor *)

(** [prim.step = stepIndex] *)
Definition tagged (stepIndex : nat) (prim : Primitive.t) : Primitive.t :=
  {| Primitive.shape := Primitive.shape prim; Primitive.step := Some stepIndex |}.

(** [for (const prim of viz.f ?? []) prim.step = stepIndex] *)
Definition tag_all (stepIndex : nat) (prims : option (list Primitive.t))
  : option (list Primitive.t) :=
  fmap (M := list) (tagged stepIndex) <$> prims.

(** The callback of [.map((viz, stepIndex) => ...)]. *)
Definition tag_viz (stepIndex : nat) (viz : GraphicsObject.t) : GraphicsObject.t :=
  {| GraphicsObject.points := tag_all stepIndex (GraphicsObject.points viz);
     GraphicsObject.rects := tag_all stepIndex (GraphicsObject.rects viz);
     GraphicsObject.lines := tag_all stepIndex (GraphicsObject.lines viz);
     GraphicsObject.circles := tag_all stepIndex (GraphicsObject.circles viz);
     GraphicsObject.texts := tag_all stepIndex (GraphicsObject.texts viz) |}.

(** [visualizations.flatMap((v) => v.f || [])] *)
Definition flatMap_field (f : GraphicsObject.t → option (list Primitive.t))
    (visualizations : list GraphicsObject.t) : list Primitive.t :=
  visualizations ≫= (fun v => default [] (f v)).

Definition merge_viz (visualizations : list GraphicsObject.t) : GraphicsObject.t :=
  {| GraphicsObject.points := Some (flatMap_field GraphicsObject.points visualizations);
     GraphicsObject.rects := Some (flatMap_field GraphicsObject.rects visualizations);
     GraphicsObject.lines := Some (flatMap_field GraphicsObject.lines visualizations);
     GraphicsObject.circles := Some (flatMap_field GraphicsObject.circles visualizations);
     GraphicsObject.texts := Some (flatMap_field GraphicsObject.texts visualizations) |}.

(** The list [[inputViz, identifyDecouplingCapsViz, ...]] before
    [.filter(Boolean)]. *)
Definition available_viz (s : LayoutPipelineSolver) : list (option GraphicsObject.t) :=
  [ Some (visualizeBasicLayout (inputProblem s));
    sub_visualize <$> deref_opt s (identifyDecouplingCapsSolver s);
    sub_visualize <$> deref_opt s (chipPartitionsSolver s);
    sub_visualize <$> deref_opt s (packInnerPartitionsSolver s);
    sub_visualize <$> deref_opt s (partitionPackingSolver s) ].

(** The multi-phase fallback of [visualize()], from the declaration of
    [identifyDecouplingCapsViz] to the end of the method. *)
Definition visualize_fallback (s : LayoutPipelineSolver) : GraphicsObject.t :=
  let visualizations := imap tag_viz (omap (fun viz => viz) (available_viz s)) in
  match visualizations with
  | [v] => v
  | _ => merge_viz visualizations
  end.

Definition visualize (s : LayoutPipelineSolver) : GraphicsObject.t :=
  match (if solved s then None else deref_opt s (activeSubSolver s)) with
  | Some sub => sub_visualize sub
  | None =>
      match (if solved s then deref_opt s (partitionPackingSolver s) else None) with
      | Some pps =>
          if sub_solved pps then sub_visualize pps else visualize_fallback s
      | None => visualize_fallback s
      end
  end.

(** *** The layout accessor *)

(** What [getOutputLayout] hands to [console.warn]: the number of
    violations and the violations that the message lists. *)
Inductive ConsoleMessage :=
| PhysicalOverlapDetected (violations : nat) (details : list Overlap.t).

Definition IncompleteError : JsError :=
  Error "Pipeline execution incomplete. Ensure solve() is called.".

Definition InvalidFinalLayoutError : JsError :=
  Error "Final layout extraction failed. Pipeline state is invalid.".

(** [getOutputLayout()]: the returned layout together with what was
    written to the console. *)
Definition getOutputLayout (s : LayoutPipelineSolver)
  : result (OutputLayout.t * list ConsoleMessage) :=
  if negb (solved s) then Throw IncompleteError
  else
    match deref_opt s (partitionPackingSolver s) with
    | None => Throw InvalidFinalLayoutError
    | Some pps =>
        if negb (sub_solved pps) then Throw InvalidFinalLayoutError
        else
          match finalLayout pps with
          | None => Throw InvalidFinalLayoutError
          | Some layout =>
              overlaps ← checkForOverlaps (inputProblem s) layout;
              if bool_decide (0 < length overlaps)
              then Ok (layout, [PhysicalOverlapDetected (length overlaps) overlaps])
              else Ok (layout, [])
          end
    end.

(** *** Vocabulary for histories *)

(** The effects of the phase called [name], in order. *)
Definition history_of (name : string) (t : list Event) : list Effect :=
  (filter (fun e => e.1 = name) t).*2.

(** How many times the entry [name] of the table [field] was assigned. *)
Definition writes (field : PhaseField) (name : string) (t : list Event) : nat :=
  length (filter (fun e => e = (name, Wrote field)) t).

(** What constructing the solver of a phase does, in order. *)
Definition starting : list Effect :=
  [Constructed; Wrote timeSpent; Wrote startTime; Wrote firstIteration].

(** What completing a phase does, in order. *)
Definition completing : list Effect :=
  [Wrote endTime; Wrote timeSpent; OnSolved; Cleared; Advanced].

(** Where the current phase stands. *)
Inductive Progress :=
| NotStarted
| Started
| Aborted.

Definition partial_history (p : Progress) : list Effect :=
  match p with
  | NotStarted => []
  | Started => starting
  | Aborted => starting ++ [Cleared]
  end.

Definition events_of (name : string) (effects : list Effect) : list Event :=
  pair name <$> effects.

(** The history of an orchestrator that has completed the phases
    [completed] and stands at [p] in the phase called [current]. *)
Definition history (completed : list string) (current : string) (p : Progress)
  : list Event :=
  (completed ≫= fun name => events_of name (starting ++ completing))
  ++ events_of current (partial_history p).



(** *** Vocabulary for visualizations *)

(** All the primitives of a graphics object. *)
Definition all_primitives (v : GraphicsObject.t) : list Primitive.t :=
  default [] (GraphicsObject.points v) ++ default [] (GraphicsObject.rects v)
  ++ default [] (GraphicsObject.lines v) ++ default [] (GraphicsObject.circles v)
  ++ default [] (GraphicsObject.texts v).

(** [visualize()] delegates neither to the active sub-solver nor to the
    solver of the last phase. *)
Definition in_fallback (s : LayoutPipelineSolver) : Prop :=
  (solved s = true \/ deref_opt s (activeSubSolver s) = None) /\
  (solved s = false \/
   ∀ pps, deref_opt s (partitionPackingSolver s) = Some pps → sub_solved pps = false).

(** The active sub-solver, when there is one, is an object of the heap
    and is the one that the field of the current phase holds. *)
Definition active_is_current (s : LayoutPipelineSolver) : Prop :=
  ∀ l, activeSubSolver s = Some l →
       l < length (heap s) /\
       ∀ d, pipelineDef !! currentPipelineStepIndex s = Some d →
            solvers s !! solverName d = Some l.

(** The names of the phases, in the order of the table. *)
Definition phase_names : list string := solverName <$> pipelineDef.

(** What holds of every state that [step()] reaches from a new
    orchestrator, standing at [p] in its current phase:
    - the history is the full history of the phases before the current
      index followed by the partial history of the current phase;
    - the current phase has no solver before it starts, has an active
      solver and a start time while it runs, and is left only by
      completion; a failure of its solver leaves it aborted;
    - every phase before the current index has its three times, and the
      time spent is the end time minus the start time. *)
Record consistent (s : LayoutPipelineSolver) (p : Progress) : Prop := {
  consistent_index : currentPipelineStepIndex s ≤ length pipelineDef;
  consistent_trace :
    trace s = history (take (currentPipelineStepIndex s) phase_names)
                (getCurrentPhase s) p;
  consistent_progress :
    match p with
    | NotStarted => activeSubSolver s = None
    | Started =>
        is_Some (activeSubSolver s) /\
        currentPipelineStepIndex s < length pipelineDef /\
        ∃ t0, startTimeOfPhase s !! getCurrentPhase s = Some (Num t0)
    | Aborted =>
        activeSubSolver s = None /\ failed s = true /\
        currentPipelineStepIndex s < length pipelineDef
    end;
  consistent_times :
    ∀ j name, phase_names !! j = Some name → j < currentPipelineStepIndex s →
      ∃ t0 t1 : R,
        startTimeOfPhase s !! name = Some (Num t0) /\
        endTimeOfPhase s !! name = Some (Num t1) /\
        timeSpentOnPhase s !! name = Some (Num (t1 - t0))
}.

End Orchestrator.

(** ** Scripted phase solvers

    A concrete implementation of the collaborators, used to run the
    orchestrator on examples: a scripted solver goes through the statuses
    of its script, one per [step()], and then stays where it is. *)

Module Toy.

Inductive status :=
| Running
| Solved
| Failed.

Record solver := {
  label : string;
  now : status;
  script : list status;
  layout : option OutputLayout.t
}.

Definition is_solved (o : solver) : bool :=
  match now o with Solved => true | _ => false end.

Definition is_failed (o : solver) : bool :=
  match now o with Failed => true | _ => false end.

Definition error_of (o : solver) : option string :=
  match now o with Failed => Some ("failure of " +:+ label o) | _ => None end.

Definition advance (o : solver) : solver :=
  match script o with
  | [] => o
  | st :: rest => {| label := label o; now := st; script := rest; layout := layout o |}
  end.

Definition picture (o : solver) : GraphicsObject.t :=
  {| GraphicsObject.points := None;
     GraphicsObject.rects := Some [ {| Primitive.shape := label o; Primitive.step := None |} ];
     GraphicsObject.lines := None;
     GraphicsObject.circles := None;
     GraphicsObject.texts := None |}.

Definition background : GraphicsObject.t :=
  {| GraphicsObject.points := Some [ {| Primitive.shape := "pin"; Primitive.step := None |} ];
     GraphicsObject.rects := Some [ {| Primitive.shape := "chip"; Primitive.step := None |} ];
     GraphicsObject.lines := None;
     GraphicsObject.circles := None;
     GraphicsObject.texts := None |}.

Definition fresh (name : string) (scripts : string → list status)
    (final : option OutputLayout.t) : solver :=
  {| label := name; now := Running; script := scripts name; layout := final |}.

(** The collaborators in which the solver of the phase called [name]
    follows [scripts name], and the last phase exposes [final]. *)
Definition collaborators (scripts : string → list status) (final : option OutputLayout.t)
  : Collaborators :=
  {| Solver := solver;
     DecouplingCapGroups := unit;
     Partitions := unit;
     PackedPartition := unit;
     PinMap := unit;
     sub_solved := is_solved;
     sub_failed := is_failed;
     sub_error := error_of;
     sub_step := advance;
     sub_visualize := picture;
     outputDecouplingCapGroups := fun o => if is_solved o then Some () else None;
     partitions := fun o => if is_solved o then Some () else None;
     sub_packedPartitions := fun o => if is_solved o then Some [()] else None;
     finalLayout := fun o => if is_solved o then layout o else None;
     IdentifyDecouplingCapsSolver := fun _ =>
       fresh "identifyDecouplingCapsSolver" scripts None;
     ChipPartitionsSolver := fun _ _ => fresh "chipPartitionsSolver" scripts None;
     PackInnerPartitionsSolver := fun _ _ => fresh "packInnerPartitionsSolver" scripts None;
     PartitionPackingSolver := fun _ _ => fresh "partitionPackingSolver" scripts final;
     getPinIdToStronglyConnectedPinsObj := fun _ => ();
     visualizeBasicLayout := fun _ => background |}.

(** Every phase is solved by its first step. *)
Definition immediate : Collaborators :=
  collaborators (fun _ => [Solved]) (Some {| OutputLayout.chipPlacements := [] |}).

(** The first phase fails at its first step. *)
Definition failing : Collaborators :=
  collaborators (fun _ => [Failed]) None.

(** The problem without chips. *)
Definition no_chips : InputProblem.t := {| InputProblem.chipMap := ∅ |}.

Definition origin : Placement.t :=
  {| Placement.x := 0; Placement.y := 0; Placement.ccwRotationDegrees := 0 |}.

Definition square (side : R) : Chip.t :=
  {| Chip.size := {| Point.x := side; Point.y := side |} |}.

(** Two 2 x 2 chips, at (0, 0) and at (1, 0). *)
Definition two_boxes_problem : InputProblem.t :=
  {| InputProblem.chipMap := <["U1" := square 2]> (<["U2" := square 2]> ∅) |}.

Definition two_boxes_layout : OutputLayout.t :=
  {| OutputLayout.chipPlacements :=
       [("U1", origin);
        ("U2", {| Placement.x := 1; Placement.y := 0;
                  Placement.ccwRotationDegrees := 0 |})] |}.

(** A clock that reads 10, 20, 30, ... *)
Definition ten_apart (n : nat) : R := (10 * INR (S n))%R.

(** The state after a call of [step()] that returns. *)
Definition after_step `{Collaborators} (s : LayoutPipelineSolver) : LayoutPipelineSolver :=
  match step s with
  | Ok s' => s'
  | Throw _ => s
  end.

(** New orchestrators over these collaborators. *)
Definition immediate_start : @LayoutPipelineSolver immediate :=
  @new_LayoutPipelineSolver immediate no_chips ten_apart.

Definition failing_start : @LayoutPipelineSolver failing :=
  @new_LayoutPipelineSolver failing no_chips ten_apart.

(** The same orchestrators once the solver of the first phase is
    constructed, and one call of [step()] later. *)
Definition immediate_running : @LayoutPipelineSolver immediate :=
  after_step immediate_start.

Definition immediate_second : @LayoutPipelineSolver immediate :=
  after_step immediate_running.

Definition immediate_done : @LayoutPipelineSolver immediate :=
  Nat.iter 9 after_step immediate_start.

Definition failing_running : @LayoutPipelineSolver failing :=
  after_step failing_start.

Definition failing_failed : @LayoutPipelineSolver failing :=
  after_step failing_running.

(** The last phase exposes the layout of the two boxes. *)
Definition two_boxes : Collaborators :=
  collaborators (fun _ => [Solved]) (Some two_boxes_layout).

Definition two_boxes_start : @LayoutPipelineSolver two_boxes :=
  @new_LayoutPipelineSolver two_boxes two_boxes_problem ten_apart.

(** A solved orchestrator whose last solver is solved and exposes the
    layout of the two boxes. *)
Definition finished : @LayoutPipelineSolver two_boxes :=
  set_solved true
    (set_currentPipelineStepIndex 4
       (set_solvers (<["partitionPackingSolver" := 0]> ∅)
          (@set_heap two_boxes
             [ {| label := "partitionPackingSolver"; now := Solved;
                  script := []; layout := Some two_boxes_layout |} ]
             two_boxes_start))).

End Toy.

(** ** Further vocabulary for the validator *)

Section ValidatorVocabulary.
Local Open Scope R_scope.

(** A bound whose minima are at most its maxima. *)
Definition well_formed (b : Bounds.t) : Prop :=
  Bounds.minX b <= Bounds.maxX b /\ Bounds.minY b <= Bounds.maxY b.

(** The area that a bound covers. *)
Definition area_of (b : Bounds.t) : R :=
  (Bounds.maxX b - Bounds.minX b) * (Bounds.maxY b - Bounds.minY b).

(** A point lies in a bound, borders included. *)
Definition inside (b : Bounds.t) (p : R * R) : Prop :=
  Bounds.minX b <= p.1 <= Bounds.maxX b /\ Bounds.minY b <= p.2 <= Bounds.maxY b.

(** Where the point [(u, v)] of the frame of a chip (origin at the centre
    of the chip) lies once the chip is rotated counter-clockwise by the
    angle of the placement and moved to the position of the placement. *)
Definition placed_point (placement : Placement.t) (u v : R) : R * R :=
  let angleRad := (Placement.ccwRotationDegrees placement * PI) / 180 in
  (Placement.x placement + (u * cos angleRad - v * sin angleRad),
   Placement.y placement + (u * sin angleRad + v * cos angleRad)).

End ValidatorVocabulary.

(** ** [preview()] *)

Section PreviewMethod.
Context `{Collaborators}.

(** [activeSubSolver.preview()], a method of the phase solvers. *)
Variable sub_preview : Solver → GraphicsObject.t.

(** [super.preview()], the method of the base class (lib/solvers/BaseSolver,
    not among the sources), taken as it comes. *)
Variable super_preview : LayoutPipelineSolver → GraphicsObject.t.

(** [a ?? b] on the visualization of an optional solver field. *)
Definition or_else (field : option loc) (s : LayoutPipelineSolver)
    (otherwise : GraphicsObject.t) : GraphicsObject.t :=
  match deref_opt s field with
  | Some o => sub_visualize o
  | None => otherwise
  end.

Definition preview (s : LayoutPipelineSolver) : GraphicsObject.t :=
  match deref_opt s (activeSubSolver s) with
  | Some sub => sub_preview sub
  | None =>
      or_else (partitionPackingSolver s) s
        (or_else (packInnerPartitionsSolver s) s
           (or_else (chipPartitionsSolver s) s
              (or_else (identifyDecouplingCapsSolver s) s
                 (super_preview s))))
  end.

End PreviewMethod.

(** ** Further vocabulary for runs *)

Section RunVocabulary.
Context `{Collaborators}.

(** What links the fields of an orchestrator that runs on [problem] with
    the clock [clk] and stands at [p] in its current phase:
    - the problem, the connectivity map and the clock are those it was
      constructed with;
    - one solver was constructed for each phase before the current index
      and for the current phase once started, in this order, so the solver
      of phase [j] is the object at location [j] of the heap, and the field
      of a phase holds its solver from its construction on;
    - the solvers of the phases before the current index are solved;
    - [chipPartitions] and [packedPartitions] are what the solvers of the
      second and third phases expose, once these phases are completed;
    - the clock was read at the start and at the end of each phase: the
      start and end times of phase [j] are the readings [2 j] and
      [2 j + 1]. *)
Record linked (problem : InputProblem.t) (clk : nat → R)
    (s : LayoutPipelineSolver) (p : Progress) : Prop := {
  linked_problem : inputProblem s = problem;
  linked_pins :
    pinIdToStronglyConnectedPins s = getPinIdToStronglyConnectedPinsObj problem;
  linked_clock : clock s = clk;
  linked_index :
    currentPipelineStepIndex s ≤ length pipelineDef /\
    (p ≠ NotStarted → currentPipelineStepIndex s < length pipelineDef);
  linked_heap :
    length (heap s)
    = currentPipelineStepIndex s + match p with NotStarted => 0 | _ => 1 end;
  linked_ticks : ticks s = currentPipelineStepIndex s + length (heap s);
  linked_fields :
    ∀ j name, phase_names !! j = Some name →
      solvers s !! name = if decide (j < length (heap s)) then Some j else None;
  linked_active :
    activeSubSolver s
    = match p with Started => Some (currentPipelineStepIndex s) | _ => None end;
  linked_solved :
    ∀ j o, j < currentPipelineStepIndex s → heap s !! j = Some o → sub_solved o = true;
  linked_partitions :
    chipPartitions s
    = if decide (2 ≤ currentPipelineStepIndex s) then heap s !! 1 ≫= partitions else None;
  linked_packed :
    packedPartitions s
    = if decide (3 ≤ currentPipelineStepIndex s)
      then heap s !! 2 ≫= sub_packedPartitions else None;
  linked_start :
    ∀ j name, phase_names !! j = Some name →
      startTimeOfPhase s !! name
      = if decide (j < length (heap s)) then Some (Num (clk (2 * j))) else None;
  linked_end :
    ∀ j name, phase_names !! j = Some name →
      endTimeOfPhase s !! name
      = if decide (j < currentPipelineStepIndex s)
        then Some (Num (clk (2 * j + 1))) else None;
  linked_done : solved s = true → currentPipelineStepIndex s = length pipelineDef;
  linked_aborted : p = Aborted → failed s = true
}.

(** The solver [o] is solved by its [n + 1]-th step, and neither solved
    nor failed by an earlier one. *)
Fixpoint solves_in (n : nat) (o : Solver) : Prop :=
  match n with
  | O => sub_solved (sub_step o) = true
  | S n' =>
      sub_solved (sub_step o) = false /\ sub_failed (sub_step o) = false /\
      solves_in n' (sub_step o)
  end.

(** Every solver that the table constructs is solved within [bound]
    steps. *)
Definition prompt (bound : nat) : Prop :=
  ∀ k d this, pipelineDef !! k = Some d →
    ∃ n, n < bound /\ solves_in n (construct d this).

End RunVocabulary.

(** ** Vocabulary for the records of the phases *)

(** The entries of a phase in the four timing tables. *)
Record PhaseRecord := {
  record_startTime : option number;
  record_endTime : option number;
  record_timeSpent : option number;
  record_firstIteration : option Z
}.

Section RecordVocabulary.
Context `{Collaborators}.

Definition phase_record (s : LayoutPipelineSolver) (name : string) : PhaseRecord :=
  {| record_startTime := startTimeOfPhase s !! name;
     record_endTime := endTimeOfPhase s !! name;
     record_timeSpent := timeSpentOnPhase s !! name;
     record_firstIteration := firstIterationOfPhase s !! name |}.

(** The record of a phase after [m] calls of [step()], when call number
    [k0] constructs the solver of the phase at the time [t0] and call
    number [k1] sees it solved at the time [t1]. *)
Definition record_at (k0 k1 : nat) (t0 t1 : R) (m : nat) : PhaseRecord :=
  if decide (m < k0) then
    {| record_startTime := None; record_endTime := None;
       record_timeSpent := None; record_firstIteration := None |}
  else if decide (m < k1) then
    {| record_startTime := Some (Num t0); record_endTime := None;
       record_timeSpent := Some (Num 0);
       record_firstIteration := Some (Z.of_nat k0) |}
  else
    {| record_startTime := Some (Num t0); record_endTime := Some (Num t1);
       record_timeSpent := Some (Num (t1 - t0));
       record_firstIteration := Some (Z.of_nat k0) |}.

(** Where the phase at position [j] of the table stands in a state that
    stands at [p] in its current phase: 0 before its solver is constructed,
    1 from then on until the solver is seen solved, 2 afterwards. *)
Definition stage (s : LayoutPipelineSolver) (p : Progress) (j : nat) : nat :=
  if decide (currentPipelineStepIndex s < j) then 0
  else if decide (currentPipelineStepIndex s = j)
       then match p with NotStarted => 0 | _ => 1 end
       else 2.

(** The records of a phase over the first [n] calls of a run, for a phase
    that stands at [st] after these calls. *)
Definition timeline (init : LayoutPipelineSolver) (name : string) (n st : nat) : Prop :=
  ∃ (k0 k1 : nat) (t0 t1 : R),
    0 < k0 /\ k0 < k1 /\
    match st with
    | 0 => n < k0
    | 1 => k0 ≤ n /\ n < k1
    | _ => k1 ≤ n
    end /\
    ∀ m s_m, m ≤ n → steps m init = Ok s_m →
             phase_record s_m name = record_at k0 k1 t0 t1 m.

End RecordVocabulary.

(** ** Further examples *)

Module Sample.

(** The bounds of a 2 x 2 chip at the origin, and the same bounds moved
    by (1, 1). *)
Definition box : Bounds.t :=
  {| Bounds.minX := -1; Bounds.maxX := 1; Bounds.minY := -1; Bounds.maxY := 1 |}.

Definition shifted_box : Bounds.t :=
  {| Bounds.minX := 0; Bounds.maxX := 2; Bounds.minY := 0; Bounds.maxY := 2 |}.

(** The state after a call of [_step()] that returns. *)
Definition after__step `{Collaborators} (s : LayoutPipelineSolver) : LayoutPipelineSolver :=
  match _step s with
  | Ok s' => s'
  | Throw _ => s
  end.

(** The orchestrator whose solvers are solved by their first step, once
    [_step()] has completed its first phase, and after three calls of
    [step()], when the solver of its second phase is constructed. *)
Definition immediate_completed : @LayoutPipelineSolver Toy.immediate :=
  after__step Toy.immediate_running.

Definition immediate_third : @LayoutPipelineSolver Toy.immediate :=
  Toy.after_step Toy.immediate_second.

(** The orchestrator between its second and third phases. *)
Definition immediate_fourth : @LayoutPipelineSolver Toy.immediate :=
  Toy.after_step immediate_third.

End Sample.

(** * Properties of the validator *)

Section ValidatorFacts.
Local Open Scope R_scope.

(** ** Rotated bounds *)

Lemma angle_0 : 0 * PI / 180 = 0.
Proof. field. Qed.

Lemma angle_90 : 90 * PI / 180 = PI / 2.
Proof. field. Qed.

Lemma angle_180 : 180 * PI / 180 = PI.
Proof. field. Qed.

Lemma angle_270 : 270 * PI / 180 = 3 * (PI / 2).
Proof. field. Qed.

Lemma Rabs_m1 : Rabs (-1) = 1.
Proof. unfold Rabs. destruct (Rcase_abs (-1)); lra. Qed.

Lemma getRotatedBounds_centre placement size :
  centre (getRotatedBounds placement size)
  = (Placement.x placement, Placement.y placement).
Proof. unfold centre, getRotatedBounds. simpl. f_equal; field. Qed.

Lemma getRotatedBounds_halfExtents placement size :
  let halfWidth := Point.x size / 2 in
  let halfHeight := Point.y size / 2 in
  let theta := Placement.ccwRotationDegrees placement * PI / 180 in
  halfExtents (getRotatedBounds placement size)
  = (halfWidth * Rabs (cos theta) + halfHeight * Rabs (sin theta),
     halfWidth * Rabs (sin theta) + halfHeight * Rabs (cos theta)).
Proof. unfold halfExtents, getRotatedBounds. simpl. f_equal; field. Qed.

(** In exact arithmetic the bound of a chip of size [(w, h)] placed at
    [(cx, cy)] with a rotation of [deg] degrees is centred at [(cx, cy)],
    its half-extents are [w/2 * |cos t| + h/2 * |sin t|] and
    [w/2 * |sin t| + h/2 * |cos t|] for [t = deg * PI / 180], and they are
    the raw half-extents at 0 and 180 degrees and the swapped ones at 90
    and 270 degrees.  In the arithmetic of the code the cosine and the
    sine of the right angles are not exactly 0, 1 or -1, and this holds at
    0 degrees only. *)
Lemma getRotatedBounds_exact_rotation (cx cy deg w h : R) :
  let at_angle d :=
    getRotatedBounds
      {| Placement.x := cx; Placement.y := cy; Placement.ccwRotationDegrees := d |}
      {| Point.x := w; Point.y := h |} in
  let theta := deg * PI / 180 in
  centre (at_angle deg) = (cx, cy) /\
  halfExtents (at_angle deg)
    = (w / 2 * Rabs (cos theta) + h / 2 * Rabs (sin theta),
       w / 2 * Rabs (sin theta) + h / 2 * Rabs (cos theta)) /\
  at_angle deg
    = {| Bounds.minX := cx - fst (halfExtents (at_angle deg));
         Bounds.maxX := cx + fst (halfExtents (at_angle deg));
         Bounds.minY := cy - snd (halfExtents (at_angle deg));
         Bounds.maxY := cy + snd (halfExtents (at_angle deg)) |} /\
  halfExtents (at_angle 0) = (w / 2, h / 2) /\
  halfExtents (at_angle 180) = (w / 2, h / 2) /\
  halfExtents (at_angle 90) = (h / 2, w / 2) /\
  halfExtents (at_angle 270) = (h / 2, w / 2).
Proof.
  intros at_angle theta.
  split; [apply getRotatedBounds_centre|].
  split; [apply (getRotatedBounds_halfExtents
                   {| Placement.x := cx; Placement.y := cy;
                      Placement.ccwRotationDegrees := deg |}
                   {| Point.x := w; Point.y := h |})|].
  split.
  { unfold at_angle, halfExtents, getRotatedBounds. simpl. f_equal; field. }
  unfold at_angle.
  repeat split; rewrite getRotatedBounds_halfExtents; simpl.
  - rewrite angle_0, cos_0, sin_0, Rabs_R1, Rabs_R0. f_equal; ring.
  - rewrite angle_180, cos_PI, sin_PI, Rabs_m1, Rabs_R0. f_equal; ring.
  - rewrite angle_90, cos_PI2, sin_PI2, Rabs_R1, Rabs_R0. f_equal; ring.
  - rewrite angle_270, cos_3PI2, sin_3PI2, Rabs_m1, Rabs_R0. f_equal; ring.
Qed.

(** ** Overlap area *)

Lemma calculateOverlapArea_disjoint b1 b2 :
  disjoint b1 b2 → calculateOverlapArea b1 b2 = 0.
Proof.
  intros Hd. unfold calculateOverlapArea.
  destruct (_ || _) eqn:E; [reflexivity|].
  apply orb_false_iff in E as [E E4]. apply orb_false_iff in E as [E E3].
  apply orb_false_iff in E as [E1 E2].
  apply bool_decide_eq_false in E1, E2, E3, E4.
  unfold disjoint in Hd. lra.
Qed.

Lemma calculateOverlapArea_not_disjoint b1 b2 :
  ¬ disjoint b1 b2 → calculateOverlapArea b1 b2 = xExtent b1 b2 * yExtent b1 b2.
Proof.
  intros Hd. unfold calculateOverlapArea.
  destruct (_ || _) eqn:E; [|reflexivity].
  exfalso. apply Hd. unfold disjoint.
  repeat (apply orb_true_iff in E as [E|E]);
    apply bool_decide_eq_true in E; lra.
Qed.

Lemma disjoint_dec b1 b2 : disjoint b1 b2 \/ ¬ disjoint b1 b2.
Proof.
  unfold disjoint.
  destruct (Rle_dec (Bounds.maxX b1) (Bounds.minX b2));
  destruct (Rle_dec (Bounds.maxX b2) (Bounds.minX b1));
  destruct (Rle_dec (Bounds.maxY b1) (Bounds.minY b2));
  destruct (Rle_dec (Bounds.maxY b2) (Bounds.minY b1)); try tauto.
Qed.

End ValidatorFacts.

(** * Properties of [checkForOverlaps] *)

Section CheckForOverlaps.
Local Open Scope R_scope.
Variable inputProblem : InputProblem.t.
Variable layout : OutputLayout.t.

Local Abbreviation chipIds := (Object_keys (OutputLayout.chipPlacements layout)).

Lemma prop_lookup_key {V} (obj : list (string * V)) key :
  key ∈ Object_keys obj → is_Some (prop_lookup key obj).
Proof.
  unfold Object_keys. induction obj as [|[k v] obj IH]; simpl.
  - intros Hin. inversion Hin.
  - intros Hin. destruct (decide (k = key)); [eauto|].
    apply elem_of_cons in Hin as [->|Hin]; [congruence|]. auto.
Qed.

Lemma prop_lookup_entry {V} (obj : list (string * V)) i key v :
  NoDup (Object_keys obj) → obj !! i = Some (key, v) → prop_lookup key obj = Some v.
Proof.
  unfold Object_keys. revert i. induction obj as [|[k w] obj IH]; intros i Hnd Hi.
  - discriminate.
  - simpl in *. apply NoDup_cons in Hnd as [Hk Hnd].
    destruct i as [|i]; simpl in Hi.
    + injection Hi as -> ->. rewrite decide_True by reflexivity. reflexivity.
    + destruct (decide (k = key)) as [->|Hne].
      * exfalso. apply Hk. apply list_elem_of_fmap. exists (key, v). split; [reflexivity|].
        eapply list_elem_of_lookup_2. exact Hi.
      * eauto.
Qed.

(** The loops never throw on ids that are keys of the layout. *)
Lemma checkPair_pushed chip1Id chip2Id overlaps :
  chip1Id ∈ chipIds → chip2Id ∈ chipIds →
  checkPair inputProblem layout chip1Id chip2Id overlaps
  = Ok (overlaps ++ option_list (pushed inputProblem layout chip1Id chip2Id)).
Proof.
  intros [p1 H1]%prop_lookup_key [p2 H2]%prop_lookup_key.
  unfold checkPair, pushed. rewrite H1, H2.
  destruct (InputProblem.chipMap inputProblem !! chip1Id) as [chip1|];
    [|simpl; rewrite app_nil_r; reflexivity].
  destruct (InputProblem.chipMap inputProblem !! chip2Id) as [chip2|];
    [|simpl; rewrite app_nil_r; reflexivity].
  simpl. destruct (bool_decide _); simpl; [reflexivity|rewrite app_nil_r; reflexivity].
Qed.

Lemma omap_cons_option_list {A B} (f : A → option B) a l :
  omap f (a :: l) = option_list (f a) ++ omap f l.
Proof. simpl. destruct (f a); reflexivity. Qed.

Lemma checkAgainstLater_pushed chip1Id later overlaps :
  chip1Id ∈ chipIds → (∀ c, c ∈ later → c ∈ chipIds) →
  checkAgainstLater inputProblem layout chip1Id later overlaps
  = Ok (overlaps ++ omap (pushed inputProblem layout chip1Id) later).
Proof.
  intros H1. revert overlaps. induction later as [|c2 later IH]; intros overlaps Hl.
  - simpl. rewrite app_nil_r. reflexivity.
  - cbn [checkAgainstLater]. rewrite checkPair_pushed; [|exact H1|apply Hl; left].
    cbn [mbind result_bind]. rewrite IH; [|intros c Hc; apply Hl; right; exact Hc].
    rewrite omap_cons_option_list, app_assoc. reflexivity.
Qed.

Lemma checkFrom_pushed ids overlaps :
  (∀ c, c ∈ ids → c ∈ chipIds) →
  checkFrom inputProblem layout ids overlaps
  = Ok (overlaps ++ pushed_from inputProblem layout ids).
Proof.
  revert overlaps. induction ids as [|c1 later IH]; intros overlaps Hl.
  - simpl. rewrite app_nil_r. reflexivity.
  - cbn [checkFrom]. rewrite checkAgainstLater_pushed;
      [|apply Hl; left|intros c Hc; apply Hl; right; exact Hc].
    cbn [mbind result_bind]. rewrite IH; [|intros c Hc; apply Hl; right; exact Hc].
    cbn [pushed_from]. rewrite app_assoc. reflexivity.
Qed.

(** [checkForOverlaps] returns, and returns the pairs of [pushed_from]. *)
Lemma checkForOverlaps_pushed :
  checkForOverlaps inputProblem layout = Ok (pushed_from inputProblem layout chipIds).
Proof. unfold checkForOverlaps. rewrite checkFrom_pushed; [reflexivity|auto]. Qed.

End CheckForOverlaps.

Section Reports.
Local Open Scope R_scope.

Lemma pushed_value inputProblem layout i j c1 c2 p1 p2 chip1 chip2 :
  NoDup (Object_keys (OutputLayout.chipPlacements layout)) →
  OutputLayout.chipPlacements layout !! i = Some (c1, p1) →
  OutputLayout.chipPlacements layout !! j = Some (c2, p2) →
  InputProblem.chipMap inputProblem !! c1 = Some chip1 →
  InputProblem.chipMap inputProblem !! c2 = Some chip2 →
  pushed inputProblem layout c1 c2
  = let area := calculateOverlapArea (getRotatedBounds p1 (Chip.size chip1))
                                      (getRotatedBounds p2 (Chip.size chip2)) in
    if bool_decide (area > 0)
    then Some {| Overlap.chip1 := c1; Overlap.chip2 := c2; Overlap.overlapArea := area |}
    else None.
Proof.
  intros Hnd Hi Hj H1 H2. unfold pushed.
  rewrite H1, H2, (prop_lookup_entry _ _ _ _ Hnd Hi), (prop_lookup_entry _ _ _ _ Hnd Hj).
  reflexivity.
Qed.

Lemma keys_lookup {V} (obj : list (string * V)) i c v :
  obj !! i = Some (c, v) → Object_keys obj !! i = Some c.
Proof. intros Hi. unfold Object_keys. rewrite list_lookup_fmap, Hi. reflexivity. Qed.

End Reports.

(** ** The validator on examples *)

Section ValidatorExamples.
Local Open Scope R_scope.

Lemma getRotatedBounds_unrotated cx cy w h :
  getRotatedBounds
    {| Placement.x := cx; Placement.y := cy; Placement.ccwRotationDegrees := 0 |}
    {| Point.x := w; Point.y := h |}
  = {| Bounds.minX := cx - w / 2; Bounds.maxX := cx + w / 2;
       Bounds.minY := cy - h / 2; Bounds.maxY := cy + h / 2 |}.
Proof.
  unfold getRotatedBounds. simpl.
  rewrite angle_0, cos_0, sin_0, Rabs_R1, Rabs_R0. f_equal; ring.
Qed.

Ltac min_max :=
  unfold disjoint, xExtent, yExtent, Rmin, Rmax; simpl;
  repeat match goal with
         | |- context [Rle_dec ?a ?b] => destruct (Rle_dec a b)
         end;
  try lra.

Lemma two_boxes_area :
  calculateOverlapArea
    (getRotatedBounds Toy.origin (Chip.size (Toy.square 2)))
    (getRotatedBounds {| Placement.x := 1; Placement.y := 0;
                         Placement.ccwRotationDegrees := 0 |}
                      (Chip.size (Toy.square 2))) = 2.
Proof.
  unfold Toy.origin, Toy.square. simpl. rewrite !getRotatedBounds_unrotated.
  rewrite calculateOverlapArea_not_disjoint; min_max.
Qed.

Lemma two_boxes_keys :
  NoDup (Object_keys (OutputLayout.chipPlacements Toy.two_boxes_layout)).
Proof. apply (bool_decide_unpack _). vm_compute. exact I. Defined.

(** The scenario of the specification: two 2 x 2 chips at (0, 0) and
    (1, 0), not rotated, are reported once, with the area 2. *)
Lemma checkForOverlaps_two_boxes :
  checkForOverlaps Toy.two_boxes_problem Toy.two_boxes_layout
  = Ok [ {| Overlap.chip1 := "U1"; Overlap.chip2 := "U2"; Overlap.overlapArea := 2 |} ].
Proof.
  rewrite checkForOverlaps_pushed.
  change (Object_keys (OutputLayout.chipPlacements Toy.two_boxes_layout))
    with ["U1"; "U2"].
  cbn [pushed_from omap list_omap].
  rewrite (pushed_value Toy.two_boxes_problem Toy.two_boxes_layout 0 1 "U1" "U2"
             Toy.origin
             {| Placement.x := 1; Placement.y := 0; Placement.ccwRotationDegrees := 0 |}
             (Toy.square 2) (Toy.square 2) two_boxes_keys);
    try reflexivity.
  cbv zeta. rewrite two_boxes_area, bool_decide_eq_true_2 by lra. reflexivity.
Qed.

End ValidatorExamples.

(** * Properties of the validator in the arithmetic of the code *)

(** ** Facts of binary64 arithmetic *)

Section Binary64.











End Binary64.

(** ** The loops of [checkForOverlaps] *)

Section DoubleLoops.
Context `{Double.MathLibrary}.
Variable inputProblem : Double.InputProblem.t.
Variable layout : Double.OutputLayout.t.

Local Abbreviation chipIds := (Object_keys (Double.OutputLayout.chipPlacements layout)).

(** The body of the loop on two keys of the layout: it throws on the
    pairs of [breaks], and pushes what [pushed] says on the others. *)
Lemma checkPair_outcome chip1Id chip2Id overlaps :
  chip1Id ∈ chipIds → chip2Id ∈ chipIds →
  Double.checkPair inputProblem layout chip1Id chip2Id overlaps
  = if Double.breaks inputProblem chip1Id chip2Id then Throw TypeError
    else Ok (overlaps ++ option_list (Double.pushed inputProblem layout chip1Id chip2Id)).
Proof.
  intros [p1 H1]%prop_lookup_key [p2 H2]%prop_lookup_key.
  unfold Double.checkPair, Double.pushed, Double.breaks, Double.get. rewrite H1, H2.
  destruct (Double.InputProblem.chipMap inputProblem !! chip1Id) as [chip1|];
    destruct (Double.InputProblem.chipMap inputProblem !! chip2Id) as [chip2|];
    repeat match goal with
           | |- context [bool_decide ?P] => destruct (bool_decide P)
           end;
    cbn; rewrite ?app_nil_r; try reflexivity.
  destruct (_ <? _)%float; cbn; rewrite ?app_nil_r; reflexivity.
Qed.

Lemma checkAgainstLater_outcome chip1Id later overlaps :
  chip1Id ∈ chipIds → (∀ c, c ∈ later → c ∈ chipIds) →
  Double.checkAgainstLater inputProblem layout chip1Id later overlaps
  = if existsb (Double.breaks inputProblem chip1Id) later then Throw TypeError
    else Ok (overlaps ++ omap (Double.pushed inputProblem layout chip1Id) later).
Proof.
  intros H1. revert overlaps. induction later as [|c2 later IH]; intros overlaps Hl.
  - simpl. rewrite app_nil_r. reflexivity.
  - cbn [Double.checkAgainstLater existsb].
    rewrite checkPair_outcome; [|exact H1|apply Hl; left].
    destruct (Double.breaks inputProblem chip1Id c2); [reflexivity|].
    cbn [mbind result_bind orb]. rewrite IH; [|intros c Hc; apply Hl; right; exact Hc].
    destruct (existsb _ later); [reflexivity|].
    rewrite omap_cons_option_list, app_assoc. reflexivity.
Qed.

Lemma checkFrom_outcome ids overlaps :
  (∀ c, c ∈ ids → c ∈ chipIds) →
  Double.checkFrom inputProblem layout ids overlaps
  = if Double.breaks_from inputProblem ids then Throw TypeError
    else Ok (overlaps ++ Double.pushed_from inputProblem layout ids).
Proof.
  revert overlaps. induction ids as [|c1 later IH]; intros overlaps Hl.
  - simpl. rewrite app_nil_r. reflexivity.
  - cbn [Double.checkFrom Double.breaks_from].
    rewrite checkAgainstLater_outcome;
      [|apply Hl; left|intros c Hc; apply Hl; right; exact Hc].
    destruct (existsb _ later); [reflexivity|].
    cbn [mbind result_bind orb]. rewrite IH; [|intros c Hc; apply Hl; right; exact Hc].
    destruct (Double.breaks_from inputProblem later); [reflexivity|].
    cbn [Double.pushed_from]. rewrite app_assoc. reflexivity.
Qed.

(** [checkForOverlaps] throws a [TypeError] when some pair of keys makes
    the body throw, and otherwise returns the pairs of [pushed_from]. *)
Lemma checkForOverlaps_outcome :
  Double.checkForOverlaps inputProblem layout
  = if Double.breaks_from inputProblem chipIds then Throw TypeError
    else Ok (Double.pushed_from inputProblem layout chipIds).
Proof. unfold Double.checkForOverlaps. rewrite checkFrom_outcome; [reflexivity|auto]. Qed.

Lemma checkForOverlaps_returned overlaps :
  Double.checkForOverlaps inputProblem layout = Ok overlaps →
  Double.breaks_from inputProblem chipIds = false /\
  overlaps = Double.pushed_from inputProblem layout chipIds.
Proof.
  rewrite checkForOverlaps_outcome.
  destruct (Double.breaks_from inputProblem chipIds); [discriminate|].
  intros [= <-]. auto.
Qed.

Lemma breaks_from_pair ids :
  Double.breaks_from inputProblem ids = true ↔
  ∃ (i j : nat) c1 c2, (i < j)%nat /\ ids !! i = Some c1 /\ ids !! j = Some c2 /\
                       Double.breaks inputProblem c1 c2 = true.
Proof.
  induction ids as [|c ids IH]; cbn [Double.breaks_from].
  - split; [discriminate|]. intros (i & j & c1 & c2 & _ & Hi & _). discriminate.
  - rewrite orb_true_iff, existsb_exists, IH. split.
    + intros [(c2 & Hin & Hb)|(i & j & c1 & c2 & Hlt & Hi & Hj & Hb)].
      * apply list_elem_of_In, list_elem_of_lookup_1 in Hin as [j Hj].
        exists 0%nat, (S j), c, c2. repeat split; [lia|assumption..].
      * exists (S i), (S j), c1, c2. repeat split; [lia|assumption..].
    + intros (i & j & c1 & c2 & Hlt & Hi & Hj & Hb).
      destruct j as [|j]; [lia|]. simpl in Hj.
      destruct i as [|i]; simpl in Hi.
      * injection Hi as ->. left. exists c2. split; [|exact Hb].
        apply list_elem_of_In. eapply list_elem_of_lookup_2. exact Hj.
      * right. exists i, j, c1, c2. repeat split; [lia|assumption..].
Qed.

Lemma double_pushed_pair c1 c2 o :
  Double.pushed inputProblem layout c1 c2 = Some o → Double.pair_of o = (c1, c2).
Proof.
  unfold Double.pushed. intros Hp.
  repeat match type of Hp with
         | match ?e with _ => _ end = _ => destruct e; try discriminate
         end.
  injection Hp as <-. reflexivity.
Qed.

(** A report comes from a pair of positions [i < j] of the list of ids. *)
Lemma elem_of_double_pushed_from ids o :
  o ∈ Double.pushed_from inputProblem layout ids ↔
  ∃ (i j : nat) c1 c2, (i < j)%nat /\ ids !! i = Some c1 /\ ids !! j = Some c2 /\
                       Double.pushed inputProblem layout c1 c2 = Some o.
Proof.
  induction ids as [|c ids IH]; cbn [Double.pushed_from].
  - split; [intros Hin; inversion Hin|]. intros (i & j & c1 & c2 & _ & Hi & _). discriminate.
  - rewrite elem_of_app, list_elem_of_omap, IH. split.
    + intros [(c2 & Hin & Hp)|(i & j & c1 & c2 & Hlt & Hi & Hj & Hp)].
      * apply list_elem_of_lookup_1 in Hin as [j Hj].
        exists 0%nat, (S j), c, c2. repeat split; [lia|assumption..].
      * exists (S i), (S j), c1, c2. repeat split; [lia|assumption..].
    + intros (i & j & c1 & c2 & Hlt & Hi & Hj & Hp).
      destruct j as [|j]; [lia|]. simpl in Hj.
      destruct i as [|i]; simpl in Hi.
      * injection Hi as ->. left. exists c2. split; [|exact Hp].
        eapply list_elem_of_lookup_2. exact Hj.
      * right. exists i, j, c1, c2. repeat split; [lia|assumption..].
Qed.

Lemma pair_of_omap_double_pushed c1 later :
  NoDup later →
  NoDup (Double.pair_of <$> omap (Double.pushed inputProblem layout c1) later).
Proof.
  induction later as [|c2 later IH]; intros Hnd; [constructor|].
  apply NoDup_cons in Hnd as [Hc2 Hnd]. simpl.
  destruct (Double.pushed inputProblem layout c1 c2) as [o|] eqn:Hp; [|auto].
  rewrite fmap_cons. apply NoDup_cons. split; [|auto].
  rewrite (double_pushed_pair _ _ _ Hp). intros Hin.
  apply list_elem_of_fmap in Hin as (o' & Ho' & Hin).
  apply list_elem_of_omap in Hin as (c & Hc & Hp').
  apply double_pushed_pair in Hp'. rewrite Hp' in Ho'. injection Ho' as ->. contradiction.
Qed.

(** No pair of ids is pushed twice. *)
Lemma double_pushed_from_NoDup ids :
  NoDup ids → NoDup (Double.pair_of <$> Double.pushed_from inputProblem layout ids).
Proof.
  induction ids as [|c1 later IH]; intros Hnd; [constructor|].
  apply NoDup_cons in Hnd as [Hc1 Hnd]. cbn [Double.pushed_from].
  rewrite fmap_app. apply NoDup_app. split; [apply pair_of_omap_double_pushed; exact Hnd|].
  split; [|auto].
  intros pr Hin1 Hin2.
  apply list_elem_of_fmap in Hin1 as (o1 & -> & Hin1).
  apply list_elem_of_omap in Hin1 as (c2 & _ & Hp1). apply double_pushed_pair in Hp1.
  apply list_elem_of_fmap in Hin2 as (o2 & Heq & Hin2).
  apply elem_of_double_pushed_from in Hin2 as (i & j & d1 & d2 & _ & Hi & _ & Hp2).
  apply double_pushed_pair in Hp2. rewrite Hp1, Hp2 in Heq. injection Heq as -> ->.
  apply Hc1. eapply list_elem_of_lookup_2. exact Hi.
Qed.

(** The overlap area is 0 when the test of the code finds the bounds
    disjoint, and the product of the two extents otherwise. *)
Lemma double_calculateOverlapArea_cases b1 b2 :
  Double.calculateOverlapArea b1 b2
  = if Double.disjoint b1 b2 then 0%float
    else (Double.xExtent b1 b2 * Double.yExtent b1 b2)%float.
Proof. reflexivity. Qed.

Lemma double_area_positive b1 b2 :
  (0 <? Double.calculateOverlapArea b1 b2)%float = true ↔
  Double.disjoint b1 b2 = false /\
  (0 <? Double.xExtent b1 b2 * Double.yExtent b1 b2)%float = true.
Proof.
  rewrite double_calculateOverlapArea_cases.
  destruct (Double.disjoint b1 b2).
  - split; [intros Hlt; vm_compute in Hlt; discriminate|intros [? _]; discriminate].
  - tauto.
Qed.

End DoubleLoops.

(** ** Bounds and reports *)

Section DoubleBounds.
Context `{Double.MathLibrary}.
Local Open Scope float_scope.





End DoubleBounds.

Section DoubleReports.
Context `{Double.MathLibrary}.
Local Open Scope float_scope.

Lemma double_pushed_value inputProblem layout i j c1 c2 p1 p2 chip1 chip2 :
  NoDup (Object_keys (Double.OutputLayout.chipPlacements layout)) →
  Double.OutputLayout.chipPlacements layout !! i = Some (c1, p1) →
  Double.OutputLayout.chipPlacements layout !! j = Some (c2, p2) →
  Double.InputProblem.chipMap inputProblem !! c1 = Some chip1 →
  Double.InputProblem.chipMap inputProblem !! c2 = Some chip2 →
  Double.pushed inputProblem layout c1 c2
  = let area :=
      Double.calculateOverlapArea (Double.getRotatedBounds p1 (Double.Chip.size chip1))
                                  (Double.getRotatedBounds p2 (Double.Chip.size chip2)) in
    if 0 <? area
    then Some {| Double.Overlap.chip1 := c1; Double.Overlap.chip2 := c2;
                 Double.Overlap.overlapArea := area |}
    else None.
Proof.
  intros Hnd Hi Hj H1 H2. unfold Double.pushed.
  rewrite H1, H2, (prop_lookup_entry _ _ _ _ Hnd Hi), (prop_lookup_entry _ _ _ _ Hnd Hj).
  reflexivity.
Qed.

Lemma keys_entry {V} (obj : list (string * V)) i c :
  Object_keys obj !! i = Some c → ∃ v, obj !! i = Some (c, v).
Proof.
  unfold Object_keys. rewrite list_lookup_fmap.
  destruct (obj !! i) as [[k v]|]; [|discriminate].
  intros [= <-]. eauto.
Qed.

Lemma double_pushed_owned inputProblem layout c1 c2 o :
  Double.pushed inputProblem layout c1 c2 = Some o →
  is_Some (Double.InputProblem.chipMap inputProblem !! c1) /\
  is_Some (Double.InputProblem.chipMap inputProblem !! c2).
Proof.
  unfold Double.pushed.
  destruct (Double.InputProblem.chipMap inputProblem !! c1); [|discriminate].
  destruct (Double.InputProblem.chipMap inputProblem !! c2); [|discriminate].
  eauto.
Qed.

(** C5, as the code has it.  Whenever [checkForOverlaps] returns on a
    layout (an object: its keys are distinct), no pair of chips occurs
    twice in the list that it returns, and every report is of two chips
    of the chip map, placed at two positions [i < j] of the layout, in
    this order.  For the chips at positions [i < j] of the layout that the
    chip map owns, with the bounds [b1] and [b2] that [getRotatedBounds]
    computes for them: the pair is reported exactly when the test of the
    code does not find the bounds disjoint and the product of the X and Y
    overlap extents, as computed, is greater than 0; every report of the
    pair carries that product as its area; the pair is never reported in
    the other order. *)
Theorem checkForOverlaps_reports inputProblem layout overlaps :
  NoDup (Object_keys (Double.OutputLayout.chipPlacements layout)) →
  Double.checkForOverlaps inputProblem layout = Ok overlaps →
  NoDup (Double.pair_of <$> overlaps) /\
  (∀ o, o ∈ overlaps →
        ∃ (i j : nat) p1 p2 chip1 chip2,
          (i < j)%nat /\
          Double.OutputLayout.chipPlacements layout !! i
          = Some (Double.Overlap.chip1 o, p1) /\
          Double.OutputLayout.chipPlacements layout !! j
          = Some (Double.Overlap.chip2 o, p2) /\
          Double.InputProblem.chipMap inputProblem !! Double.Overlap.chip1 o
          = Some chip1 /\
          Double.InputProblem.chipMap inputProblem !! Double.Overlap.chip2 o
          = Some chip2) /\
  ∀ (i j : nat) c1 c2 p1 p2 chip1 chip2,
    (i < j)%nat →
    Double.OutputLayout.chipPlacements layout !! i = Some (c1, p1) →
    Double.OutputLayout.chipPlacements layout !! j = Some (c2, p2) →
    Double.InputProblem.chipMap inputProblem !! c1 = Some chip1 →
    Double.InputProblem.chipMap inputProblem !! c2 = Some chip2 →
    let b1 := Double.getRotatedBounds p1 (Double.Chip.size chip1) in
    let b2 := Double.getRotatedBounds p2 (Double.Chip.size chip2) in
    (Double.reported overlaps c1 c2 ↔
     Double.disjoint b1 b2 = false /\
     (0 <? Double.xExtent b1 b2 * Double.yExtent b1 b2) = true) /\
    (∀ o, o ∈ overlaps → Double.pair_of o = (c1, c2) →
          Double.Overlap.overlapArea o = Double.xExtent b1 b2 * Double.yExtent b1 b2 /\
          (0 <? Double.Overlap.overlapArea o) = true) /\
    ¬ Double.reported overlaps c2 c1.
Proof.
  intros Hnd Hrun. apply checkForOverlaps_returned in Hrun as [_ ->].
  split; [apply double_pushed_from_NoDup; exact Hnd|].
  split.
  { intros o Hin.
    apply elem_of_double_pushed_from in Hin as (i & j & c1 & c2 & Hlt & Hi & Hj & Hp).
    pose proof (double_pushed_pair _ _ _ _ _ Hp) as Hpair. unfold Double.pair_of in Hpair.
    injection Hpair as <- <-.
    destruct (keys_entry _ _ _ Hi) as [p1 Hp1].
    destruct (keys_entry _ _ _ Hj) as [p2 Hp2].
    destruct (double_pushed_owned _ _ _ _ _ Hp) as [[chip1 H1] [chip2 H2]].
    exists i, j, p1, p2, chip1, chip2. auto. }
  intros i j c1 c2 p1 p2 chip1 chip2 Hlt Hi Hj H1 H2 b1 b2.
  pose proof (keys_lookup _ _ _ _ Hi) as Hki.
  pose proof (keys_lookup _ _ _ _ Hj) as Hkj.
  pose proof (double_pushed_value inputProblem _ _ _ _ _ _ _ _ _ Hnd Hi Hj H1 H2) as Hpv.
  cbv zeta in Hpv. fold b1 b2 in Hpv.
  split; [|split].
  - rewrite <- double_area_positive. split.
    + intros (o & Hin & Hpair).
      apply elem_of_double_pushed_from in Hin as (i' & j' & d1 & d2 & _ & _ & _ & Hp).
      pose proof (double_pushed_pair _ _ _ _ _ Hp) as Hpair'. rewrite Hpair in Hpair'.
      injection Hpair' as <- <-. rewrite Hpv in Hp.
      destruct (0 <? Double.calculateOverlapArea b1 b2); [reflexivity|discriminate].
    + intros Hpos. rewrite Hpos in Hpv. eexists. split.
      * apply elem_of_double_pushed_from. exists i, j, c1, c2. eauto.
      * reflexivity.
  - intros o Hin Hpair.
    apply elem_of_double_pushed_from in Hin as (i' & j' & d1 & d2 & _ & _ & _ & Hp).
    pose proof (double_pushed_pair _ _ _ _ _ Hp) as Hpair'. rewrite Hpair in Hpair'.
    injection Hpair' as <- <-. rewrite Hpv in Hp.
    destruct (0 <? Double.calculateOverlapArea b1 b2) eqn:Hpos; [|discriminate].
    injection Hp as <-. cbn [Double.Overlap.overlapArea]. split; [|exact Hpos].
    apply double_area_positive in Hpos as [Hd _].
    rewrite double_calculateOverlapArea_cases, Hd. reflexivity.
  - intros (o & Hin & Hpair).
    apply elem_of_double_pushed_from in Hin as (i' & j' & d1 & d2 & Hlt' & Hi' & Hj' & Hp).
    pose proof (double_pushed_pair _ _ _ _ _ Hp) as Hpair'. rewrite Hpair in Hpair'.
    injection Hpair' as -> ->.
    pose proof (NoDup_lookup _ _ _ _ Hnd Hki Hj').
    pose proof (NoDup_lookup _ _ _ _ Hnd Hkj Hi'). lia.
Qed.

Lemma breaks_owned inputProblem c1 c2 :
  (Double.InputProblem.chipMap inputProblem !! c1 = None → c1 ∉ Double.Object_prototype) →
  (Double.InputProblem.chipMap inputProblem !! c2 = None → c2 ∉ Double.Object_prototype) →
  Double.breaks inputProblem c1 c2 = false.
Proof.
  intros H1 H2. unfold Double.breaks, Double.get.
  destruct (Double.InputProblem.chipMap inputProblem !! c1);
    destruct (Double.InputProblem.chipMap inputProblem !! c2);
    rewrite ?bool_decide_eq_false_2 by auto; reflexivity.
Qed.

(** C10, on the code.  The body of the loop skips a pair when one of the
    two reads of the chip map is [undefined], and the read of an id that
    the chip map does not own is not [undefined] when the id is the name
    of a member of [Object.prototype].  On the problem that has the chip
    U1 only, a layout that also places a chip called stray gets no report
    for it, although it lies on U1; a layout that places a chip called
    toString makes [checkForOverlaps] throw a [TypeError], whatever
    [Math.cos] and [Math.sin] are.  The claim holds of the layouts whose
    unknown ids are not such names: [checkForOverlaps] returns on them and
    reports no pair with an unknown chip. *)
Theorem checkForOverlaps_skips_unknown_chips :
  Double.checkForOverlaps Double.one_chip_problem Double.inherited_name_layout
  = Throw TypeError /\
  Double.checkForOverlaps Double.one_chip_problem Double.stray_layout = Ok [] /\
  ∀ inputProblem layout,
    (∀ c, c ∈ Object_keys (Double.OutputLayout.chipPlacements layout) →
          Double.InputProblem.chipMap inputProblem !! c = None →
          c ∉ Double.Object_prototype) →
    ∃ overlaps,
      Double.checkForOverlaps inputProblem layout = Ok overlaps /\
      ∀ c o, Double.InputProblem.chipMap inputProblem !! c = None →
             o ∈ overlaps →
             Double.Overlap.chip1 o ≠ c /\ Double.Overlap.chip2 o ≠ c.
Proof.
  split; [|split].
  - rewrite checkForOverlaps_outcome. reflexivity.
  - rewrite checkForOverlaps_outcome. reflexivity.
  - intros inputProblem layout Hkeys.
    rewrite checkForOverlaps_outcome.
    destruct (Double.breaks_from inputProblem _) eqn:Hb.
    + exfalso. apply breaks_from_pair in Hb as (i & j & c1 & c2 & _ & Hi & Hj & Hb).
      rewrite breaks_owned in Hb; [discriminate| |];
        apply Hkeys; eapply list_elem_of_lookup_2; eassumption.
    + eexists. split; [reflexivity|].
      intros c o Hc Hin.
      apply elem_of_double_pushed_from in Hin as (i & j & c1 & c2 & _ & _ & _ & Hp).
      pose proof (double_pushed_pair _ _ _ _ _ Hp) as Hpair. unfold Double.pair_of in Hpair.
      injection Hpair as <- <-. unfold Double.pushed in Hp.
      destruct (Double.InputProblem.chipMap inputProblem !! Double.Overlap.chip1 o) eqn:E1;
        [|discriminate].
      destruct (Double.InputProblem.chipMap inputProblem !! Double.Overlap.chip2 o) eqn:E2;
        [|discriminate].
      split; congruence.
Qed.

End DoubleReports.

(** ** Examples *)

Section DoubleExamples.
Local Open Scope float_scope.



Lemma double_two_boxes_keys :
  NoDup (Object_keys (Double.OutputLayout.chipPlacements Double.two_boxes_layout)).
Proof. apply (bool_decide_unpack _). vm_compute. exact I. Defined.

(** The scenario of the specification in the arithmetic of the code: two
    2 x 2 chips at (0, 0) and (1, 0), not rotated, are reported once, with
    the area 2. *)
Lemma double_checkForOverlaps_two_boxes :
  @Double.checkForOverlaps Double.tabulated Double.two_boxes_problem Double.two_boxes_layout
  = Ok [ {| Double.Overlap.chip1 := "U1"; Double.Overlap.chip2 := "U2";
            Double.Overlap.overlapArea := 2 |} ].
Proof. vm_compute. reflexivity. Defined.

(** [checkForOverlaps_reports] applies to the layout of the two boxes:
    the pair is reported, in the order of the layout only. *)
Lemma checkForOverlaps_reports_two_boxes :
  NoDup (Object_keys (Double.OutputLayout.chipPlacements Double.two_boxes_layout)) /\
  ∃ overlaps,
    @Double.checkForOverlaps Double.tabulated Double.two_boxes_problem
      Double.two_boxes_layout = Ok overlaps /\
    NoDup (Double.pair_of <$> overlaps) /\
    Double.reported overlaps "U1" "U2" /\ ¬ Double.reported overlaps "U2" "U1".
Proof.
  split; [exact double_two_boxes_keys|].
  eexists. split; [exact double_checkForOverlaps_two_boxes|].
  destruct (@checkForOverlaps_reports Double.tabulated Double.two_boxes_problem
              Double.two_boxes_layout _ double_two_boxes_keys
              double_checkForOverlaps_two_boxes) as (Hnd & _ & Hpairs).
  split; [exact Hnd|].
  destruct (Hpairs 0%nat 1%nat "U1" "U2" (Double.at_angle 0 0 0) (Double.at_angle 1 0 0)
              (Double.chip 2 2) (Double.chip 2 2)
              ltac:(lia) eq_refl eq_refl eq_refl eq_refl)
    as (Hiff & _ & Hrev).
  split; [|exact Hrev].
  apply Hiff. split; vm_compute; reflexivity.
Defined.

(** C5, as stated, fails: the bound of a chip without extent that lies
    inside a 2 x 2 chip is not disjoint from the bound of that chip, and
    the pair is not reported. *)
Lemma unreported_overlap_of_a_dot :
  @Double.checkForOverlaps Double.tabulated Double.dot_problem Double.dot_layout = Ok [] /\
  Double.OutputLayout.chipPlacements Double.dot_layout !! 0%nat
  = Some ("dot", Double.at_angle 0 0 0) /\
  Double.OutputLayout.chipPlacements Double.dot_layout !! 1%nat
  = Some ("box", Double.at_angle 0 0 0) /\
  Double.InputProblem.chipMap Double.dot_problem !! "dot" = Some (Double.chip 0 0) /\
  Double.InputProblem.chipMap Double.dot_problem !! "box" = Some (Double.chip 2 2) /\
  @Double.getRotatedBounds Double.tabulated (Double.at_angle 0 0 0)
    (Double.Chip.size (Double.chip 0 0))
  = {| Double.Bounds.minX := 0; Double.Bounds.maxX := 0;
       Double.Bounds.minY := 0; Double.Bounds.maxY := 0 |} /\
  @Double.getRotatedBounds Double.tabulated (Double.at_angle 0 0 0)
    (Double.Chip.size (Double.chip 2 2))
  = {| Double.Bounds.minX := -1; Double.Bounds.maxX := 1;
       Double.Bounds.minY := -1; Double.Bounds.maxY := 1 |} /\
  ¬ (Double.reported [] "dot" "box" ↔
     Double.disjoint
       (@Double.getRotatedBounds Double.tabulated (Double.at_angle 0 0 0)
          (Double.Chip.size (Double.chip 0 0)))
       (@Double.getRotatedBounds Double.tabulated (Double.at_angle 0 0 0)
          (Double.Chip.size (Double.chip 2 2))) = false).
Proof.
  split; [vm_compute; reflexivity|].
  split; [reflexivity|]. split; [reflexivity|].
  split; [reflexivity|]. split; [reflexivity|].
  split; [vm_compute; reflexivity|]. split; [vm_compute; reflexivity|].
  intros [_ Hrep].
  destruct Hrep as (o & Hin & _); [vm_compute; reflexivity|].
  inversion Hin.
Qed.

End DoubleExamples.

(** * Properties of the orchestrator *)

(** Unfolds the accessors and the updates of the state, and nothing else. *)
Ltac fields :=
  cbn [solved failed error iterations MAX_ITERATIONS activeSubSolver solvers
       startTimeOfPhase endTimeOfPhase timeSpentOnPhase firstIterationOfPhase
       pinIdToStronglyConnectedPins inputProblem chipPartitions packedPartitions
       currentPipelineStepIndex heap clock ticks trace
       set_solved set_failed set_error set_iterations set_activeSubSolver set_solvers
       set_startTimeOfPhase set_endTimeOfPhase set_timeSpentOnPhase
       set_firstIterationOfPhase set_chipPartitions set_packedPartitions
       set_currentPipelineStepIndex set_heap set_ticks set_trace
       emit performance_now allocate fail_phase mbind result_bind fst snd] in *.

(** ** One call of [step()] *)

Section StepFacts.
Context `{Collaborators}.
Implicit Types s : LayoutPipelineSolver.

Lemma step_stopped s : solved s || failed s = true → step s = Ok s.
Proof. intros Hs. unfold step. rewrite Hs. reflexivity. Qed.

Lemma steps_stopped s n : solved s || failed s = true → steps n s = Ok s.
Proof.
  intros Hs. induction n as [|n IH]; [reflexivity|].
  cbn [steps]. rewrite (step_stopped s Hs). exact IH.
Qed.

Lemma pipelineDef_length : length pipelineDef = 4%nat.
Proof. reflexivity. Qed.

Lemma getCurrentPhase_exhausted s :
  length pipelineDef ≤ currentPipelineStepIndex s → getCurrentPhase s = "none".
Proof.
  intros Hk. unfold getCurrentPhase. rewrite (lookup_ge_None_2 _ _ Hk). reflexivity.
Qed.

Lemma getCurrentPhase_lookup s d :
  pipelineDef !! currentPipelineStepIndex s = Some d → getCurrentPhase s = solverName d.
Proof. intros Hd. unfold getCurrentPhase. rewrite Hd. reflexivity. Qed.

Lemma phase_name_not_none k d : pipelineDef !! k = Some d → solverName d ≠ "none".
Proof.
  intros Hd.
  destruct k as [|[|[|[|k]]]]; simpl in Hd; try discriminate;
    injection Hd as <-; simpl; discriminate.
Qed.

Lemma _step_exhausted s :
  length pipelineDef ≤ currentPipelineStepIndex s → _step s = Ok (set_solved true s).
Proof. intros Hk. unfold _step. rewrite (lookup_ge_None_2 _ _ Hk). reflexivity. Qed.

(** Through [step()], the call that sees the end of the table also
    counts the iteration. *)
Lemma step_exhausted s :
  length pipelineDef ≤ currentPipelineStepIndex s →
  solved s = false → failed s = false →
  step s = Ok (set_solved true (set_iterations (iterations s + 1) s)).
Proof.
  intros Hk Hs Hf. unfold step. rewrite Hs, Hf. simpl.
  rewrite _step_exhausted by exact Hk. reflexivity.
Qed.

(** Past the end of the table, calls of [step()] return and keep the
    index. *)
Lemma steps_exhausted s n :
  length pipelineDef ≤ currentPipelineStepIndex s →
  ∃ s', steps n s = Ok s' /\ currentPipelineStepIndex s' = currentPipelineStepIndex s.
Proof.
  intros Hk. destruct (solved s || failed s) eqn:Hstop.
  - exists s. split; [apply steps_stopped; exact Hstop|reflexivity].
  - apply orb_false_iff in Hstop as [Hs Hf].
    destruct n as [|n]; [exists s; split; reflexivity|].
    eexists. cbn [steps]. rewrite step_exhausted by assumption.
    cbn [mbind result_bind]. split; [apply steps_stopped; reflexivity|reflexivity].
Qed.

Lemma _step_active s d l sub :
  pipelineDef !! currentPipelineStepIndex s = Some d →
  activeSubSolver s = Some l → deref s l = Some sub →
  _step s =
    let sub' := sub_step sub in
    let s1 := set_heap (<[l := sub']> (heap s)) s in
    if sub_solved sub' then complete_phase d s1
    else if sub_failed sub' then Ok (fail_phase d sub' s1)
    else Ok s1.
Proof. intros Hd Ha Hl. unfold _step. rewrite Hd, Ha, Hl. reflexivity. Qed.

Lemma _step_idle s d :
  pipelineDef !! currentPipelineStepIndex s = Some d →
  activeSubSolver s = None →
  _step s = Ok (start_phase d s).
Proof. intros Hd Ha. unfold _step. rewrite Hd, Ha. reflexivity. Qed.

(** The hooks of the table only assign [chipPartitions] and
    [packedPartitions]. *)
Lemma run_onSolved_frame k d s s' :
  pipelineDef !! k = Some d → run_onSolved d s = Ok s' →
  ∃ cp pp, s' = set_packedPartitions pp
                  (set_chipPartitions cp (emit (solverName d, OnSolved) s)).
Proof.
  intros Hd Hrun.
  destruct k as [|[|[|[|k]]]]; simpl in Hd; try discriminate;
    injection Hd as <-; unfold run_onSolved in Hrun; cbn [onSolved solverName] in *.
  - injection Hrun as <-. exists (chipPartitions s), (packedPartitions s).
    destruct s; reflexivity.
  - destruct (deref_opt _ _) as [o|]; [|discriminate]. injection Hrun as <-.
    exists (partitions o), (packedPartitions s). destruct s; reflexivity.
  - destruct (deref_opt _ _) as [o|]; [|discriminate]. injection Hrun as <-.
    exists (chipPartitions s), (sub_packedPartitions o). destruct s; reflexivity.
  - injection Hrun as <-. exists (chipPartitions s), (packedPartitions s).
    destruct s; reflexivity.
Qed.

(** The hook of a phase returns when the field of the phase holds a
    solver, and then it has the effect that the table gives it. *)
Lemma run_onSolved_returns k d s l o :
  pipelineDef !! k = Some d →
  solvers s !! solverName d = Some l → deref s l = Some o →
  ∃ s', run_onSolved d s = Ok s' /\
        s' = set_packedPartitions
               (if decide (k = 2%nat) then sub_packedPartitions o else packedPartitions s)
               (set_chipPartitions
                  (if decide (k = 1%nat) then partitions o else chipPartitions s)
                  (emit (solverName d, OnSolved) s)).
Proof.
  intros Hd Hslot Hderef.
  destruct k as [|[|[|[|k]]]]; simpl in Hd; try discriminate;
    injection Hd as <-; unfold run_onSolved; cbn [onSolved solverName] in *.
  - eexists. split; [reflexivity|]. destruct s; reflexivity.
  - unfold chipPartitionsSolver, deref_opt. cbn. rewrite Hslot. cbn.
    unfold deref in *. cbn. rewrite Hderef.
    eexists. split; [reflexivity|]. destruct s; reflexivity.
  - unfold packInnerPartitionsSolver, deref_opt. cbn. rewrite Hslot. cbn.
    unfold deref in *. cbn. rewrite Hderef.
    eexists. split; [reflexivity|]. destruct s; reflexivity.
  - eexists. split; [reflexivity|]. destruct s; reflexivity.
Qed.

Lemma _step_failure s d l sub :
  pipelineDef !! currentPipelineStepIndex s = Some d →
  activeSubSolver s = Some l → deref s l = Some sub →
  sub_solved (sub_step sub) = false → sub_failed (sub_step sub) = true →
  _step s = Ok (fail_phase d (sub_step sub) (set_heap (<[l := sub_step sub]> (heap s)) s)).
Proof.
  intros Hd Ha Hl Hns Hf. rewrite (_step_active s d l sub Hd Ha Hl).
  cbv zeta. rewrite Hns, Hf. reflexivity.
Qed.

(** C2.  Take a state whose index is in the table, whose active
    sub-solver is [sub], and in which one step of [sub] leaves it failed
    (and not solved).  Then [_step] copies the error of the sub-solver
    into [error], sets [failed], clears the active sub-solver, keeps the
    index, and constructs nothing; from the state it returns, any number of
    calls of [step()] return that same state.  The same holds of the call
    of [step()] that performs this [_step] (on an orchestrator that is
    neither solved nor failed); there the error is that of the sub-solver
    unless the call also exceeds the iteration bound of the orchestrator
    itself. *)
Theorem sub_solver_failure_is_terminal s d l sub :
  pipelineDef !! currentPipelineStepIndex s = Some d →
  activeSubSolver s = Some l → deref s l = Some sub →
  sub_solved (sub_step sub) = false → sub_failed (sub_step sub) = true →
  (∃ s', _step s = Ok s' /\
         error s' = sub_error (sub_step sub) /\ failed s' = true /\
         activeSubSolver s' = None /\
         currentPipelineStepIndex s' = currentPipelineStepIndex s /\
         solvers s' = solvers s /\ length (heap s') = length (heap s) /\
         ∀ n, steps n s' = Ok s') /\
  (solved s = false → failed s = false →
   ∃ s', step s = Ok s' /\
         ((iterations s + 1 ≤ MAX_ITERATIONS s)%Z → error s' = sub_error (sub_step sub)) /\
         failed s' = true /\ activeSubSolver s' = None /\
         currentPipelineStepIndex s' = currentPipelineStepIndex s /\
         solvers s' = solvers s /\ length (heap s') = length (heap s) /\
         ∀ n, steps n s' = Ok s').
Proof.
  intros Hd Ha Hl Hns Hf. split.
  - eexists. split; [apply (_step_failure s d l sub); assumption|].
    cbn. rewrite length_insert.
    repeat split. intros n. apply steps_stopped. cbn. apply orb_true_r.
  - intros Hs Hfl. unfold step. rewrite Hs, Hfl. cbn [orb].
    rewrite (_step_failure (set_iterations (iterations s + 1) s) d l sub)
      by assumption.
    cbn [mbind result_bind]. cbn.
    rewrite Hs. cbn. case_bool_decide as Hb.
    + eexists. split; [reflexivity|]. cbn. rewrite length_insert.
      repeat split; [intros; lia|]. intros n. apply steps_stopped. cbn. apply orb_true_r.
    + eexists. split; [reflexivity|]. cbn. rewrite length_insert.
      repeat split. intros n. apply steps_stopped. cbn. apply orb_true_r.
Qed.


End StepFacts.

(** ** The states of a run *)

Section Invariant.
Context `{Collaborators}.
Implicit Types s : LayoutPipelineSolver.

Lemma phase_names_eq :
  phase_names = ["identifyDecouplingCapsSolver"; "chipPartitionsSolver";
                 "packInnerPartitionsSolver"; "partitionPackingSolver"].
Proof. reflexivity. Qed.

Lemma phase_names_NoDup : NoDup phase_names.
Proof. rewrite phase_names_eq. apply (bool_decide_unpack _). vm_compute. exact I. Qed.

Lemma phase_names_lookup k d :
  pipelineDef !! k = Some d → phase_names !! k = Some (solverName d).
Proof. intros Hd. unfold phase_names. rewrite list_lookup_fmap, Hd. reflexivity. Qed.

Lemma phase_names_inj j k name :
  phase_names !! j = Some name → phase_names !! k = Some name → j = k.
Proof. apply NoDup_lookup, phase_names_NoDup. Qed.

Lemma history_completed completed name next :
  history (completed ++ [name]) next NotStarted
  = history completed name Started ++ events_of name completing.
Proof.
  unfold history. rewrite bind_app, bind_singleton. cbn [partial_history].
  unfold events_of at 2. rewrite fmap_app. cbn [fmap list_fmap].
  rewrite app_nil_r, <- app_assoc. reflexivity.
Qed.

Lemma history_started completed name :
  history completed name Started
  = history completed name NotStarted ++ events_of name starting.
Proof. unfold history. cbn [partial_history events_of fmap list_fmap]. rewrite app_nil_r. reflexivity. Qed.

Lemma history_aborted completed name :
  history completed name Aborted
  = history completed name Started ++ [(name, Cleared)].
Proof.
  unfold history. cbn [partial_history]. unfold events_of.
  rewrite fmap_app, app_assoc. reflexivity.
Qed.

Lemma getCurrentPhase_index s s' :
  currentPipelineStepIndex s' = currentPipelineStepIndex s →
  getCurrentPhase s' = getCurrentPhase s.
Proof. intros Hk. unfold getCurrentPhase. rewrite Hk. reflexivity. Qed.

(** [consistent] reads the index, the history, the active solver, the
    timing tables, and [failed] only where it asks for a failure. *)
Lemma consistent_frame s s' p :
  currentPipelineStepIndex s' = currentPipelineStepIndex s →
  trace s' = trace s →
  activeSubSolver s' = activeSubSolver s →
  (failed s = true → failed s' = true) →
  startTimeOfPhase s' = startTimeOfPhase s →
  endTimeOfPhase s' = endTimeOfPhase s →
  timeSpentOnPhase s' = timeSpentOnPhase s →
  consistent s p → consistent s' p.
Proof.
  intros Hk Ht Ha Hf Hst He Hsp [Hi Htr Hp Htm].
  pose proof (getCurrentPhase_index s s' Hk) as Hph.
  constructor.
  - rewrite Hk. exact Hi.
  - rewrite Ht, Hk, Hph. exact Htr.
  - destruct p; rewrite ?Ha, ?Hk, ?Hph, ?Hst; try exact Hp.
    destruct Hp as (? & ? & ?). auto.
  - intros j name Hj Hlt. rewrite Hk in Hlt. rewrite Hst, He, Hsp. eauto.
Qed.

Lemma consistent_new problem clock :
  consistent (new_LayoutPipelineSolver problem clock) NotStarted.
Proof.
  constructor; cbn.
  - lia.
  - reflexivity.
  - reflexivity.
  - intros j name _ Hlt. lia.
Qed.

Lemma consistent_start s d :
  pipelineDef !! currentPipelineStepIndex s = Some d →
  consistent s NotStarted → consistent (start_phase d s) Started.
Proof.
  intros Hd [Hi Htr Hp Htm].
  pose proof (getCurrentPhase_lookup s d Hd) as Hph.
  pose proof (lookup_lt_Some _ _ _ Hd) as Hlt.
  unfold start_phase. fields.
  constructor; fields.
  - exact Hi.
  - rewrite (getCurrentPhase_lookup _ d) by exact Hd.
    rewrite history_started, <- Hph, <- Htr, <- !app_assoc. reflexivity.
  - split; [eauto|]. split; [exact Hlt|].
    rewrite (getCurrentPhase_lookup _ d) by exact Hd.
    eexists. apply lookup_insert_eq.
  - intros j name Hj Hjk.
    assert (solverName d ≠ name) as Hne.
    { intros <-. pose proof (phase_names_inj _ _ _ Hj (phase_names_lookup _ _ Hd)). lia. }
    rewrite !lookup_insert_ne by exact Hne. eauto.
Qed.

Lemma consistent_fail s d sub :
  pipelineDef !! currentPipelineStepIndex s = Some d →
  consistent s Started → consistent (fail_phase d sub s) Aborted.
Proof.
  intros Hd [Hi Htr Hp Htm].
  pose proof (getCurrentPhase_lookup s d Hd) as Hph.
  constructor; fields.
  - exact Hi.
  - rewrite (getCurrentPhase_lookup _ d) by exact Hd.
    rewrite history_aborted, <- Hph, <- Htr. reflexivity.
  - destruct Hp as (_ & Hlt & _). auto.
  - exact Htm.
Qed.

Lemma consistent_complete s d s' :
  pipelineDef !! currentPipelineStepIndex s = Some d →
  consistent s Started → complete_phase d s = Ok s' → consistent s' NotStarted.
Proof.
  intros Hd [Hi Htr Hp Htm] Hrun.
  pose proof (getCurrentPhase_lookup s d Hd) as Hph.
  pose proof (phase_names_lookup _ _ Hd) as Hname.
  destruct Hp as (_ & Hlt & t0 & Hstart). rewrite Hph in Hstart.
  unfold complete_phase in Hrun. fields.
  destruct (run_onSolved d _) as [s2|] eqn:Hhook; [|discriminate].
  fields. injection Hrun as <-.
  destruct (run_onSolved_frame _ _ _ _ Hd Hhook) as (cp & pp & ->).
  constructor; fields.
  - lia.
  - rewrite (take_S_r _ _ _ Hname), history_completed, <- Hph, <- Htr.
    rewrite <- !app_assoc. reflexivity.
  - reflexivity.
  - intros j name Hj Hjk.
    destruct (decide (j = currentPipelineStepIndex s)) as [->|Hne].
    + rewrite Hname in Hj. injection Hj as <-.
      rewrite !lookup_insert_eq, Hstart. cbn [js_minus]. eauto.
    + assert (solverName d ≠ name) as Hne'.
      { intros <-. pose proof (phase_names_inj _ _ _ Hj Hname). lia. }
      rewrite !lookup_insert_ne by exact Hne'. apply (Htm j); [exact Hj|lia].
Qed.

Lemma _step_consistent s s' p :
  consistent s p → failed s = false → _step s = Ok s' → ∃ p', consistent s' p'.
Proof.
  intros Hc Hf Hstep.
  destruct (pipelineDef !! currentPipelineStepIndex s) as [d|] eqn:Hd.
  - destruct (activeSubSolver s) as [l|] eqn:Ha.
    + assert (p = Started) as ->.
      { destruct p, Hc as [_ _ Hp _]; [congruence|reflexivity|].
        destruct Hp as (Hp & _). congruence. }
      destruct (deref s l) as [sub|] eqn:Hl.
      * rewrite (_step_active s d l sub Hd Ha Hl) in Hstep. cbv zeta in Hstep.
        assert (consistent (set_heap (<[l:=sub_step sub]> (heap s)) s) Started) as Hc'.
        { revert Hc. apply consistent_frame; auto. }
        destruct (sub_solved (sub_step sub)).
        { exists NotStarted. eapply consistent_complete; [|exact Hc'|exact Hstep]. exact Hd. }
        destruct (sub_failed (sub_step sub)); injection Hstep as <-.
        { exists Aborted. apply consistent_fail; [exact Hd|exact Hc']. }
        exists Started. exact Hc'.
      * unfold _step in Hstep. rewrite Hd, Ha, Hl in Hstep. discriminate.
    + rewrite (_step_idle s d Hd Ha) in Hstep. injection Hstep as <-.
      exists Started. apply consistent_start; [exact Hd|].
      destruct p; [exact Hc| |].
      * destruct Hc as [_ _ Hp _]. destruct Hp as ([? ?] & _). congruence.
      * destruct Hc as [_ _ Hp _]. destruct Hp as (_ & ? & _). congruence.
  - unfold _step in Hstep. rewrite Hd in Hstep. injection Hstep as <-.
    exists p. revert Hc. apply consistent_frame; auto.
Qed.

Lemma step_consistent s s' p :
  consistent s p → step s = Ok s' → ∃ p', consistent s' p'.
Proof.
  intros Hc Hstep. unfold step in Hstep.
  destruct (solved s || failed s) eqn:Hstop.
  - injection Hstep as <-. eauto.
  - apply orb_false_iff in Hstop as [_ Hf].
    destruct (_step _) as [s1|] eqn:Hs1; [|discriminate]. fields.
    assert (∃ p', consistent s1 p') as [p' Hc1].
    { apply (_step_consistent (set_iterations (iterations s + 1) s) s1 p);
        [|exact Hf|exact Hs1].
      revert Hc. apply consistent_frame; auto. }
    exists p'. destruct (negb _ && _); injection Hstep as <-; [|exact Hc1].
    revert Hc1. apply consistent_frame; auto.
Qed.

Lemma steps_consistent n s s' p :
  consistent s p → steps n s = Ok s' → ∃ p', consistent s' p'.
Proof.
  revert s p. induction n as [|n IH]; intros s p Hc Hrun.
  - injection Hrun as <-. eauto.
  - cbn [steps] in Hrun. destruct (step s) as [s1|] eqn:Hs1; [|discriminate].
    destruct (step_consistent _ _ _ Hc Hs1) as [p1 Hc1]. eauto.
Qed.

(** Every state that [step()] reaches from a new orchestrator is
    consistent. *)
Lemma reachable_consistent problem clock n s :
  steps n (new_LayoutPipelineSolver problem clock) = Ok s → ∃ p, consistent s p.
Proof. apply steps_consistent with (p := NotStarted), consistent_new. Qed.

(** *** Calls of [step()] return *)

Lemma active_is_current_start s d :
  pipelineDef !! currentPipelineStepIndex s = Some d →
  active_is_current (start_phase d s).
Proof.
  intros Hd l Hl. unfold start_phase in *. fields. injection Hl as <-.
  split; [rewrite length_app; simpl; lia|].
  intros d' Hd'. rewrite Hd in Hd'. injection Hd' as <-. apply lookup_insert_eq.
Qed.

Lemma _step_returns s :
  active_is_current s → ∃ s', _step s = Ok s' /\ active_is_current s'.
Proof.
  intros Hw.
  destruct (pipelineDef !! currentPipelineStepIndex s) as [d|] eqn:Hd.
  - destruct (activeSubSolver s) as [l|] eqn:Ha.
    + destruct (Hw l Ha) as [Hlt Hslot]. specialize (Hslot d Hd).
      destruct (lookup_lt_is_Some_2 _ _ Hlt) as [sub Hl].
      rewrite (_step_active s d l sub Hd Ha Hl). cbv zeta.
      destruct (sub_solved (sub_step sub)).
      * unfold complete_phase. fields.
        match goal with
        | |- context [run_onSolved d ?s1] =>
            destruct (run_onSolved_returns (currentPipelineStepIndex s) d s1 l
                        (sub_step sub)) as (s2 & -> & ->)
        end; [exact Hd|exact Hslot| |].
        { unfold deref. fields. apply list_lookup_insert_eq. exact Hlt. }
        fields. eexists. split; [reflexivity|]. intros l' Hl'. discriminate Hl'.
      * destruct (sub_failed (sub_step sub)).
        { eexists. split; [reflexivity|]. intros l' Hl'. discriminate Hl'. }
        eexists. split; [reflexivity|]. intros l' Hl'. fields.
        rewrite length_insert. apply Hw. exact Hl'.
    + rewrite (_step_idle s d Hd Ha). eexists. split; [reflexivity|].
      apply active_is_current_start. exact Hd.
  - unfold _step. rewrite Hd. eexists. split; [reflexivity|]. exact Hw.
Qed.

Lemma step_returns s :
  active_is_current s → ∃ s', step s = Ok s' /\ active_is_current s'.
Proof.
  intros Hw. unfold step. destruct (solved s || failed s); [eauto|].
  destruct (_step_returns (set_iterations (iterations s + 1) s) Hw) as (s1 & -> & Hw1).
  fields. destruct (negb _ && _); eauto.
Qed.

(** From a new orchestrator, any number of calls of [step()] return. *)
Lemma steps_return problem clock n :
  ∃ s, steps n (new_LayoutPipelineSolver problem clock) = Ok s.
Proof.
  assert (∀ s, active_is_current s → ∃ s', steps n s = Ok s') as Hgen.
  { induction n as [|n IH]; intros s Hw; [eexists; reflexivity|].
    cbn [steps]. destruct (step_returns s Hw) as (s1 & -> & Hw1).
    exact (IH s1 Hw1). }
  apply Hgen. intros l Hl. discriminate Hl.
Qed.

End Invariant.

(** ** The history of a run *)

Section Histories.
Context `{Collaborators}.
Implicit Types s : LayoutPipelineSolver.



(** The five indexes that an orchestrator can stand at. *)
Lemma consistent_cases s p :
  consistent s p →
  ∃ k, currentPipelineStepIndex s = k /\ k ≤ 4 /\
       trace s = history (take k phase_names) (default "none" (phase_names !! k)) p.
Proof.
  intros [Hi Htr _ _]. exists (currentPipelineStepIndex s).
  split; [reflexivity|]. split; [exact Hi|].
  rewrite Htr. unfold getCurrentPhase, phase_names. rewrite list_lookup_fmap. reflexivity.
Qed.

Ltac index_cases k Hk :=
  destruct k as [|[|[|[|[|k]]]]]; [| | | | |exfalso; lia].


Lemma consistent_writes s p j name :
  consistent s p →
  phase_names !! j = Some name → j < currentPipelineStepIndex s →
  writes startTime name (trace s) = 1 /\
  writes firstIteration name (trace s) = 1 /\
  writes endTime name (trace s) = 1 /\
  writes timeSpent name (trace s) = 2 /\
  history_of name (trace s) = starting ++ completing.
Proof.
  intros Hc Hj Hlt. destruct (consistent_cases s p Hc) as (k & Hk & Hk4 & ->).
  rewrite Hk in Hlt. clear Hk.
  destruct j as [|[|[|[|j]]]]; simpl in Hj; try discriminate; injection Hj as <-;
    index_cases k Hk4; try (exfalso; lia); destruct p;
    vm_compute; repeat split.
Qed.

End Histories.

(** ** The records of the phases *)

Section Records.
Context `{Collaborators}.
Implicit Types s : LayoutPipelineSolver.

Lemma steps_snoc m s s' :
  steps (S m) s = Ok s' ↔ ∃ sm, steps m s = Ok sm ∧ step sm = Ok s'.
Proof.
  revert s. induction m as [|m IH]; intros s.
  - cbn [steps]. split.
    + intros Hs. exists s. split; [reflexivity|].
      destruct (step s); [exact Hs|discriminate].
    + intros (sm & Hsm & Hstep). injection Hsm as <-. rewrite Hstep. reflexivity.
  - change (steps (S (S m)) s) with (s1 ← step s; steps (S m) s1).
    change (steps (S m) s) with (s1 ← step s; steps m s1).
    destruct (step s) as [s1|e]; cbn [mbind result_bind].
    + apply IH.
    + split; [discriminate|]. intros (sm & Hsm & _). discriminate.
Qed.

Lemma phase_record_frame s s' name :
  startTimeOfPhase s' = startTimeOfPhase s →
  endTimeOfPhase s' = endTimeOfPhase s →
  timeSpentOnPhase s' = timeSpentOnPhase s →
  firstIterationOfPhase s' = firstIterationOfPhase s →
  phase_record s' name = phase_record s name.
Proof. intros H1 H2 H3 H4. unfold phase_record. rewrite H1, H2, H3, H4. reflexivity. Qed.

(** What constructing the solver of a phase writes. *)
Lemma start_phase_record d s name :
  phase_record (start_phase d s) name
  = if decide (solverName d = name)
    then {| record_startTime := Some (Num (clock s (ticks s)));
            record_endTime := endTimeOfPhase s !! name;
            record_timeSpent := Some (Num 0);
            record_firstIteration := Some (iterations s) |}
    else phase_record s name.
Proof.
  unfold start_phase, phase_record. fields.
  destruct (decide (solverName d = name)) as [<-|Hne].
  - rewrite !lookup_insert_eq. reflexivity.
  - rewrite !lookup_insert_ne by exact Hne. reflexivity.
Qed.

(** What completing a phase writes. *)
Lemma complete_phase_record k d s s' name :
  pipelineDef !! k = Some d → complete_phase d s = Ok s' →
  phase_record s' name
  = if decide (solverName d = name)
    then {| record_startTime := startTimeOfPhase s !! name;
            record_endTime := Some (Num (clock s (ticks s)));
            record_timeSpent :=
              Some (js_minus (Some (Num (clock s (ticks s))))
                             (startTimeOfPhase s !! name));
            record_firstIteration := firstIterationOfPhase s !! name |}
    else phase_record s name.
Proof.
  intros Hd Hrun. unfold complete_phase in Hrun. fields.
  destruct (run_onSolved d _) as [s2|] eqn:Hhook; [|discriminate].
  fields. injection Hrun as <-.
  destruct (run_onSolved_frame _ _ _ _ Hd Hhook) as (cp & pp & ->).
  unfold phase_record. fields.
  destruct (decide (solverName d = name)) as [<-|Hne].
  - rewrite !lookup_insert_eq. reflexivity.
  - rewrite !lookup_insert_ne by exact Hne. reflexivity.
Qed.

Lemma complete_phase_iterations k d s s' :
  pipelineDef !! k = Some d → complete_phase d s = Ok s' →
  iterations s' = iterations s /\
  currentPipelineStepIndex s' = S (currentPipelineStepIndex s).
Proof.
  intros Hd Hrun. unfold complete_phase in Hrun. fields.
  destruct (run_onSolved d _) as [s2|] eqn:Hhook; [|discriminate].
  fields. injection Hrun as <-.
  destruct (run_onSolved_frame _ _ _ _ Hd Hhook) as (cp & pp & ->).
  fields. split; reflexivity.
Qed.

Lemma stage_at s p j :
  currentPipelineStepIndex s = j →
  stage s p j = match p with NotStarted => 0 | _ => 1 end.
Proof.
  intros Hk. unfold stage. rewrite decide_False by lia.
  rewrite decide_True by exact Hk. reflexivity.
Qed.

Lemma stage_past s p j : j < currentPipelineStepIndex s → stage s p j = 2.
Proof.
  intros Hk. unfold stage. rewrite decide_False by lia.
  rewrite decide_False by lia. reflexivity.
Qed.

Lemma stage_ahead s p j : currentPipelineStepIndex s < j → stage s p j = 0.
Proof. intros Hk. unfold stage. rewrite decide_True by exact Hk. reflexivity. Qed.

Lemma stage_same s s' p j :
  currentPipelineStepIndex s' = currentPipelineStepIndex s →
  stage s' p j = stage s p j.
Proof. intros Hk. unfold stage. rewrite Hk. reflexivity. Qed.

(** How one call of [_step] moves the record of a phase. *)
Lemma _step_record s s' p j name :
  consistent s p → failed s = false → phase_names !! j = Some name →
  _step s = Ok s' →
  ∃ p', consistent s' p' /\ iterations s' = iterations s /\
    ((stage s' p' j = stage s p j /\ phase_record s' name = phase_record s name) \/
     (stage s p j = 0 /\ stage s' p' j = 1 /\
      phase_record s' name
      = {| record_startTime := Some (Num (clock s (ticks s)));
           record_endTime := endTimeOfPhase s !! name;
           record_timeSpent := Some (Num 0);
           record_firstIteration := Some (iterations s) |}) \/
     (stage s p j = 1 /\ stage s' p' j = 2 /\
      phase_record s' name
      = {| record_startTime := startTimeOfPhase s !! name;
           record_endTime := Some (Num (clock s (ticks s)));
           record_timeSpent :=
             Some (js_minus (Some (Num (clock s (ticks s))))
                            (startTimeOfPhase s !! name));
           record_firstIteration := firstIterationOfPhase s !! name |})).
Proof.
  intros Hc Hf Hj Hstep.
  destruct (pipelineDef !! currentPipelineStepIndex s) as [d|] eqn:Hd.
  - pose proof (phase_names_lookup _ _ Hd) as Hname.
    destruct (activeSubSolver s) as [l|] eqn:Ha.
    + assert (p = Started) as ->.
      { destruct p, Hc as [_ _ Hp _]; [congruence|reflexivity|].
        destruct Hp as (Hp & _). congruence. }
      destruct (deref s l) as [sub|] eqn:Hl.
      * rewrite (_step_active s d l sub Hd Ha Hl) in Hstep. cbv zeta in Hstep.
        set (s1 := set_heap (<[l:=sub_step sub]> (heap s)) s) in *.
        assert (consistent s1 Started) as Hc'.
        { revert Hc. apply consistent_frame; auto. }
        destruct (sub_solved (sub_step sub)).
        { exists NotStarted.
          split; [exact (consistent_complete s1 d s' Hd Hc' Hstep)|].
          destruct (complete_phase_iterations _ _ _ _ Hd Hstep) as [Hit Hidx].
          split; [exact Hit|].
          rewrite (complete_phase_record _ _ _ _ name Hd Hstep).
          destruct (decide (solverName d = name)) as [Heq|Hne].
          - right. right.
            assert (j = currentPipelineStepIndex s) as ->.
            { rewrite <- Heq in Hj. exact (phase_names_inj _ _ _ Hj Hname). }
            split; [apply stage_at; reflexivity|].
            split; [apply stage_past; rewrite Hidx; unfold s1; fields; lia|reflexivity].
          - left. split; [|reflexivity].
            assert (j ≠ currentPipelineStepIndex s) as Hjk.
            { intros ->. rewrite Hname in Hj. congruence. }
            assert (currentPipelineStepIndex s' = S (currentPipelineStepIndex s)) as Hidx'
              by exact Hidx.
            destruct (lt_eq_lt_dec (S (currentPipelineStepIndex s)) j) as [[Hlt|Heq]|Hgt].
            + rewrite !stage_ahead by lia. reflexivity.
            + rewrite (stage_at s') by lia. rewrite stage_ahead by lia. reflexivity.
            + rewrite !stage_past by lia. reflexivity. }
        destruct (sub_failed (sub_step sub)); injection Hstep as <-.
        { exists Aborted. split; [exact (consistent_fail s1 d _ Hd Hc')|].
          split; [reflexivity|]. left. split; [|reflexivity].
          unfold stage, s1. fields.
          destruct (decide (currentPipelineStepIndex s < j)); [reflexivity|].
          destruct (decide (currentPipelineStepIndex s = j)); reflexivity. }
        exists Started. split; [exact Hc'|]. split; [reflexivity|].
        left. split; reflexivity.
      * unfold _step in Hstep. rewrite Hd, Ha, Hl in Hstep. discriminate.
    + rewrite (_step_idle s d Hd Ha) in Hstep. injection Hstep as <-.
      assert (p = NotStarted) as ->.
      { destruct p; [reflexivity| |].
        - destruct Hc as [_ _ Hp _]. destruct Hp as ([? ?] & _). congruence.
        - destruct Hc as [_ _ Hp _]. destruct Hp as (_ & ? & _). congruence. }
      exists Started. split; [apply consistent_start; [exact Hd|exact Hc]|].
      assert (currentPipelineStepIndex (start_phase d s) = currentPipelineStepIndex s)
        as Hidx by reflexivity.
      split; [reflexivity|].
      rewrite start_phase_record.
      destruct (decide (solverName d = name)) as [Heq|Hne].
      * right. left.
        assert (j = currentPipelineStepIndex s) as ->.
        { rewrite <- Heq in Hj. exact (phase_names_inj _ _ _ Hj Hname). }
        split; [apply stage_at; reflexivity|].
        split; [apply stage_at; reflexivity|reflexivity].
      * left. split; [|reflexivity].
        assert (j ≠ currentPipelineStepIndex s) as Hjk.
        { intros ->. rewrite Hname in Hj. congruence. }
        destruct (lt_eq_lt_dec (currentPipelineStepIndex s) j) as [[Hlt|Heq]|Hgt].
        -- rewrite !stage_ahead by (rewrite ?Hidx; lia). reflexivity.
        -- congruence.
        -- rewrite !stage_past by (rewrite ?Hidx; lia). reflexivity.
  - unfold _step in Hstep. rewrite Hd in Hstep. injection Hstep as <-.
    exists p. split; [revert Hc; apply consistent_frame; auto|].
    split; [reflexivity|]. left. split; reflexivity.
Qed.

(** The same for the [n+1]-th call of [step()] of a run: the first
    iteration that it may write is its own number. *)
Lemma step_record s s' p n j name :
  consistent s p →
  (solved s || failed s = false → iterations s = Z.of_nat n) →
  phase_names !! j = Some name →
  step s = Ok s' →
  ∃ p', consistent s' p' /\
    (solved s' || failed s' = false → iterations s' = Z.of_nat (S n)) /\
    ((stage s' p' j = stage s p j /\ phase_record s' name = phase_record s name) \/
     (stage s p j = 0 /\ stage s' p' j = 1 /\
      phase_record s' name
      = {| record_startTime := Some (Num (clock s (ticks s)));
           record_endTime := endTimeOfPhase s !! name;
           record_timeSpent := Some (Num 0);
           record_firstIteration := Some (Z.of_nat (S n)) |}) \/
     (stage s p j = 1 /\ stage s' p' j = 2 /\
      phase_record s' name
      = {| record_startTime := startTimeOfPhase s !! name;
           record_endTime := Some (Num (clock s (ticks s)));
           record_timeSpent :=
             Some (js_minus (Some (Num (clock s (ticks s))))
                            (startTimeOfPhase s !! name));
           record_firstIteration := firstIterationOfPhase s !! name |})).
Proof.
  intros Hc Hit Hj Hstep. unfold step in Hstep.
  destruct (solved s || failed s) eqn:Hstop.
  - injection Hstep as <-. exists p. split; [exact Hc|].
    split; [rewrite Hstop; discriminate|]. left. split; reflexivity.
  - specialize (Hit eq_refl).
    apply orb_false_iff in Hstop as [_ Hf].
    destruct (_step _) as [s1|] eqn:Hs1; [|discriminate]. fields.
    set (s0 := set_iterations (iterations s + 1) s) in *.
    assert (consistent s0 p) as Hc0.
    { revert Hc. apply consistent_frame; auto. }
    destruct (_step_record s0 s1 p j name Hc0 Hf Hj Hs1) as (p' & Hc1 & Hit1 & Hrec).
    assert (iterations s1 = Z.of_nat (S n)) as Hn.
    { rewrite Hit1. unfold s0. fields. lia. }
    assert (stage s0 p j = stage s p j) as Hst0 by reflexivity.
    assert (phase_record s0 name = phase_record s name) as Hr0 by reflexivity.
    assert (∃ s1', s' = s1' /\ consistent s1' p' /\ iterations s1' = iterations s1 /\
                   stage s1' p' j = stage s1 p' j /\
                   phase_record s1' name = phase_record s1 name)
      as (s1' & -> & Hc' & Hit' & Hst' & Hr').
    { destruct (negb _ && _); injection Hstep as <-.
      - eexists. split; [reflexivity|].
        split; [revert Hc1; apply consistent_frame; auto|].
        split; [reflexivity|]. split; reflexivity.
      - exists s1. split; [reflexivity|]. split; [exact Hc1|].
        split; [reflexivity|]. split; reflexivity. }
    exists p'. split; [exact Hc'|]. split; [intros _; congruence|].
    rewrite Hst', Hr'.
    destruct Hrec as [[A B]|[(A & B & C)|(A & B & C)]].
    + left. split; [exact A|exact B].
    + right. left. split; [exact A|]. split; [exact B|]. rewrite C.
      replace (iterations s0) with (Z.of_nat (S n)) by (unfold s0; fields; lia).
      reflexivity.
    + right. right. split; [exact A|]. split; [exact B|]. exact C.
Qed.

Lemma record_at_before k0 k1 t0 t1 m :
  m < k0 →
  record_at k0 k1 t0 t1 m
  = {| record_startTime := None; record_endTime := None;
       record_timeSpent := None; record_firstIteration := None |}.
Proof. intros Hm. unfold record_at. rewrite decide_True by exact Hm. reflexivity. Qed.

Lemma record_at_running k0 k1 t0 t1 m :
  k0 ≤ m → m < k1 →
  record_at k0 k1 t0 t1 m
  = {| record_startTime := Some (Num t0); record_endTime := None;
       record_timeSpent := Some (Num 0);
       record_firstIteration := Some (Z.of_nat k0) |}.
Proof.
  intros H0 H1. unfold record_at. rewrite decide_False by lia.
  rewrite decide_True by exact H1. reflexivity.
Qed.

Lemma record_at_completed k0 k1 t0 t1 m :
  k0 < k1 → k1 ≤ m →
  record_at k0 k1 t0 t1 m
  = {| record_startTime := Some (Num t0); record_endTime := Some (Num t1);
       record_timeSpent := Some (Num (t1 - t0));
       record_firstIteration := Some (Z.of_nat k0) |}.
Proof.
  intros H0 H1. unfold record_at. rewrite decide_False by lia.
  rewrite decide_False by lia. reflexivity.
Qed.

(** The records of a phase along a run. *)
Lemma run_timeline problem clk j name n s :
  phase_names !! j = Some name →
  steps n (new_LayoutPipelineSolver problem clk) = Ok s →
  ∃ p, consistent s p /\
       (solved s || failed s = false → iterations s = Z.of_nat n) /\
       timeline (new_LayoutPipelineSolver problem clk) name n (stage s p j).
Proof.
  intros Hj. revert s. induction n as [|n IH]; intros s Hrun.
  - injection Hrun as <-. exists NotStarted.
    split; [apply consistent_new|]. split; [reflexivity|].
    assert (stage (new_LayoutPipelineSolver problem clk) NotStarted j = 0) as ->.
    { unfold stage. cbn [currentPipelineStepIndex new_LayoutPipelineSolver].
      destruct (decide (0 < j)); [reflexivity|].
      destruct (decide (0 = j)); [reflexivity|lia]. }
    exists 1, 2, 0%R, 0%R. split; [lia|]. split; [lia|]. split; [lia|].
    intros m s_m Hm Hsm. assert (m = 0) as -> by lia. injection Hsm as <-.
    rewrite record_at_before by lia. reflexivity.
  - destruct (proj1 (steps_snoc _ _ _) Hrun) as (s1 & Hrun1 & Hstep).
    destruct (IH s1 Hrun1) as (p & Hc & Hit & (k0 & k1 & t0 & t1 & Hk0 & Hk01 & Hst & Hrec)).
    destruct (step_record s1 s p n j name Hc Hit Hj Hstep)
      as (p' & Hc' & Hit' & Hmove).
    exists p'. split; [exact Hc'|]. split; [exact Hit'|].
    pose proof (Hrec n s1 (le_n _) Hrun1) as Hlast.
    assert (∀ k0' k1' t0' t1',
              (∀ m, m ≤ n → record_at k0' k1' t0' t1' m = record_at k0 k1 t0 t1 m) →
              phase_record s name = record_at k0' k1' t0' t1' (S n) →
              ∀ m s_m, m ≤ S n → steps m (new_LayoutPipelineSolver problem clk) = Ok s_m →
                       phase_record s_m name = record_at k0' k1' t0' t1' m) as Hext.
    { intros k0' k1' t0' t1' Hold Hnew m s_m Hm Hsm.
      destruct (decide (m = S n)) as [->|Hne].
      - rewrite Hrun in Hsm. injection Hsm as <-. exact Hnew.
      - rewrite Hold by lia. apply Hrec; [lia|exact Hsm]. }
    destruct Hmove as [[Hsame Hr]|[(Hs0 & Hs1 & Hr)|(Hs1 & Hs2 & Hr)]].
    + rewrite Hsame. rewrite Hlast in Hr.
      destruct (stage s1 p j) as [|[|st]].
      * exists (S (S n)), (S (S (S n))), t0, t1.
        split; [lia|]. split; [lia|]. split; [lia|].
        apply Hext.
        -- intros m Hm. rewrite !record_at_before by lia. reflexivity.
        -- rewrite Hr. rewrite !record_at_before by lia. reflexivity.
      * destruct Hst as [Hst1 Hst2].
        exists k0, (S (S n)), t0, t1.
        split; [lia|]. split; [lia|]. split; [lia|].
        apply Hext.
        -- intros m Hm. destruct (decide (m < k0)).
           ++ rewrite !record_at_before by lia. reflexivity.
           ++ rewrite !record_at_running by lia. reflexivity.
        -- rewrite Hr. rewrite !record_at_running by lia. reflexivity.
      * exists k0, k1, t0, t1.
        split; [lia|]. split; [lia|]. split; [lia|].
        apply Hext; [reflexivity|].
        rewrite Hr. rewrite !record_at_completed by lia. reflexivity.
    + rewrite Hs0 in Hst. rewrite Hs1.
      rewrite record_at_before in Hlast by lia.
      injection Hlast as _ Hend _ _.
      exists (S n), (S (S n)), (clock s1 (ticks s1)), 0%R.
      split; [lia|]. split; [lia|]. split; [lia|].
      apply Hext.
      * intros m Hm. rewrite !record_at_before by lia. reflexivity.
      * rewrite Hr, Hend. rewrite record_at_running by lia. reflexivity.
    + rewrite Hs1 in Hst. rewrite Hs2. destruct Hst as [Hst1 Hst2].
      rewrite record_at_running in Hlast by lia.
      injection Hlast as Hstart _ _ Hfirst.
      exists k0, (S n), t0, (clock s1 (ticks s1)).
      split; [lia|]. split; [lia|]. split; [lia|].
      apply Hext.
      * intros m Hm. destruct (decide (m < k0)).
        -- rewrite !record_at_before by lia. reflexivity.
        -- rewrite !record_at_running by lia. reflexivity.
      * rewrite Hr, Hstart, Hfirst. rewrite record_at_completed by lia. reflexivity.
Qed.

End Records.

(** ** The phases of a run *)

Section Phases.
Context `{Collaborators}.
Implicit Types s : LayoutPipelineSolver.

Lemma none_is_no_phase : "none" ∉ phase_names.
Proof. rewrite phase_names_eq. apply (bool_decide_unpack _). vm_compute. exact I. Qed.

(** C9.  When the index is past the last entry of the table, [_step]
    sets [solved] and changes nothing else, and [getCurrentPhase] returns
    ["none"]; the state that [_step] returns is in the same case, and
    [_step] leaves it as it is, so [getCurrentPhase] returns ["none"] from
    then on.  When the index is in the table, [getCurrentPhase] returns the
    name of the phase at the index, which is a phase name and is not
    ["none"]. *)
Theorem exhausted_pipeline_is_solved s :
  (length pipelineDef ≤ currentPipelineStepIndex s →
   _step s = Ok (set_solved true s) /\
   getCurrentPhase s = "none" /\
   getCurrentPhase (set_solved true s) = "none" /\
   _step (set_solved true s) = Ok (set_solved true s)) /\
  (currentPipelineStepIndex s < length pipelineDef →
   ∃ d, pipelineDef !! currentPipelineStepIndex s = Some d /\
        getCurrentPhase s = solverName d /\
        getCurrentPhase s ∈ phase_names /\ getCurrentPhase s ≠ "none").
Proof.
  split.
  - intros Hk. split; [apply _step_exhausted; exact Hk|].
    split; [apply getCurrentPhase_exhausted; exact Hk|].
    split; [apply getCurrentPhase_exhausted; exact Hk|].
    rewrite _step_exhausted by exact Hk. reflexivity.
  - intros Hk. destruct (lookup_lt_is_Some_2 _ _ Hk) as [d Hd].
    exists d. split; [exact Hd|]. rewrite (getCurrentPhase_lookup s d Hd).
    split; [reflexivity|]. split.
    + eapply list_elem_of_lookup_2. apply phase_names_lookup. exact Hd.
    + eapply phase_name_not_none. exact Hd.
Qed.

Lemma solveUntilPhase_reached fuel phase s :
  getCurrentPhase s = phase → solveUntilPhase fuel phase s = Some (Ok s).
Proof. intros Hp. destruct fuel; cbn [solveUntilPhase]; rewrite decide_True by exact Hp; reflexivity. Qed.

Lemma solveUntilPhase_out_of_fuel phase s :
  getCurrentPhase s ≠ phase → solveUntilPhase 0 phase s = None.
Proof. intros Hp. cbn [solveUntilPhase]. rewrite decide_False by exact Hp. reflexivity. Qed.

Lemma solveUntilPhase_step fuel phase s s' :
  getCurrentPhase s ≠ phase → step s = Ok s' →
  solveUntilPhase (S fuel) phase s = solveUntilPhase fuel phase s'.
Proof.
  intros Hp Hs. cbn [solveUntilPhase]. rewrite decide_False by exact Hp.
  rewrite Hs. reflexivity.
Qed.

(** Once the orchestrator is solved or failed in another phase than the
    one asked for, the loop of [solveUntilPhase] never exits. *)
Lemma solveUntilPhase_stopped fuel phase s :
  solved s || failed s = true → getCurrentPhase s ≠ phase →
  solveUntilPhase fuel phase s = None.
Proof.
  intros Hstop Hp. induction fuel as [|fuel IH].
  - apply solveUntilPhase_out_of_fuel. exact Hp.
  - rewrite (solveUntilPhase_step fuel phase s s Hp (step_stopped s Hstop)). exact IH.
Qed.



(** C8, as the code has it.  In every state that calls of [step()] reach
    from a new orchestrator, every completed phase (a phase before the
    current index) has a start time [t0], an end time [t1] and the time
    spent [t1 - t0]; its start time, its first iteration and its end time
    were written once, and its time spent twice: the history of the phase
    is the construction of its solver, the writes of the time spent (set
    to 0), of the start time and of the first iteration, and then, at
    completion, the writes of the end time and of the time spent, the
    hook, the clearing of the active sub-solver and the increment of the
    index.  The tables show these writes: two calls of the run, number
    [k0] and a later one, number [k1], are such that the phase has no entry
    in any of the four tables before call [k0]; from call [k0] to the call
    before [k1] it has a start time, the time spent 0, the first iteration
    [k0] and no end time; and from call [k1] on it has the same start time
    and first iteration, an end time, and the end time minus the start time
    as its time spent. *)
Theorem completed_phase_record problem clock n s j name :
  steps n (new_LayoutPipelineSolver problem clock) = Ok s →
  phase_names !! j = Some name → j < currentPipelineStepIndex s →
  (∃ t0 t1 : R,
     startTimeOfPhase s !! name = Some (Num t0) /\
     endTimeOfPhase s !! name = Some (Num t1) /\
     timeSpentOnPhase s !! name = Some (Num (t1 - t0))) /\
  writes startTime name (trace s) = 1 /\
  writes firstIteration name (trace s) = 1 /\
  writes endTime name (trace s) = 1 /\
  writes timeSpent name (trace s) = 2 /\
  history_of name (trace s) = starting ++ completing /\
  ∃ (k0 k1 : nat) (t0 t1 : R),
    0 < k0 /\ k0 < k1 /\ k1 ≤ n /\
    ∀ m s_m, m ≤ n → steps m (new_LayoutPipelineSolver problem clock) = Ok s_m →
             phase_record s_m name = record_at k0 k1 t0 t1 m.
Proof.
  intros Hrun Hj Hlt.
  destruct (run_timeline problem clock j name n s Hj Hrun) as (p & Hc & _ & Htl).
  split; [eapply consistent_times; eassumption|].
  destruct (consistent_writes s p j name Hc Hj Hlt) as (W1 & W2 & W3 & W4 & W5).
  do 5 (split; [assumption|]).
  rewrite (stage_past s p j Hlt) in Htl.
  destruct Htl as (k0 & k1 & t0 & t1 & Hk0 & Hk01 & Hk1 & Hrec).
  exists k0, k1, t0, t1. auto.
Qed.

End Phases.

Lemma exhausted_pipeline_is_solved_witness :
  (getCurrentPhase (set_currentPipelineStepIndex 4 Toy.immediate_start) = "none") /\
  (getCurrentPhase Toy.immediate_start ≠ "none").
Proof.
  split.
  - apply (proj1 (exhausted_pipeline_is_solved
                    (set_currentPipelineStepIndex 4 Toy.immediate_start))).
    vm_compute. lia.
  - destruct (proj2 (exhausted_pipeline_is_solved Toy.immediate_start))
      as (d & _ & _ & _ & Hne); [vm_compute; lia|exact Hne].
Defined.

Lemma failing_first_step : step Toy.failing_start = Ok Toy.failing_running.
Proof. vm_compute. reflexivity. Qed.

Lemma failing_second_step : step Toy.failing_running = Ok Toy.failing_failed.
Proof. vm_compute. reflexivity. Qed.

(** C1 fails on the code.  The first phase of this orchestrator fails
    at its first step: after two calls of [step()] the orchestrator is
    failed, with the error of the sub-solver, and still in the first phase.
    [solveUntilPhase("chipPartitionsSolver")] then never returns: whatever
    the number of iterations allowed, its loop is still running. *)
Theorem solveUntilPhase_never_returns_after_failure :
  steps 2 Toy.failing_start = Ok Toy.failing_failed /\
  failed Toy.failing_failed = true /\
  error Toy.failing_failed = Some "failure of identifyDecouplingCapsSolver" /\
  getCurrentPhase Toy.failing_failed = "identifyDecouplingCapsSolver" /\
  ∀ fuel, solveUntilPhase fuel "chipPartitionsSolver" Toy.failing_start = None.
Proof.
  split; [vm_compute; reflexivity|]. split; [vm_compute; reflexivity|].
  split; [vm_compute; reflexivity|]. split; [vm_compute; reflexivity|].
  assert (∀ s : @LayoutPipelineSolver Toy.failing,
            currentPipelineStepIndex s = 0%nat →
            getCurrentPhase s ≠ "chipPartitionsSolver") as Hphase.
  { intros s Hs. unfold getCurrentPhase. rewrite Hs. discriminate. }
  intros fuel.
  destruct fuel as [|fuel];
    [apply solveUntilPhase_out_of_fuel, Hphase; reflexivity|].
  rewrite (solveUntilPhase_step fuel _ _ _ (Hphase Toy.failing_start eq_refl)
             failing_first_step).
  destruct fuel as [|fuel];
    [apply solveUntilPhase_out_of_fuel, Hphase; vm_compute; reflexivity|].
  rewrite (solveUntilPhase_step fuel _ _ Toy.failing_failed);
    [|apply Hphase; vm_compute; reflexivity|exact failing_second_step].
  apply solveUntilPhase_stopped; [vm_compute; reflexivity|].
  apply Hphase. vm_compute. reflexivity.
Qed.

(** ** The layout accessor *)

Section Accessor.
Context `{Collaborators}.
Implicit Types s : LayoutPipelineSolver.


End Accessor.


(** The layout of the two boxes is returned although it has a violation,
    which is logged. *)
Lemma getOutputLayout_two_boxes :
  getOutputLayout Toy.finished
  = Ok (Toy.two_boxes_layout,
        [PhysicalOverlapDetected 1
           [ {| Overlap.chip1 := "U1"; Overlap.chip2 := "U2";
                Overlap.overlapArea := 2 |} ]]).
Proof.
  unfold getOutputLayout.
  change (solved Toy.finished) with true.
  change (deref_opt Toy.finished (partitionPackingSolver Toy.finished))
    with (Some {| Toy.label := "partitionPackingSolver"; Toy.now := Toy.Solved;
                  Toy.script := []; Toy.layout := Some Toy.two_boxes_layout |}).
  cbn [negb]. cbn [sub_solved Toy.two_boxes Toy.collaborators Toy.is_solved Toy.now negb
           finalLayout Toy.layout].
  change (inputProblem Toy.finished) with Toy.two_boxes_problem.
  rewrite checkForOverlaps_two_boxes. reflexivity.
Qed.

(** ** The visualization compositor *)

Section Compositor.
Context `{Collaborators}.
Implicit Types s : LayoutPipelineSolver.

Lemma default_tag_all i prims :
  default [] (tag_all i prims) = tagged i <$> default [] prims.
Proof. destruct prims; reflexivity. Qed.

Lemma all_primitives_tag_viz i v :
  all_primitives (tag_viz i v) = tagged i <$> all_primitives v.
Proof.
  unfold all_primitives, tag_viz. cbn [GraphicsObject.points GraphicsObject.rects
    GraphicsObject.lines GraphicsObject.circles GraphicsObject.texts].
  rewrite !default_tag_all, !fmap_app. reflexivity.
Qed.

Lemma elem_of_flatMap_field f ws p :
  p ∈ flatMap_field f ws ↔ ∃ w, w ∈ ws /\ p ∈ default [] (f w).
Proof.
  unfold flatMap_field. rewrite list_elem_of_bind. split; intros (w & ? & ?); eauto.
Qed.

Lemma elem_of_all_primitives v p :
  p ∈ all_primitives v ↔
  p ∈ default [] (GraphicsObject.points v) \/ p ∈ default [] (GraphicsObject.rects v) \/
  p ∈ default [] (GraphicsObject.lines v) \/ p ∈ default [] (GraphicsObject.circles v) \/
  p ∈ default [] (GraphicsObject.texts v).
Proof. unfold all_primitives. rewrite !elem_of_app. reflexivity. Qed.

Lemma all_primitives_merge_viz ws p :
  p ∈ all_primitives (merge_viz ws) ↔ ∃ w, w ∈ ws /\ p ∈ all_primitives w.
Proof.
  rewrite elem_of_all_primitives. unfold merge_viz.
  cbn [GraphicsObject.points GraphicsObject.rects GraphicsObject.lines
       GraphicsObject.circles GraphicsObject.texts from_option].
  unfold Datatypes.id. rewrite !elem_of_flatMap_field. split.
  - intros [(w & ? & ?)|[(w & ? & ?)|[(w & ? & ?)|[(w & ? & ?)|(w & ? & ?)]]]];
      exists w; (split; [assumption|]); apply elem_of_all_primitives; tauto.
  - intros (w & Hw & Hp). apply elem_of_all_primitives in Hp.
    destruct Hp as [?|[?|[?|[?|?]]]]; eauto 10.
Qed.

Lemma elem_of_imap_tag_viz vs w :
  w ∈ imap tag_viz vs ↔ ∃ i v, vs !! i = Some v /\ w = tag_viz i v.
Proof.
  rewrite list_elem_of_lookup. split.
  - intros (i & Hi). rewrite list_lookup_imap in Hi.
    destruct (vs !! i) as [v|] eqn:Hv; [|discriminate]. injection Hi as <-. eauto.
  - intros (i & v & Hv & ->). exists i. rewrite list_lookup_imap, Hv. reflexivity.
Qed.

(** The primitives that the fallback returns for the visualizations [vs]
    are those of [vs], each tagged with the position of its
    visualization. *)
Lemma fallback_primitives vs p :
  p ∈ all_primitives (match imap tag_viz vs with
                      | [v] => v
                      | _ => merge_viz (imap tag_viz vs)
                      end) ↔
  ∃ i v q, vs !! i = Some v /\ q ∈ all_primitives v /\ p = tagged i q.
Proof.
  assert (p ∈ all_primitives (merge_viz (imap tag_viz vs)) ↔
          ∃ i v q, vs !! i = Some v /\ q ∈ all_primitives v /\ p = tagged i q) as Hmerge.
  { rewrite all_primitives_merge_viz. split.
    - intros (w & Hw & Hp). apply elem_of_imap_tag_viz in Hw as (i & v & Hv & ->).
      rewrite all_primitives_tag_viz in Hp.
      apply list_elem_of_fmap in Hp as (q & -> & Hq). eauto 10.
    - intros (i & v & q & Hv & Hq & ->). exists (tag_viz i v). split.
      + apply elem_of_imap_tag_viz. eauto.
      + rewrite all_primitives_tag_viz. apply list_elem_of_fmap. eauto. }
  destruct vs as [|v [|v' vs]]; [exact Hmerge| |exact Hmerge].
  cbn [imap]. rewrite all_primitives_tag_viz, list_elem_of_fmap. split.
  - intros (q & -> & Hq). exists 0, v, q. auto.
  - intros (i & v0 & q & Hv & Hq & ->). destruct i as [|i]; [|discriminate].
    injection Hv as <-. eauto.
Qed.

Lemma visualize_in_fallback s : in_fallback s → visualize s = visualize_fallback s.
Proof.
  intros [Hactive Hfinal]. unfold visualize.
  destruct (solved s).
  - destruct Hfinal as [Hfinal|Hfinal]; [discriminate|].
    destruct (deref_opt s (partitionPackingSolver s)) as [pps|]; [|reflexivity].
    rewrite (Hfinal pps eq_refl). reflexivity.
  - destruct Hactive as [Hactive|Hactive]; [discriminate|].
    rewrite Hactive. reflexivity.
Qed.

(** The visualization of phase [k] stands at position [k + 1] when the
    phases before it have a solver. *)
Lemma available_viz_position s k name o :
  phase_names !! k = Some name →
  (∀ j name', j < k → phase_names !! j = Some name' →
              is_Some (deref_opt s (solvers s !! name'))) →
  deref_opt s (solvers s !! name) = Some o →
  omap (fun viz => viz) (available_viz s) !! S k = Some (sub_visualize o).
Proof.
  intros Hk Hbefore Ho. unfold available_viz.
  unfold identifyDecouplingCapsSolver, chipPartitionsSolver,
    packInnerPartitionsSolver, partitionPackingSolver.
  destruct k as [|[|[|[|k]]]]; simpl in Hk; try discriminate; injection Hk as <-.
  - rewrite Ho. reflexivity.
  - destruct (Hbefore 0 "identifyDecouplingCapsSolver" ltac:(lia) eq_refl) as [o0 ->].
    rewrite Ho. reflexivity.
  - destruct (Hbefore 0 "identifyDecouplingCapsSolver" ltac:(lia) eq_refl) as [o0 ->].
    destruct (Hbefore 1 "chipPartitionsSolver" ltac:(lia) eq_refl) as [o1 ->].
    rewrite Ho. reflexivity.
  - destruct (Hbefore 0 "identifyDecouplingCapsSolver" ltac:(lia) eq_refl) as [o0 ->].
    destruct (Hbefore 1 "chipPartitionsSolver" ltac:(lia) eq_refl) as [o1 ->].
    destruct (Hbefore 2 "packInnerPartitionsSolver" ltac:(lia) eq_refl) as [o2 ->].
    rewrite Ho. reflexivity.
Qed.

(** C7, as the code has it.  When [visualize()] falls back to the
    composition, the available visualizations are that of the input
    problem, at position 0, followed by those of the phases that have a
    solver; the visualization of phase [k] is at position [k + 1] when the
    phases before it have a solver.  The result is the merge of the
    visualizations, each tagged with its position, except that a single
    available visualization is returned alone, tagged with 0.  So the
    primitives of the result are exactly the primitives of the available
    visualizations, each with the position of its visualization as its
    [step]. *)
Theorem visualize_fallback_tags s :
  in_fallback s →
  let vs := omap (fun viz => viz) (available_viz s) in
  vs !! 0 = Some (visualizeBasicLayout (inputProblem s)) /\
  (∀ k name o,
     phase_names !! k = Some name →
     (∀ j name', j < k → phase_names !! j = Some name' →
                 is_Some (deref_opt s (solvers s !! name'))) →
     deref_opt s (solvers s !! name) = Some o →
     vs !! S k = Some (sub_visualize o)) /\
  visualize s = (match vs with
                 | [v] => tag_viz 0 v
                 | _ => merge_viz (imap tag_viz vs)
                 end) /\
  (∀ p, p ∈ all_primitives (visualize s) ↔
        ∃ i v q, vs !! i = Some v /\ q ∈ all_primitives v /\
                 p = {| Primitive.shape := Primitive.shape q;
                        Primitive.step := Some i |}).
Proof.
  intros Hfb vs. split; [reflexivity|].
  split; [intros k name o; apply available_viz_position|].
  rewrite (visualize_in_fallback s Hfb). unfold visualize_fallback. fold vs.
  split.
  - destruct vs as [|v [|v' vs']]; reflexivity.
  - intros p. apply fallback_primitives.
Qed.

End Compositor.

(** ** Runs of the scripted solvers *)

Lemma sub_solver_failure_is_terminal_witness :
  ∃ s', step Toy.failing_running = Ok s' /\ failed s' = true /\
        error s' = Some "failure of identifyDecouplingCapsSolver" /\
        activeSubSolver s' = None /\ steps 5 s' = Ok s'.
Proof.
  pose (d := {| solverName := "identifyDecouplingCapsSolver";
                construct := fun this : @LayoutPipelineSolver Toy.failing =>
                  IdentifyDecouplingCapsSolver (inputProblem this);
                onSolved := Some (fun this => Ok this) |}).
  pose (sub := Toy.fresh "identifyDecouplingCapsSolver" (fun _ => [Toy.Failed]) None
               : @Solver Toy.failing).
  assert (@pipelineDef Toy.failing !! currentPipelineStepIndex Toy.failing_running = Some d)
    as Hd by (vm_compute; reflexivity).
  assert (activeSubSolver Toy.failing_running = Some 0%nat) as Ha
    by (vm_compute; reflexivity).
  assert (deref Toy.failing_running 0 = Some sub) as Hl by (vm_compute; reflexivity).
  assert (sub_solved (sub_step sub) = false) as Hns by (vm_compute; reflexivity).
  assert (sub_failed (sub_step sub) = true) as Hf by (vm_compute; reflexivity).
  assert (solved Toy.failing_running = false) as Hs by (vm_compute; reflexivity).
  assert (failed Toy.failing_running = false) as Hfl by (vm_compute; reflexivity).
  destruct (proj2 (sub_solver_failure_is_terminal Toy.failing_running d 0 sub
                     Hd Ha Hl Hns Hf) Hs Hfl)
    as (s' & Hstep & Herr & Hfailed & Hactive & _ & _ & _ & Hstay).
  exists s'. split; [exact Hstep|]. split; [exact Hfailed|].
  split; [|split; [exact Hactive|apply Hstay]].
  rewrite Herr; [vm_compute; reflexivity|vm_compute; discriminate].
Defined.


Lemma immediate_two_steps : steps 2 Toy.immediate_start = Ok Toy.immediate_second.
Proof. vm_compute. reflexivity. Defined.

Lemma immediate_one_step : steps 1 Toy.immediate_start = Ok Toy.immediate_running.
Proof. vm_compute. reflexivity. Defined.

Lemma completed_phase_record_witness :
  steps 2 Toy.immediate_start = Ok Toy.immediate_second /\
  (0 < currentPipelineStepIndex Toy.immediate_second)%nat /\
  writes timeSpent "identifyDecouplingCapsSolver" (trace Toy.immediate_second) = 2 /\
  writes endTime "identifyDecouplingCapsSolver" (trace Toy.immediate_second) = 1 /\
  ∃ (k0 k1 : nat) (t0 t1 : R),
    0 < k0 /\ k0 < k1 /\ k1 ≤ 2 /\
    phase_record Toy.immediate_start "identifyDecouplingCapsSolver"
    = record_at k0 k1 t0 t1 0 /\
    phase_record Toy.immediate_running "identifyDecouplingCapsSolver"
    = record_at k0 k1 t0 t1 1 /\
    phase_record Toy.immediate_second "identifyDecouplingCapsSolver"
    = record_at k0 k1 t0 t1 2.
Proof.
  assert (0 < currentPipelineStepIndex Toy.immediate_second)%nat as Hlt
    by (vm_compute; lia).
  assert (@phase_names Toy.immediate !! 0%nat = Some "identifyDecouplingCapsSolver") as Hj
    by (vm_compute; reflexivity).
  destruct (completed_phase_record Toy.no_chips Toy.ten_apart 2 Toy.immediate_second 0
              "identifyDecouplingCapsSolver" immediate_two_steps Hj Hlt)
    as (_ & _ & _ & He & Hs & _ & (k0 & k1 & t0 & t1 & Hk0 & Hk01 & Hk1 & Hrec)).
  split; [exact immediate_two_steps|]. split; [exact Hlt|]. split; [exact Hs|].
  split; [exact He|].
  exists k0, k1, t0, t1.
  split; [exact Hk0|]. split; [exact Hk01|]. split; [exact Hk1|].
  split; [exact (Hrec 0 Toy.immediate_start ltac:(lia) eq_refl)|].
  split; [exact (Hrec 1 Toy.immediate_running ltac:(lia) immediate_one_step)|].
  exact (Hrec 2 Toy.immediate_second ltac:(lia) immediate_two_steps).
Defined.

(** C8, as stated, fails on the time spent.  With solvers that are solved
    by their first step: after the first call of [step()] the solver of
    the first phase is active, the phase has no end time, and its time
    spent is already written (it is 0); after the second call the phase is
    completed and its time spent has been written twice. *)
Lemma timeSpent_is_written_twice :
  steps 1 Toy.immediate_start = Ok Toy.immediate_running /\
  currentPipelineStepIndex Toy.immediate_running = 0%nat /\
  activeSubSolver Toy.immediate_running = Some 0%nat /\
  timeSpentOnPhase Toy.immediate_running !! "identifyDecouplingCapsSolver" = Some (Num 0) /\
  endTimeOfPhase Toy.immediate_running !! "identifyDecouplingCapsSolver" = None /\
  writes timeSpent "identifyDecouplingCapsSolver" (trace Toy.immediate_running) = 1 /\
  steps 2 Toy.immediate_start = Ok Toy.immediate_second /\
  currentPipelineStepIndex Toy.immediate_second = 1%nat /\
  writes timeSpent "identifyDecouplingCapsSolver" (trace Toy.immediate_second) = 2 /\
  writes timeSpent "identifyDecouplingCapsSolver" (trace Toy.immediate_second) ≠ 1.
Proof.
  repeat (split; [vm_compute; reflexivity|]). vm_compute. discriminate.
Qed.

Lemma immediate_start_in_fallback : in_fallback Toy.immediate_start.
Proof. split; [right|left]; vm_compute; reflexivity. Defined.

Lemma visualize_fallback_tags_witness :
  in_fallback Toy.immediate_start /\
  visualize Toy.immediate_start = tag_viz 0 Toy.background.
Proof.
  split; [exact immediate_start_in_fallback|].
  destruct (visualize_fallback_tags Toy.immediate_start immediate_start_in_fallback)
    as (_ & _ & Hviz & _).
  rewrite Hviz. vm_compute. reflexivity.
Defined.

(** C7, as stated, fails.  On a new orchestrator the only available
    visualization is that of the input problem, and [visualize()] does not
    return it as it is: its primitives are tagged with 0.  On the
    orchestrator whose first phase has failed, the primitive of the solver
    of the first phase, whose index in the table is 0, is tagged with 1,
    and not with 0. *)
Lemma fallback_tags_are_positions :
  (in_fallback Toy.immediate_start /\
   omap (fun viz => viz) (available_viz Toy.immediate_start) = [Toy.background] /\
   visualize Toy.immediate_start ≠ Toy.background /\
   {| Primitive.shape := "chip"; Primitive.step := Some 0%nat |}
     ∈ all_primitives (visualize Toy.immediate_start)) /\
  (steps 2 Toy.failing_start = Ok Toy.failing_failed /\
   in_fallback Toy.failing_failed /\
   @phase_names Toy.failing !! 0%nat = Some "identifyDecouplingCapsSolver" /\
   (all_primitives ∘ sub_visualize
      <$> deref_opt Toy.failing_failed (identifyDecouplingCapsSolver Toy.failing_failed))
     = Some [ {| Primitive.shape := "identifyDecouplingCapsSolver";
                 Primitive.step := None |} ] /\
   {| Primitive.shape := "identifyDecouplingCapsSolver"; Primitive.step := Some 1%nat |}
     ∈ all_primitives (visualize Toy.failing_failed) /\
   {| Primitive.shape := "identifyDecouplingCapsSolver"; Primitive.step := Some 0%nat |}
     ∉ all_primitives (visualize Toy.failing_failed)).
Proof.
  split.
  - split; [exact immediate_start_in_fallback|].
    split; [vm_compute; reflexivity|]. split; [vm_compute; discriminate|].
    apply (bool_decide_unpack _). vm_compute. exact I.
  - split; [vm_compute; reflexivity|].
    split; [split; [right|left]; vm_compute; reflexivity|].
    split; [vm_compute; reflexivity|]. split; [vm_compute; reflexivity|].
    split; apply (bool_decide_unpack _); vm_compute; exact I.
Qed.

(** With solvers that are solved by their first step, nine calls of
    [step()] solve the orchestrator: two per phase and one to see the end
    of the table.  On the problem without chips the layout is empty and
    nothing is logged. *)
Lemma immediate_run_is_solved :
  steps 9 Toy.immediate_start = Ok Toy.immediate_done /\
  solved Toy.immediate_done = true /\ failed Toy.immediate_done = false /\
  getCurrentPhase Toy.immediate_done = "none" /\
  getOutputLayout Toy.immediate_done = Ok ({| OutputLayout.chipPlacements := [] |}, []).
Proof. repeat (split; [vm_compute; reflexivity|]). vm_compute. reflexivity. Qed.

(** [solveUntilPhase] returns as soon as the phase asked for is the
    current one. *)
Lemma solveUntilPhase_second_phase :
  solveUntilPhase 2 "chipPartitionsSolver" Toy.immediate_start
  = Some (Ok Toy.immediate_second).
Proof. vm_compute. reflexivity. Qed.

(** * Further properties of the validator *)

Section OverlapArea.
Local Open Scope R_scope.

Ltac by_cases_min_max :=
  unfold Rmin, Rmax;
  repeat match goal with
         | |- context [Rle_dec ?a ?b] => destruct (Rle_dec a b)
         end;
  try lra.

Lemma disjoint_sym b1 b2 : disjoint b1 b2 → disjoint b2 b1.
Proof. unfold disjoint. tauto. Qed.

Lemma xExtent_sym b1 b2 : xExtent b1 b2 = xExtent b2 b1.
Proof. unfold xExtent. rewrite Rmin_comm, Rmax_comm. reflexivity. Qed.

Lemma yExtent_sym b1 b2 : yExtent b1 b2 = yExtent b2 b1.
Proof. unfold yExtent. rewrite Rmin_comm, Rmax_comm. reflexivity. Qed.

Lemma calculateOverlapArea_comm b1 b2 :
  calculateOverlapArea b1 b2 = calculateOverlapArea b2 b1.
Proof.
  destruct (disjoint_dec b1 b2) as [Hd|Hd].
  - rewrite (calculateOverlapArea_disjoint _ _ Hd).
    rewrite (calculateOverlapArea_disjoint _ _ (disjoint_sym _ _ Hd)). reflexivity.
  - rewrite (calculateOverlapArea_not_disjoint _ _ Hd).
    rewrite calculateOverlapArea_not_disjoint.
    + rewrite xExtent_sym, yExtent_sym. reflexivity.
    + intros Hd'. apply Hd, disjoint_sym, Hd'.
Qed.

(** X1.  The overlap area does not depend on the order of the two
    bounds, whatever the bounds. *)
Theorem calculateOverlapArea_sym b1 b2 :
  calculateOverlapArea b1 b2 = calculateOverlapArea b2 b1.
Proof.
  destruct (disjoint_dec b1 b2) as [Hd|Hd].
  - rewrite (calculateOverlapArea_disjoint _ _ Hd).
    symmetry. apply calculateOverlapArea_disjoint, disjoint_sym, Hd.
  - rewrite (calculateOverlapArea_not_disjoint _ _ Hd).
    rewrite calculateOverlapArea_not_disjoint by (intros Hd'; apply Hd, disjoint_sym, Hd').
    rewrite xExtent_sym, yExtent_sym. reflexivity.
Qed.

Lemma extents_of_well_formed b1 b2 :
  well_formed b1 → well_formed b2 → ¬ disjoint b1 b2 →
  0 <= xExtent b1 b2 <= Bounds.maxX b1 - Bounds.minX b1 /\
  0 <= yExtent b1 b2 <= Bounds.maxY b1 - Bounds.minY b1.
Proof.
  unfold well_formed, disjoint, xExtent, yExtent. intros [Hx1 Hy1] [Hx2 Hy2] Hd.
  split; by_cases_min_max.
Qed.

(** X2.  For two bounds whose minima are at most their maxima, the
    overlap area is at least 0 and at most the area of each of the two
    bounds; the overlap area of such a bound with itself is its area. *)
Theorem calculateOverlapArea_range b1 b2 :
  well_formed b1 → well_formed b2 →
  0 <= calculateOverlapArea b1 b2 /\
  calculateOverlapArea b1 b2 <= area_of b1 /\
  calculateOverlapArea b1 b2 <= area_of b2 /\
  calculateOverlapArea b1 b1 = area_of b1.
Proof.
  intros H1 H2.
  assert (∀ c1 c2, well_formed c1 → well_formed c2 →
                   0 <= calculateOverlapArea c1 c2 <= area_of c1) as Hone.
  { intros c1 c2 Hc1 Hc2. destruct (disjoint_dec c1 c2) as [Hd|Hd].
    - rewrite (calculateOverlapArea_disjoint _ _ Hd). unfold area_of.
      destruct Hc1 as [? ?]. split; [lra|]. apply Rmult_le_pos; lra.
    - rewrite (calculateOverlapArea_not_disjoint _ _ Hd). unfold area_of.
      destruct (extents_of_well_formed c1 c2 Hc1 Hc2 Hd) as [[? ?] [? ?]].
      split; [apply Rmult_le_pos; assumption|].
      apply Rmult_le_compat; assumption. }
  split; [apply (Hone b1 b2 H1 H2)|]. split; [apply (Hone b1 b2 H1 H2)|].
  split; [rewrite calculateOverlapArea_comm; apply (Hone b2 b1 H2 H1)|].
  destruct (disjoint_dec b1 b1) as [Hd|Hd].
  - rewrite (calculateOverlapArea_disjoint _ _ Hd). unfold area_of.
    destruct H1 as [? ?]. unfold disjoint in Hd.
    assert (Bounds.maxX b1 = Bounds.minX b1 \/ Bounds.maxY b1 = Bounds.minY b1) as [->| ->]
      by lra; ring.
  - rewrite (calculateOverlapArea_not_disjoint _ _ Hd). unfold area_of, xExtent, yExtent.
    rewrite !Rmin_left, !Rmax_left by lra. reflexivity.
Qed.

End OverlapArea.

Section RotatedBounds.
Local Open Scope R_scope.

Lemma Rabs_bound z r : Rabs z <= r → - r <= z <= r.
Proof. intros Hz. unfold Rabs in Hz. destruct (Rcase_abs z); lra. Qed.

Lemma rotated_extent_bound a b c s hw hh :
  Rabs a <= hw → Rabs b <= hh →
  Rabs (a * c - b * s) <= hw * Rabs c + hh * Rabs s.
Proof.
  intros Ha Hb.
  replace (a * c - b * s) with (a * c + (- b) * s) by ring.
  eapply Rle_trans; [apply Rabs_triang|].
  rewrite !Rabs_mult, Rabs_Ropp.
  apply Rplus_le_compat; apply Rmult_le_compat_r; auto using Rabs_pos.
Qed.

Lemma rotated_extent_bound' a b c s hw hh :
  Rabs a <= hw → Rabs b <= hh →
  Rabs (a * s + b * c) <= hw * Rabs s + hh * Rabs c.
Proof.
  intros Ha Hb.
  eapply Rle_trans; [apply Rabs_triang|].
  rewrite !Rabs_mult.
  apply Rplus_le_compat; apply Rmult_le_compat_r; auto using Rabs_pos.
Qed.

(** X3.  The bound encloses the rotated chip: every point [(u, v)] of
    the chip, taken in the frame of the chip ([|u|] at most half the width,
    [|v|] at most half the height), lies in the bound once the chip is
    rotated and placed. *)
Theorem getRotatedBounds_encloses placement size u v :
  Rabs u <= Point.x size / 2 → Rabs v <= Point.y size / 2 →
  inside (getRotatedBounds placement size) (placed_point placement u v).
Proof.
  intros Hu Hv. unfold inside, placed_point, getRotatedBounds. cbn.
  set (t := Placement.ccwRotationDegrees placement * PI / 180).
  pose proof (Rabs_bound _ _ (rotated_extent_bound u v (cos t) (sin t) _ _ Hu Hv)).
  pose proof (Rabs_bound _ _ (rotated_extent_bound' u v (cos t) (sin t) _ _ Hu Hv)).
  lra.
Qed.



End RotatedBounds.

Section OrderOfKeys.
Local Open Scope R_scope.

Lemma prop_lookup_elem_of {V} (obj : list (string * V)) key v :
  NoDup (Object_keys obj) →
  prop_lookup key obj = Some v ↔ (key, v) ∈ obj.
Proof.
  intros Hnd. split.
  - clear Hnd. induction obj as [|[k w] obj IH]; [discriminate|].
    cbn. destruct (decide (k = key)) as [->|Hne].
    + intros [= ->]. left.
    + intros Hl. right. auto.
  - intros Hin. apply list_elem_of_lookup_1 in Hin as [i Hi].
    eapply prop_lookup_entry; eassumption.
Qed.

Lemma prop_lookup_permutation {V} (obj obj' : list (string * V)) key :
  NoDup (Object_keys obj) → obj ≡ₚ obj' →
  prop_lookup key obj' = prop_lookup key obj.
Proof.
  intros Hnd Hperm.
  assert (NoDup (Object_keys obj')) as Hnd'.
  { unfold Object_keys in *. rewrite <- Hperm. exact Hnd. }
  apply option_eq. intros v.
  rewrite !prop_lookup_elem_of by assumption. rewrite Hperm. reflexivity.
Qed.

End OrderOfKeys.

Section DoubleCount.
Context `{Double.MathLibrary}.
Local Open Scope float_scope.

Lemma length_double_pushed_from inputProblem layout ids :
  (2 * length (Double.pushed_from inputProblem layout ids)
   ≤ length ids * (length ids - 1))%nat.
Proof.
  induction ids as [|c ids IH]; [cbn; lia|].
  cbn [Double.pushed_from]. rewrite length_app.
  assert (length (omap (Double.pushed inputProblem layout c) ids) ≤ length ids)%nat.
  { clear IH. induction ids as [|a l IH]; [reflexivity|].
    cbn. destruct (Double.pushed inputProblem layout c a); cbn; lia. }
  cbn [length]. nia.
Qed.

(** X7.  Whenever [checkForOverlaps] returns on a layout of [n] chips,
    it returns at most [n (n - 1) / 2] reports; on a layout of fewer than
    two chips it returns, and returns no report. *)
Theorem checkForOverlaps_count inputProblem layout :
  (∀ overlaps,
     Double.checkForOverlaps inputProblem layout = Ok overlaps →
     (2 * length overlaps
      ≤ length (Double.OutputLayout.chipPlacements layout)
        * (length (Double.OutputLayout.chipPlacements layout) - 1))%nat) /\
  ((length (Double.OutputLayout.chipPlacements layout) < 2)%nat →
   Double.checkForOverlaps inputProblem layout = Ok []).
Proof.
  split.
  - intros overlaps Hrun. apply checkForOverlaps_returned in Hrun as [_ ->].
    pose proof (length_double_pushed_from inputProblem layout
                  (Object_keys (Double.OutputLayout.chipPlacements layout))) as Hlen.
    unfold Object_keys in Hlen at 2 3. rewrite !length_fmap in Hlen. exact Hlen.
  - intros Hn. rewrite checkForOverlaps_outcome.
    destruct (Double.OutputLayout.chipPlacements layout) as [|e1 [|e2 l]];
      [reflexivity|reflexivity|cbn in Hn; lia].
Qed.

End DoubleCount.

Section Comparisons.
Local Open Scope float_scope.

Lemma SFcompare_swap x y :
  SFcompare y x = CompOpp <$> SFcompare x y.
Proof.
  destruct x as [sx|sx| |sx mx ex], y as [sy|sy| |sy my ey]; cbn;
    try reflexivity;
    try (destruct sx; reflexivity); try (destruct sy; reflexivity);
    try (destruct sx, sy; reflexivity).
  assert (Pos.compare_cont Eq my mx = CompOpp (Pos.compare_cont Eq mx my)) as ->
    by exact (Pos.compare_antisym mx my).
  rewrite (Z.compare_antisym ex ey).
  destruct sx, sy, (ex ?= ey)%Z, (Pos.compare_cont Eq mx my); reflexivity.
Qed.

Lemma SFcompare_Eq x y :
  SFcompare x y = Some Eq →
  x = y \/ ∃ sx sy, x = S754_zero sx /\ y = S754_zero sy.
Proof.
  destruct x as [sx|sx| |sx mx ex], y as [sy|sy| |sy my ey]; cbn; intros Hc;
    try discriminate;
    try (destruct sx; discriminate); try (destruct sy; discriminate).
  - right. eauto.
  - destruct sx, sy; try discriminate; left; reflexivity.
  - left.
    assert (ex = ey /\ mx = my) as [-> ->].
    { destruct sx, sy; try discriminate;
        destruct (ex ?= ey)%Z eqn:He; try discriminate;
        apply Z.compare_eq in He; (split; [exact He|]);
        apply Pos.compare_eq; unfold Pos.compare;
        destruct (Pos.compare_cont Eq mx my); try discriminate; reflexivity. }
    destruct sx, sy; try discriminate; reflexivity.
Qed.

Lemma is_nan_spec x : is_nan x = match Prim2SF x with S754_nan => true | _ => false end.
Proof.
  unfold is_nan. rewrite FloatAxioms.eqb_spec. unfold SFeqb.
  destruct (Prim2SF x) as [s|s| |s m e]; cbn; try reflexivity.
  - destruct s; reflexivity.
  - rewrite Z.compare_refl.
    change (Pos.compare_cont Eq m m) with (Pos.compare m m).
    rewrite Pos.compare_refl. destruct s; reflexivity.
Qed.

Lemma is_negative_zero_spec x :
  Double.is_negative_zero x
  = match Prim2SF x with S754_zero true => true | _ => false end.
Proof.
  unfold Double.is_negative_zero. rewrite classify_spec.
  destruct (Prim2SF x) as [[|]|[|]| |[|] m e]; try reflexivity;
    unfold SF64classify, SFclassify;
    match goal with |- context [if ?c then _ else _] => destruct c end; reflexivity.
Qed.

(** The outcomes of comparing two doubles. *)
Lemma compare_cases a b :
  (is_nan a || is_nan b = true) \/
  (is_nan a || is_nan b = false /\
   ((a <? b) = true /\ (b <? a) = false \/
    (a <? b) = false /\ (b <? a) = true \/
    (a <? b) = false /\ (b <? a) = false /\
    (a = b \/ ∃ sa sb, Prim2SF a = S754_zero sa /\ Prim2SF b = S754_zero sb))).
Proof.
  rewrite !is_nan_spec, !ltb_spec. unfold SFltb.
  rewrite (SFcompare_swap (Prim2SF a) (Prim2SF b)).
  destruct (SFcompare (Prim2SF a) (Prim2SF b)) as [[| |]|] eqn:Hc.
  - right. split.
    + destruct (Prim2SF a), (Prim2SF b); try discriminate; reflexivity.
    + right. right. split; [reflexivity|]. split; [reflexivity|].
      destruct (SFcompare_Eq _ _ Hc) as [Heq|(sa & sb & Ha & Hb)].
      * left. apply Prim2SF_inj. exact Heq.
      * right. eauto.
  - right. split.
    + destruct (Prim2SF a), (Prim2SF b); try discriminate; reflexivity.
    + left. split; reflexivity.
  - right. split.
    + destruct (Prim2SF a), (Prim2SF b); try discriminate; reflexivity.
    + right. left. split; reflexivity.
  - left. destruct (Prim2SF a) as [s|s| |s m e]; [| |reflexivity|];
      (destruct (Prim2SF b) as [s'|s'| |s' m' e']; [| |reflexivity|]); cbn in Hc;
      try discriminate; try (destruct s; discriminate); try (destruct s'; discriminate).
Qed.

Lemma Math_min_comm a b : Double.Math_min a b = Double.Math_min b a.
Proof.
  unfold Double.Math_min. rewrite (orb_comm (is_nan b)).
  destruct (compare_cases a b) as [->|[-> Hcases]]; [reflexivity|].
  destruct Hcases as [[-> ->]|[[-> ->]|(-> & -> & Heq)]]; [reflexivity..|].
  destruct Heq as [->|(sa & sb & Ha & Hb)]; [destruct (Double.is_negative_zero b); reflexivity|].
  rewrite !is_negative_zero_spec, Ha, Hb.
  destruct sa, sb; try reflexivity; apply Prim2SF_inj; congruence.
Qed.

Lemma Math_max_comm a b : Double.Math_max a b = Double.Math_max b a.
Proof.
  unfold Double.Math_max. rewrite (orb_comm (is_nan b)).
  destruct (compare_cases a b) as [->|[-> Hcases]]; [reflexivity|].
  destruct Hcases as [[-> ->]|[[-> ->]|(-> & -> & Heq)]]; [reflexivity..|].
  destruct Heq as [->|(sa & sb & Ha & Hb)]; [destruct (Double.is_negative_zero b); reflexivity|].
  rewrite !is_negative_zero_spec, Ha, Hb.
  destruct sa, sb; try reflexivity; apply Prim2SF_inj; congruence.
Qed.

Lemma double_calculateOverlapArea_comm b1 b2 :
  Double.calculateOverlapArea b1 b2 = Double.calculateOverlapArea b2 b1.
Proof.
  unfold Double.calculateOverlapArea, Double.geb.
  rewrite (Math_min_comm (Double.Bounds.maxX b2)), (Math_max_comm (Double.Bounds.minX b2)),
    (Math_min_comm (Double.Bounds.maxY b2)), (Math_max_comm (Double.Bounds.minY b2)).
  destruct (Double.Bounds.maxX b1 <=? Double.Bounds.minX b2),
           (Double.Bounds.maxX b2 <=? Double.Bounds.minX b1),
           (Double.Bounds.maxY b1 <=? Double.Bounds.minY b2),
           (Double.Bounds.maxY b2 <=? Double.Bounds.minY b1); reflexivity.
Qed.

End Comparisons.

Section DoubleOrderOfKeys.
Context `{Double.MathLibrary}.
Local Open Scope float_scope.

Lemma breaks_comm inputProblem c1 c2 :
  Double.breaks inputProblem c1 c2 = Double.breaks inputProblem c2 c1.
Proof.
  unfold Double.breaks.
  destruct (Double.get _ c1), (Double.get _ c2); reflexivity.
Qed.

Lemma double_pushed_permutation inputProblem layout layout' c1 c2 :
  NoDup (Object_keys (Double.OutputLayout.chipPlacements layout)) →
  Double.OutputLayout.chipPlacements layout ≡ₚ Double.OutputLayout.chipPlacements layout' →
  Double.pushed inputProblem layout' c1 c2 = Double.pushed inputProblem layout c1 c2.
Proof.
  intros Hnd Hperm. unfold Double.pushed.
  rewrite !(prop_lookup_permutation _ _ _ Hnd Hperm). reflexivity.
Qed.

Lemma double_pushed_swap inputProblem layout c1 c2 a :
  Double.pushed inputProblem layout c1 c2
  = Some {| Double.Overlap.chip1 := c1; Double.Overlap.chip2 := c2;
            Double.Overlap.overlapArea := a |} →
  Double.pushed inputProblem layout c2 c1
  = Some {| Double.Overlap.chip1 := c2; Double.Overlap.chip2 := c1;
            Double.Overlap.overlapArea := a |}.
Proof.
  unfold Double.pushed.
  destruct (Double.InputProblem.chipMap inputProblem !! c1) as [chip1|]; [|discriminate].
  destruct (Double.InputProblem.chipMap inputProblem !! c2) as [chip2|]; [|discriminate].
  destruct (prop_lookup c1 _) as [p1|]; [|discriminate].
  destruct (prop_lookup c2 _) as [p2|]; [|discriminate].
  cbv zeta. rewrite (double_calculateOverlapArea_comm (Double.getRotatedBounds p2 _)).
  destruct (0 <? _); [|discriminate]. intros [= <-]. reflexivity.
Qed.

(** The positions of two keys of a layout in a layout with the same
    entries. *)
Lemma positions_permuted {V} (obj obj' : list (string * V)) i j c1 c2 :
  NoDup (Object_keys obj) → obj ≡ₚ obj' → (i < j)%nat →
  Object_keys obj !! i = Some c1 → Object_keys obj !! j = Some c2 →
  ∃ i' j', i' ≠ j' /\ Object_keys obj' !! i' = Some c1 /\ Object_keys obj' !! j' = Some c2.
Proof.
  intros Hnd Hperm Hlt Hi Hj.
  assert (c1 ≠ c2) as Hne.
  { intros ->. pose proof (NoDup_lookup _ _ _ _ Hnd Hi Hj). lia. }
  assert (Object_keys obj ≡ₚ Object_keys obj') as Hkeys.
  { unfold Object_keys. rewrite Hperm. reflexivity. }
  assert (c1 ∈ Object_keys obj') as H1.
  { rewrite <- Hkeys. eapply list_elem_of_lookup_2. exact Hi. }
  assert (c2 ∈ Object_keys obj') as H2.
  { rewrite <- Hkeys. eapply list_elem_of_lookup_2. exact Hj. }
  apply list_elem_of_lookup_1 in H1 as [i' Hi'].
  apply list_elem_of_lookup_1 in H2 as [j' Hj'].
  exists i', j'. split; [|auto]. intros ->. congruence.
Qed.

Lemma breaks_from_permutation inputProblem layout layout' :
  NoDup (Object_keys (Double.OutputLayout.chipPlacements layout)) →
  Double.OutputLayout.chipPlacements layout ≡ₚ Double.OutputLayout.chipPlacements layout' →
  Double.breaks_from inputProblem (Object_keys (Double.OutputLayout.chipPlacements layout))
  = true →
  Double.breaks_from inputProblem (Object_keys (Double.OutputLayout.chipPlacements layout'))
  = true.
Proof.
  intros Hnd Hperm Hb.
  apply breaks_from_pair in Hb as (i & j & c1 & c2 & Hlt & Hi & Hj & Hb).
  destruct (positions_permuted _ _ _ _ _ _ Hnd Hperm Hlt Hi Hj) as (i' & j' & Hne & Hi' & Hj').
  apply breaks_from_pair.
  destruct (lt_eq_lt_dec i' j') as [[Hlt'|Heq]|Hlt']; [|contradiction|].
  - exists i', j', c1, c2. auto.
  - exists j', i', c2, c1. rewrite breaks_comm. auto.
Qed.

Lemma double_reported_with_permutation inputProblem layout layout' c1 c2 a :
  NoDup (Object_keys (Double.OutputLayout.chipPlacements layout)) →
  Double.OutputLayout.chipPlacements layout ≡ₚ Double.OutputLayout.chipPlacements layout' →
  {| Double.Overlap.chip1 := c1; Double.Overlap.chip2 := c2;
     Double.Overlap.overlapArea := a |}
    ∈ Double.pushed_from inputProblem layout
        (Object_keys (Double.OutputLayout.chipPlacements layout)) →
  Double.reported_with
    (Double.pushed_from inputProblem layout'
       (Object_keys (Double.OutputLayout.chipPlacements layout'))) c1 c2 a.
Proof.
  intros Hnd Hperm Hin.
  apply elem_of_double_pushed_from in Hin as (i & j & d1 & d2 & Hlt & Hi & Hj & Hp).
  pose proof (double_pushed_pair _ _ _ _ _ Hp) as Hpair.
  unfold Double.pair_of in Hpair. cbn in Hpair. injection Hpair as <- <-.
  destruct (positions_permuted _ _ _ _ _ _ Hnd Hperm Hlt Hi Hj) as (i' & j' & Hne & Hi' & Hj').
  rewrite <- (double_pushed_permutation inputProblem layout layout' c1 c2 Hnd Hperm) in Hp.
  destruct (lt_eq_lt_dec i' j') as [[Hlt'|Heq]|Hlt']; [|contradiction|].
  - left. apply elem_of_double_pushed_from. exists i', j', c1, c2. auto.
  - right. apply elem_of_double_pushed_from. exists j', i', c2, c1.
    split; [exact Hlt'|]. split; [exact Hj'|]. split; [exact Hi'|].
    apply double_pushed_swap. exact Hp.
Qed.

(** X8.  What [checkForOverlaps] does on a layout does not depend on the
    order of the keys of the layout, up to the order inside each pair: on
    two layouts with the same entries, either it throws a [TypeError] on
    both, or it returns on both, and then with the same pairs and the same
    areas. *)
Theorem checkForOverlaps_key_order inputProblem layout layout' :
  NoDup (Object_keys (Double.OutputLayout.chipPlacements layout)) →
  Double.OutputLayout.chipPlacements layout ≡ₚ Double.OutputLayout.chipPlacements layout' →
  (Double.checkForOverlaps inputProblem layout = Throw TypeError /\
   Double.checkForOverlaps inputProblem layout' = Throw TypeError) \/
  ∃ overlaps overlaps',
    Double.checkForOverlaps inputProblem layout = Ok overlaps /\
    Double.checkForOverlaps inputProblem layout' = Ok overlaps' /\
    ∀ c1 c2 a, Double.reported_with overlaps c1 c2 a ↔
               Double.reported_with overlaps' c1 c2 a.
Proof.
  intros Hnd Hperm.
  assert (NoDup (Object_keys (Double.OutputLayout.chipPlacements layout'))) as Hnd'.
  { unfold Object_keys in *. rewrite <- Hperm. exact Hnd. }
  assert (∀ l l' c1 c2 a,
            NoDup (Object_keys (Double.OutputLayout.chipPlacements l)) →
            Double.OutputLayout.chipPlacements l ≡ₚ Double.OutputLayout.chipPlacements l' →
            Double.reported_with
              (Double.pushed_from inputProblem l
                 (Object_keys (Double.OutputLayout.chipPlacements l))) c1 c2 a →
            Double.reported_with
              (Double.pushed_from inputProblem l'
                 (Object_keys (Double.OutputLayout.chipPlacements l'))) c1 c2 a)
    as Hone.
  { intros l l' c1 c2 a Hl Hp [Hin|Hin].
    - eapply double_reported_with_permutation; eassumption.
    - destruct (double_reported_with_permutation inputProblem l l' c2 c1 a Hl Hp Hin);
        [right|left]; assumption. }
  rewrite !checkForOverlaps_outcome.
  destruct (Double.breaks_from inputProblem
              (Object_keys (Double.OutputLayout.chipPlacements layout))) eqn:Hb;
    destruct (Double.breaks_from inputProblem
                (Object_keys (Double.OutputLayout.chipPlacements layout'))) eqn:Hb'.
  - left. split; reflexivity.
  - rewrite (breaks_from_permutation inputProblem layout layout' Hnd Hperm Hb) in Hb'.
    discriminate.
  - symmetry in Hperm.
    rewrite (breaks_from_permutation inputProblem layout' layout Hnd' Hperm Hb') in Hb.
    discriminate.
  - right. eexists. eexists. split; [reflexivity|]. split; [reflexivity|].
    intros c1 c2 a. split.
    + apply Hone; assumption.
    + apply Hone; [assumption|symmetry; assumption].
Qed.

End DoubleOrderOfKeys.

(** * Further properties of the orchestrator *)

Section OneStep.
Context `{Collaborators}.
Implicit Types s : LayoutPipelineSolver.

(** X9.  Whatever the state, a call of [_step] that returns keeps or
    increments the index, constructs at most one solver and removes none,
    only adds to the history, never resets [solved] or [failed], and
    leaves the input problem, the connectivity map, the iteration counter
    and its bound as they are. *)
Theorem _step_moves_forward s s' :
  _step s = Ok s' →
  (currentPipelineStepIndex s' = currentPipelineStepIndex s \/
   currentPipelineStepIndex s' = S (currentPipelineStepIndex s)) /\
  (length (heap s') = length (heap s) \/ length (heap s') = S (length (heap s))) /\
  (∃ events, trace s' = trace s ++ events) /\
  (solved s = true → solved s' = true) /\
  (failed s = true → failed s' = true) /\
  inputProblem s' = inputProblem s /\
  pinIdToStronglyConnectedPins s' = pinIdToStronglyConnectedPins s /\
  iterations s' = iterations s /\
  MAX_ITERATIONS s' = MAX_ITERATIONS s.
Proof.
  intros Hstep. unfold _step in Hstep.
  destruct (pipelineDef !! currentPipelineStepIndex s) as [d|] eqn:Hd.
  - destruct (activeSubSolver s) as [l|] eqn:Ha.
    + destruct (deref s l) as [sub|] eqn:Hl; [|discriminate]. cbv zeta in Hstep.
      destruct (sub_solved (sub_step sub)).
      * unfold complete_phase in Hstep. fields.
        destruct (run_onSolved d _) as [s2|] eqn:Hhook; [|discriminate].
        fields. injection Hstep as <-.
        destruct (run_onSolved_frame _ _ _ _ Hd Hhook) as (cp & pp & ->). fields.
        rewrite length_insert.
        split; [right; reflexivity|]. split; [left; reflexivity|].
        split; [eexists; rewrite <- !app_assoc; reflexivity|]. auto 10.
      * destruct (sub_failed (sub_step sub)); injection Hstep as <-; fields;
          rewrite length_insert.
        { split; [left; reflexivity|]. split; [left; reflexivity|].
          split; [eexists; reflexivity|]. auto 10. }
        split; [left; reflexivity|]. split; [left; reflexivity|].
        split; [exists []; rewrite app_nil_r; reflexivity|]. auto 10.
    + injection Hstep as <-. unfold start_phase. fields. rewrite length_app. cbn [length].
      split; [left; reflexivity|]. split; [right; lia|].
      split; [eexists; rewrite <- !app_assoc; reflexivity|]. auto 10.
  - injection Hstep as <-. fields.
    split; [left; reflexivity|]. split; [left; reflexivity|].
    split; [exists []; rewrite app_nil_r; reflexivity|]. auto 10.
Qed.

End OneStep.

Section Linked.
Context `{Collaborators}.
Implicit Types s : LayoutPipelineSolver.
Variable problem : InputProblem.t.
Variable clk : nat → R.

Lemma linked_new : linked problem clk (new_LayoutPipelineSolver problem clk) NotStarted.
Proof.
  constructor; cbn; try reflexivity; try (split; [lia|congruence]); try discriminate.
Qed.

(** [linked] does not read [iterations], [error], the history, nor
    [failed] and [solved] except where it asks for them. *)
Lemma linked_frame s s' p :
  inputProblem s' = inputProblem s →
  pinIdToStronglyConnectedPins s' = pinIdToStronglyConnectedPins s →
  clock s' = clock s → currentPipelineStepIndex s' = currentPipelineStepIndex s →
  heap s' = heap s → ticks s' = ticks s → solvers s' = solvers s →
  activeSubSolver s' = activeSubSolver s →
  chipPartitions s' = chipPartitions s → packedPartitions s' = packedPartitions s →
  startTimeOfPhase s' = startTimeOfPhase s → endTimeOfPhase s' = endTimeOfPhase s →
  (solved s' = true → currentPipelineStepIndex s = length pipelineDef) →
  (failed s = true → failed s' = true) →
  linked problem clk s p → linked problem clk s' p.
Proof.
  intros E1 E2 E3 E4 E5 E6 E7 E8 E9 E10 E11 E12 Hs Hf [].
  constructor; rewrite ?E1, ?E2, ?E3, ?E4, ?E5, ?E6, ?E7, ?E8, ?E9, ?E10, ?E11, ?E12;
    auto.
Qed.

Lemma phase_name_other j k name d :
  phase_names !! j = Some name → pipelineDef !! k = Some d → j ≠ k →
  solverName d ≠ name.
Proof.
  intros Hj Hk Hne <-. apply Hne.
  eapply phase_names_inj; [exact Hj|]. apply phase_names_lookup. exact Hk.
Qed.

Lemma linked_start_phase s d :
  pipelineDef !! currentPipelineStepIndex s = Some d →
  solved s = false →
  linked problem clk s NotStarted → linked problem clk (start_phase d s) Started.
Proof.
  intros Hd Hns [Hpb Hpins Hclk [Hidx _] Hheap Hticks Hfields Hactive Hsolved
                 Hparts Hpacked Hstart Hend Hdone _].
  pose proof (lookup_lt_Some _ _ _ Hd) as Hlt.
  rewrite Nat.add_0_r in Hheap.
  unfold start_phase. fields. unfold loc in *.
  constructor; fields; rewrite ?length_app; cbn [length]; rewrite ?Hheap;
    try assumption.
  - split; [exact Hidx|auto].
  - lia.
  - rewrite Hticks, Hheap. lia.
  - intros j name Hj.
    destruct (decide (j = currentPipelineStepIndex s)) as [->|Hne].
    + rewrite (phase_names_lookup _ _ Hd) in Hj. injection Hj as <-.
      rewrite lookup_insert_eq, decide_True by lia. reflexivity.
    + rewrite lookup_insert_ne by (eapply phase_name_other; eassumption).
      rewrite (Hfields j name Hj), Hheap.
      destruct (decide (j < currentPipelineStepIndex s));
        [rewrite decide_True by lia|rewrite decide_False by lia]; reflexivity.
  - reflexivity.
  - intros j o Hj Ho. rewrite lookup_app_l in Ho by lia. eauto.
  - rewrite Hparts. destruct (decide (2 ≤ _)); [|reflexivity].
    rewrite lookup_app_l by lia. reflexivity.
  - rewrite Hpacked. destruct (decide (3 ≤ _)); [|reflexivity].
    rewrite lookup_app_l by lia. reflexivity.
  - intros j name Hj.
    destruct (decide (j = currentPipelineStepIndex s)) as [->|Hne].
    + rewrite (phase_names_lookup _ _ Hd) in Hj. injection Hj as <-.
      rewrite lookup_insert_eq, decide_True by lia.
      rewrite Hclk, Hticks, Hheap. repeat f_equal. lia.
    + rewrite lookup_insert_ne by (eapply phase_name_other; eassumption).
      rewrite (Hstart j name Hj), Hheap.
      destruct (decide (j < currentPipelineStepIndex s));
        [rewrite decide_True by lia|rewrite decide_False by lia]; reflexivity.
  - discriminate.
Qed.

Lemma linked_working s sub :
  linked problem clk s Started →
  linked problem clk
    (set_heap (<[currentPipelineStepIndex s := sub]> (heap s)) s) Started.
Proof.
  intros [Hpb Hpins Hclk Hidx Hheap Hticks Hfields Hactive Hsolved
          Hparts Hpacked Hstart Hend Hdone Hab].
  constructor; fields; rewrite ?length_insert; try assumption.
  - intros j o Hj Ho. rewrite list_lookup_insert_ne in Ho by lia. eauto.
  - rewrite Hparts. destruct (decide (2 ≤ _)); [|reflexivity].
    rewrite list_lookup_insert_ne by lia. reflexivity.
  - rewrite Hpacked. destruct (decide (3 ≤ _)); [|reflexivity].
    rewrite list_lookup_insert_ne by lia. reflexivity.
Qed.

Lemma linked_fail_phase s d sub :
  linked problem clk s Started → linked problem clk (fail_phase d sub s) Aborted.
Proof.
  intros [Hpb Hpins Hclk Hidx Hheap Hticks Hfields Hactive Hsolved
          Hparts Hpacked Hstart Hend Hdone Hab].
  constructor; fields; try assumption; try reflexivity.
  destruct Hidx as [? Hlt]. split; [assumption|]. intros _. apply Hlt. discriminate.
Qed.

Lemma linked_complete_phase s d sub s' :
  pipelineDef !! currentPipelineStepIndex s = Some d →
  solved s = false →
  heap s !! currentPipelineStepIndex s = Some sub → sub_solved sub = true →
  linked problem clk s Started →
  complete_phase d s = Ok s' → linked problem clk s' NotStarted.
Proof.
  intros Hd Hns Hsub Hsolved_sub
         [Hpb Hpins Hclk [Hidx Hlt] Hheap Hticks Hfields Hactive Hsolved
          Hparts Hpacked Hstart Hend Hdone _] Hrun.
  specialize (Hlt ltac:(discriminate)).
  unfold complete_phase in Hrun. fields.
  match type of Hrun with
  | context [run_onSolved d ?s1] =>
      destruct (run_onSolved_returns (currentPipelineStepIndex s) d s1
                  (currentPipelineStepIndex s) sub) as (s2 & Hhook & ->)
  end; [exact Hd| |exact Hsub|].
  { fields. unfold loc in *. rewrite (Hfields _ _ (phase_names_lookup _ _ Hd)).
    rewrite decide_True by lia. reflexivity. }
  rewrite Hhook in Hrun. fields. injection Hrun as <-. unfold loc in *.
  constructor; fields; try assumption.
  - split; [lia|]. intros Hc. exfalso. apply Hc. reflexivity.
  - lia.
  - rewrite Hticks. lia.
  - reflexivity.
  - intros j o Hj Ho.
    destruct (decide (j = currentPipelineStepIndex s)) as [->|Hne]; [congruence|].
    apply (Hsolved j o); [lia|exact Ho].
  - destruct (decide (currentPipelineStepIndex s = 1)) as [Hk|Hk].
    + rewrite Hk in *. rewrite Hsub, decide_True by lia. reflexivity.
    + rewrite Hparts. destruct (decide (2 ≤ currentPipelineStepIndex s)).
      * rewrite decide_True by lia. reflexivity.
      * rewrite decide_False by lia. reflexivity.
  - destruct (decide (currentPipelineStepIndex s = 2)) as [Hk|Hk].
    + rewrite Hk in *. rewrite Hsub, decide_True by lia. reflexivity.
    + rewrite Hpacked. destruct (decide (3 ≤ currentPipelineStepIndex s)).
      * rewrite decide_True by lia. reflexivity.
      * rewrite decide_False by lia. reflexivity.
  - intros j name Hj.
    destruct (decide (j = currentPipelineStepIndex s)) as [->|Hne].
    + rewrite (phase_names_lookup _ _ Hd) in Hj. injection Hj as <-.
      rewrite lookup_insert_eq, decide_True by lia.
      rewrite Hclk, Hticks, Hheap.
      replace (currentPipelineStepIndex s + (currentPipelineStepIndex s + 1))
        with (2 * currentPipelineStepIndex s + 1) by lia.
      reflexivity.
    + rewrite lookup_insert_ne by (eapply phase_name_other; eassumption).
      rewrite (Hend j name Hj).
      destruct (decide (j < currentPipelineStepIndex s));
        [rewrite decide_True by lia|rewrite decide_False by lia]; reflexivity.
  - intros Hs. congruence.
  - discriminate.
Qed.

Lemma _step_linked s s' p :
  linked problem clk s p → solved s = false → failed s = false →
  _step s = Ok s' → ∃ p', linked problem clk s' p'.
Proof.
  intros Hc Hns Hnf Hstep.
  destruct (pipelineDef !! currentPipelineStepIndex s) as [d|] eqn:Hd.
  - destruct (activeSubSolver s) as [l|] eqn:Ha.
    + assert (p = Started ∧ l = currentPipelineStepIndex s) as [-> ->].
      { pose proof (linked_active _ _ _ _ Hc) as Hact. rewrite Ha in Hact.
        destruct p; try discriminate. injection Hact as ->. auto. }
      destruct (deref s (currentPipelineStepIndex s)) as [sub|] eqn:Hl.
      * rewrite (_step_active s d _ sub Hd Ha Hl) in Hstep. cbv zeta in Hstep.
        pose proof (linked_working s (sub_step sub) Hc) as Hc'.
        destruct (sub_solved (sub_step sub)) eqn:Hsub.
        { exists NotStarted.
          apply (linked_complete_phase
                   (set_heap (<[currentPipelineStepIndex s:=sub_step sub]> (heap s)) s)
                   d (sub_step sub));
            [exact Hd|exact Hns| |exact Hsub|exact Hc'|exact Hstep].
          fields. apply list_lookup_insert_eq. eapply lookup_lt_Some. exact Hl. }
        destruct (sub_failed (sub_step sub)); injection Hstep as <-.
        { exists Aborted. apply linked_fail_phase. exact Hc'. }
        exists Started. exact Hc'.
      * unfold _step in Hstep. rewrite Hd, Ha, Hl in Hstep. discriminate.
    + rewrite (_step_idle s d Hd Ha) in Hstep. injection Hstep as <-.
      exists Started. apply linked_start_phase; [exact Hd|exact Hns|].
      destruct p; [exact Hc| |].
      * pose proof (linked_active _ _ _ _ Hc). congruence.
      * pose proof (linked_aborted _ _ _ _ Hc eq_refl). congruence.
  - unfold _step in Hstep. rewrite Hd in Hstep. injection Hstep as <-.
    apply lookup_ge_None_1 in Hd.
    pose proof (linked_index _ _ _ _ Hc) as [? _].
    exists p. revert Hc. apply linked_frame; auto.
    intros _. fields. lia.
Qed.

Lemma step_linked s s' p :
  linked problem clk s p → step s = Ok s' → ∃ p', linked problem clk s' p'.
Proof.
  intros Hc Hstep. unfold step in Hstep.
  destruct (solved s || failed s) eqn:Hstop.
  - injection Hstep as <-. eauto.
  - apply orb_false_iff in Hstop as [Hns Hnf].
    destruct (_step _) as [s1|] eqn:Hs1; [|discriminate]. fields.
    assert (∃ p', linked problem clk s1 p') as [p' Hc1].
    { apply (_step_linked (set_iterations (iterations s + 1) s) s1 p);
        [|exact Hns|exact Hnf|exact Hs1].
      pose proof (linked_done _ _ _ _ Hc) as Hdone.
      revert Hc. apply linked_frame; auto. }
    exists p'. destruct (negb _ && _); injection Hstep as <-; [|exact Hc1].
    pose proof (linked_done _ _ _ _ Hc1) as Hdone.
    revert Hc1. apply linked_frame; auto.
Qed.

Lemma steps_linked n s s' p :
  linked problem clk s p → steps n s = Ok s' → ∃ p', linked problem clk s' p'.
Proof.
  revert s p. induction n as [|n IH]; intros s p Hc Hrun.
  - injection Hrun as <-. eauto.
  - cbn [steps] in Hrun. destruct (step s) as [s1|] eqn:Hs1; [|discriminate].
    destruct (step_linked _ _ _ Hc Hs1) as [p1 Hc1]. eauto.
Qed.

Lemma reachable_linked n s :
  steps n (new_LayoutPipelineSolver problem clk) = Ok s →
  ∃ p, linked problem clk s p.
Proof. apply steps_linked with (p := NotStarted), linked_new. Qed.

End Linked.

Section Runs.
Context `{Collaborators}.
Implicit Types s : LayoutPipelineSolver.

Lemma linked_field problem clk s p j name :
  linked problem clk s p → phase_names !! j = Some name →
  deref_opt s (solvers s !! name) = heap s !! j.
Proof.
  intros Hc Hj. pose proof (linked_fields _ _ _ _ Hc j name Hj) as Hf.
  unfold loc in *. rewrite Hf.
  destruct (decide (j < length (heap s))) as [Hlt|Hge]; [reflexivity|].
  symmetry. apply lookup_ge_None_2. lia.
Qed.

Lemma linked_heap_bounds problem clk s p :
  linked problem clk s p →
  currentPipelineStepIndex s ≤ length (heap s) ≤ S (currentPipelineStepIndex s) ∧
  length (heap s) ≤ length pipelineDef.
Proof.
  intros Hc. pose proof (linked_heap _ _ _ _ Hc) as Hheap.
  pose proof (linked_index _ _ _ _ Hc) as [Hle Hlt].
  destruct p; [lia| |]; (specialize (Hlt ltac:(discriminate)); lia).
Qed.

(** X10.  In every state that calls of [step()] reach from a new
    orchestrator, one solver has been constructed for each phase before
    the current one, and at most one for the current phase, in the order
    of the table: the field named after phase [j] holds the [j]-th
    constructed solver, the fields of the phases that have not started
    are unset, the solvers of the phases before the current one are
    solved, and the active sub-solver, when there is one, is the solver of
    the current phase and the last one constructed. *)
Theorem solvers_of_a_run problem clk n s :
  steps n (new_LayoutPipelineSolver problem clk) = Ok s →
  currentPipelineStepIndex s ≤ length (heap s) ≤ S (currentPipelineStepIndex s) ∧
  length (heap s) ≤ length pipelineDef ∧
  (∀ j name, phase_names !! j = Some name →
     solvers s !! name = (if decide (j < length (heap s)) then Some j else None) ∧
     deref_opt s (solvers s !! name) = heap s !! j) ∧
  (∀ j o, j < currentPipelineStepIndex s → heap s !! j = Some o →
     sub_solved o = true) ∧
  (∀ l, activeSubSolver s = Some l →
     l = currentPipelineStepIndex s ∧ length (heap s) = S l ∧
     solvers s !! getCurrentPhase s = Some l).
Proof.
  intros Hrun. destruct (reachable_linked _ _ _ _ Hrun) as [p Hc].
  destruct (linked_heap_bounds _ _ _ _ Hc) as [Hb1 Hb2].
  split; [exact Hb1|]. split; [exact Hb2|]. split; [|split].
  - intros j name Hj. split; [apply (linked_fields _ _ _ _ Hc j name Hj)|].
    eapply linked_field; eassumption.
  - apply (linked_solved _ _ _ _ Hc).
  - intros l Hl. pose proof (linked_active _ _ _ _ Hc) as Hact. rewrite Hl in Hact.
    destruct p; try discriminate. injection Hact as ->.
    pose proof (linked_heap _ _ _ _ Hc) as Hheap. cbv iota in Hheap.
    pose proof (linked_index _ _ _ _ Hc) as [_ Hlt].
    specialize (Hlt ltac:(discriminate)).
    split; [reflexivity|]. split; [lia|].
    destruct (lookup_lt_is_Some_2 _ _ Hlt) as [d Hd].
    rewrite (getCurrentPhase_lookup s d Hd).
    pose proof (linked_fields _ _ _ _ Hc _ _ (phase_names_lookup _ _ Hd)) as Hf.
    unfold loc in *. rewrite Hf, decide_True by lia. reflexivity.
Qed.

(** X11.  In every state that calls of [step()] reach from a new
    orchestrator, the input problem and the connectivity map are those of
    the construction, [chipPartitions] is unset until the second phase is
    completed and from then on is what the solver of that phase exposes,
    and [packedPartitions] is unset until the third phase is completed and
    from then on is what the solver of that phase exposes. *)
Theorem handoff_of_a_run problem clk n s :
  steps n (new_LayoutPipelineSolver problem clk) = Ok s →
  inputProblem s = problem ∧
  pinIdToStronglyConnectedPins s = getPinIdToStronglyConnectedPinsObj problem ∧
  chipPartitions s
  = (if decide (2 ≤ currentPipelineStepIndex s)
     then deref_opt s (chipPartitionsSolver s) ≫= partitions else None) ∧
  packedPartitions s
  = (if decide (3 ≤ currentPipelineStepIndex s)
     then deref_opt s (packInnerPartitionsSolver s) ≫= sub_packedPartitions
     else None).
Proof.
  intros Hrun. destruct (reachable_linked _ _ _ _ Hrun) as [p Hc].
  split; [apply (linked_problem _ _ _ _ Hc)|].
  split; [apply (linked_pins _ _ _ _ Hc)|].
  unfold chipPartitionsSolver, packInnerPartitionsSolver.
  rewrite (linked_field _ _ _ _ 1 "chipPartitionsSolver" Hc eq_refl).
  rewrite (linked_field _ _ _ _ 2 "packInnerPartitionsSolver" Hc eq_refl).
  split; [apply (linked_partitions _ _ _ _ Hc)|apply (linked_packed _ _ _ _ Hc)].
Qed.

(** X12.  When calls of [step()] from a new orchestrator have reached a
    state without active sub-solver in which a phase remains, [_step]
    constructs one solver, which becomes the active one, and its arguments
    are: the input problem for the first phase; the input problem and the
    decoupling-capacitor groups of the solver of the first phase for the
    second; the partitions of the solver of the second phase and the
    connectivity map of the input problem for the third; the packed
    partitions of the solver of the third phase (or the empty list when it
    exposes none) and the input problem for the fourth. *)
Theorem solver_arguments problem clk n s :
  steps n (new_LayoutPipelineSolver problem clk) = Ok s →
  activeSubSolver s = None →
  currentPipelineStepIndex s < length pipelineDef →
  ∃ s', _step s = Ok s' ∧
    activeSubSolver s' = Some (length (heap s)) ∧
    heap s'
    = heap s ++
      [ match currentPipelineStepIndex s with
        | 0 => IdentifyDecouplingCapsSolver problem
        | 1 => ChipPartitionsSolver problem (heap s !! 0 ≫= outputDecouplingCapGroups)
        | 2 => PackInnerPartitionsSolver (heap s !! 1 ≫= partitions)
                 (getPinIdToStronglyConnectedPinsObj problem)
        | _ => PartitionPackingSolver
                 (default [] (heap s !! 2 ≫= sub_packedPartitions)) problem
        end ].
Proof.
  intros Hrun Ha Hlt. destruct (reachable_linked _ _ _ _ Hrun) as [p Hc].
  destruct (lookup_lt_is_Some_2 _ _ Hlt) as [d Hd].
  rewrite (_step_idle s d Hd Ha). eexists. split; [reflexivity|].
  unfold start_phase. fields. split; [reflexivity|]. f_equal. f_equal.
  pose proof (linked_problem _ _ _ _ Hc) as Hpb.
  pose proof (linked_pins _ _ _ _ Hc) as Hpins.
  pose proof (linked_partitions _ _ _ _ Hc) as Hparts.
  pose proof (linked_packed _ _ _ _ Hc) as Hpacked.
  pose proof (linked_field _ _ _ _ 0 "identifyDecouplingCapsSolver" Hc eq_refl) as H0.
  destruct (currentPipelineStepIndex s) as [|[|[|[|k]]]];
    cbn in Hd; try discriminate; injection Hd as <-; cbn [construct].
  - rewrite Hpb. reflexivity.
  - unfold identifyDecouplingCapsSolver. rewrite Hpb, H0. reflexivity.
  - rewrite Hpins, Hparts. reflexivity.
  - rewrite Hpb, Hpacked. reflexivity.
Qed.

Lemma linked_exhausted problem clk s p :
  linked problem clk s p → currentPipelineStepIndex s = length pipelineDef →
  p = NotStarted.
Proof.
  intros Hc Hk. pose proof (linked_index _ _ _ _ Hc) as [_ Hlt].
  destruct p; [reflexivity| |]; (specialize (Hlt ltac:(discriminate)); lia).
Qed.

(** X13.  When calls of [step()] from a new orchestrator have reached a
    solved state, the table is exhausted, no sub-solver is active, four
    solvers were constructed and all of them are solved, the clock was
    read eight times, and the history is the complete history of the four
    phases in the order of the table. *)
Theorem solved_run problem clk n s :
  steps n (new_LayoutPipelineSolver problem clk) = Ok s → solved s = true →
  currentPipelineStepIndex s = length pipelineDef ∧
  getCurrentPhase s = "none" ∧
  activeSubSolver s = None ∧
  length (heap s) = length pipelineDef ∧
  (∀ o, o ∈ heap s → sub_solved o = true) ∧
  ticks s = 2 * length pipelineDef ∧
  trace s = phase_names ≫= (fun name => events_of name (starting ++ completing)).
Proof.
  intros Hrun Hs. destruct (reachable_linked _ _ _ _ Hrun) as [p Hc].
  pose proof (linked_done _ _ _ _ Hc Hs) as Hk.
  pose proof (linked_exhausted _ _ _ _ Hc Hk) as ->.
  pose proof (linked_heap _ _ _ _ Hc) as Hheap. cbv iota in Hheap.
  split; [exact Hk|]. split; [apply getCurrentPhase_exhausted; lia|].
  split; [apply (linked_active _ _ _ _ Hc)|]. split; [lia|]. split; [|split].
  - intros o Ho. apply list_elem_of_lookup in Ho as [j Hj].
    apply (linked_solved _ _ _ _ Hc j o); [|exact Hj].
    apply lookup_lt_Some in Hj. lia.
  - rewrite (linked_ticks _ _ _ _ Hc). lia.
  - destruct (reachable_consistent _ _ _ _ Hrun) as [p' Hc'].
    assert (p' = NotStarted) as ->.
    { destruct p', Hc' as [_ _ Hp _]; [reflexivity| |].
      - destruct Hp as (_ & Hlt & _). lia.
      - destruct Hp as (_ & _ & Hlt). lia. }
    rewrite (consistent_trace _ _ Hc'), Hk. unfold history.
    cbn [partial_history events_of fmap list_fmap]. rewrite app_nil_r.
    rewrite firstn_all2; [reflexivity|]. unfold phase_names. rewrite length_fmap. lia.
Qed.

Section Previews.
Variable sub_preview : Solver → GraphicsObject.t.
Variable super_preview : LayoutPipelineSolver → GraphicsObject.t.


(** X15.  In every state that calls of [step()] reach from a new
    orchestrator, [preview()] returns the preview of the last constructed
    solver while a sub-solver is active, the visualization of the last
    constructed solver when none is active, whether that solver is solved
    or failed, and the preview of the base class when no solver was
    constructed yet. *)
Theorem preview_of_a_run problem clk n s :
  steps n (new_LayoutPipelineSolver problem clk) = Ok s →
  preview sub_preview super_preview s
  = match last (heap s) with
    | None => super_preview s
    | Some o =>
        match activeSubSolver s with
        | Some _ => sub_preview o
        | None => sub_visualize o
        end
    end.
Proof.
  intros Hrun. destruct (reachable_linked _ _ _ _ Hrun) as [p Hc].
  destruct (linked_heap_bounds _ _ _ _ Hc) as [_ Hlen].
  pose proof (linked_field _ _ _ _ 0 "identifyDecouplingCapsSolver" Hc eq_refl) as H0.
  pose proof (linked_field _ _ _ _ 1 "chipPartitionsSolver" Hc eq_refl) as H1.
  pose proof (linked_field _ _ _ _ 2 "packInnerPartitionsSolver" Hc eq_refl) as H2.
  pose proof (linked_field _ _ _ _ 3 "partitionPackingSolver" Hc eq_refl) as H3.
  pose proof (linked_active _ _ _ _ Hc) as Hact.
  pose proof (linked_heap _ _ _ _ Hc) as Hheap.
  unfold preview, or_else, partitionPackingSolver, packInnerPartitionsSolver,
    chipPartitionsSolver, identifyDecouplingCapsSolver.
  rewrite H0, H1, H2, H3, Hact.
  destruct p; cbn [deref_opt mbind option_bind]; unfold deref.
  - destruct (heap s) as [|o0 [|o1 [|o2 [|o3 [|o4 l]]]]]; cbn in Hlen; try lia; reflexivity.
  - rewrite last_lookup, Hheap.
    replace (Nat.pred (currentPipelineStepIndex s + 1))
      with (currentPipelineStepIndex s) by lia.
    destruct (lookup_lt_is_Some_2 (heap s) (currentPipelineStepIndex s)) as [o Ho];
      [lia|].
    unfold loc in *. rewrite Ho. reflexivity.
  - destruct (heap s) as [|o0 [|o1 [|o2 [|o3 [|o4 l]]]]]; cbn in Hlen; try lia; reflexivity.
Qed.

End Previews.

(** X16.  In every state that calls of [step()] reach from a new
    orchestrator, the start time of a phase whose solver was constructed
    is the clock reading number [2 j], where [j] is the index of the
    phase, its end time, once it is completed, is the next reading, and
    its time spent is then the difference of the two; the phases that
    have not started have no start time and the phases that are not
    completed have no end time.  The clock is read at no other time. *)
Theorem phase_times problem clk n s j name :
  steps n (new_LayoutPipelineSolver problem clk) = Ok s →
  phase_names !! j = Some name →
  startTimeOfPhase s !! name
  = (if decide (j < length (heap s)) then Some (Num (clk (2 * j))) else None) ∧
  endTimeOfPhase s !! name
  = (if decide (j < currentPipelineStepIndex s)
     then Some (Num (clk (2 * j + 1))) else None) ∧
  (j < currentPipelineStepIndex s →
   timeSpentOnPhase s !! name = Some (Num (clk (2 * j + 1) - clk (2 * j)))) ∧
  ticks s = currentPipelineStepIndex s + length (heap s).
Proof.
  intros Hrun Hj. destruct (reachable_linked _ _ _ _ Hrun) as [p Hc].
  pose proof (linked_start _ _ _ _ Hc j name Hj) as Hstart.
  pose proof (linked_end _ _ _ _ Hc j name Hj) as Hend.
  split; [exact Hstart|]. split; [exact Hend|].
  split; [|apply (linked_ticks _ _ _ _ Hc)].
  intros Hlt. destruct (reachable_consistent _ _ _ _ Hrun) as [p' Hc'].
  destruct (consistent_times _ _ Hc' j name Hj Hlt) as (t0 & t1 & Ht0 & Ht1 & ->).
  destruct (linked_heap_bounds _ _ _ _ Hc) as [[Hb _] _].
  rewrite decide_True in Hstart by lia. rewrite decide_True in Hend by lia.
  rewrite Hstart in Ht0. rewrite Hend in Ht1.
  injection Ht0 as <-. injection Ht1 as <-. reflexivity.
Qed.


End Runs.

Section MoreRuns.
Context `{Collaborators}.
Implicit Types s : LayoutPipelineSolver.

Lemma linked_available_viz problem clk s p :
  linked problem clk s p →
  omap (fun viz => viz) (available_viz s)
  = visualizeBasicLayout problem :: (sub_visualize <$> heap s).
Proof.
  intros Hc. destruct (linked_heap_bounds _ _ _ _ Hc) as [_ Hlen].
  pose proof (linked_field _ _ _ _ 0 "identifyDecouplingCapsSolver" Hc eq_refl) as H0.
  pose proof (linked_field _ _ _ _ 1 "chipPartitionsSolver" Hc eq_refl) as H1.
  pose proof (linked_field _ _ _ _ 2 "packInnerPartitionsSolver" Hc eq_refl) as H2.
  pose proof (linked_field _ _ _ _ 3 "partitionPackingSolver" Hc eq_refl) as H3.
  unfold available_viz, partitionPackingSolver, packInnerPartitionsSolver,
    chipPartitionsSolver, identifyDecouplingCapsSolver.
  rewrite H0, H1, H2, H3, (linked_problem _ _ _ _ Hc).
  destruct (heap s) as [|o0 [|o1 [|o2 [|o3 [|o4 l]]]]]; cbn in Hlen; try lia; reflexivity.
Qed.

(** X18.  In every state that calls of [step()] reach from a new
    orchestrator, the visualizations that the fallback of [visualize()]
    composes are that of the input problem followed by those of the
    constructed solvers in the order of the table, so that the primitives
    of the composition are those of the input problem tagged with 0 and
    those of the solver of phase [j] tagged with [j + 1]. *)
Theorem fallback_of_a_run problem clk n s :
  steps n (new_LayoutPipelineSolver problem clk) = Ok s →
  omap (fun viz => viz) (available_viz s)
  = visualizeBasicLayout problem :: (sub_visualize <$> heap s) ∧
  ∀ p, p ∈ all_primitives (visualize_fallback s) ↔
    (∃ q, q ∈ all_primitives (visualizeBasicLayout problem) ∧ p = tagged 0 q) ∨
    (∃ j name o q,
       phase_names !! j = Some name ∧
       deref_opt s (solvers s !! name) = Some o ∧
       q ∈ all_primitives (sub_visualize o) ∧ p = tagged (S j) q).
Proof.
  intros Hrun. destruct (reachable_linked _ _ _ _ Hrun) as [p0 Hc].
  pose proof (linked_available_viz _ _ _ _ Hc) as Hviz.
  destruct (linked_heap_bounds _ _ _ _ Hc) as [_ Hlen].
  split; [exact Hviz|]. intros p.
  unfold visualize_fallback. cbv zeta. rewrite Hviz, fallback_primitives. split.
  - intros (i & v & q & Hv & Hq & ->). destruct i as [|j].
    + injection Hv as <-. left. eauto.
    + right. cbn [lookup list_lookup] in Hv.
      change ((sub_visualize <$> heap s) !! j = Some v) in Hv.
      rewrite list_lookup_fmap in Hv.
      destruct (heap s !! j) as [o|] eqn:Ho; [|discriminate]. injection Hv as <-.
      destruct (lookup_lt_is_Some_2 phase_names j) as [name Hname].
      { apply lookup_lt_Some in Ho. unfold phase_names. rewrite length_fmap. lia. }
      exists j, name, o, q. rewrite (linked_field _ _ _ _ j name Hc Hname). auto.
  - intros [(q & Hq & ->)|(j & name & o & q & Hname & Ho & Hq & ->)].
    + exists 0, (visualizeBasicLayout problem), q. auto.
    + rewrite (linked_field _ _ _ _ j name Hc Hname) in Ho.
      exists (S j), (sub_visualize o), q. split; [|auto].
      change ((sub_visualize <$> heap s) !! j = Some (sub_visualize o)).
      rewrite list_lookup_fmap, Ho. reflexivity.
Qed.

(** *** The loop of [solveUntilPhase] *)

Lemma solveUntilPhase_steps fuel phase s s' :
  solveUntilPhase fuel phase s = Some (Ok s') →
  ∃ n, n ≤ fuel ∧ steps n s = Ok s' ∧ getCurrentPhase s' = phase ∧
       ∀ m sm, m < n → steps m s = Ok sm → getCurrentPhase sm ≠ phase.
Proof.
  revert s. induction fuel as [|fuel IH]; intros s Hrun.
  - cbn [solveUntilPhase] in Hrun.
    destruct (decide (getCurrentPhase s = phase)) as [Hp|Hp]; [|discriminate].
    injection Hrun as <-. exists 0. split; [lia|]. split; [reflexivity|].
    split; [exact Hp|]. intros m sm Hm. lia.
  - cbn [solveUntilPhase] in Hrun.
    destruct (decide (getCurrentPhase s = phase)) as [Hp|Hp].
    + injection Hrun as <-. exists 0. split; [lia|]. split; [reflexivity|].
      split; [exact Hp|]. intros m sm Hm. lia.
    + destruct (step s) as [s1|e] eqn:Hs1; [|discriminate].
      destruct (IH s1 Hrun) as (n & Hn & Hsteps & Hphase & Hfirst).
      exists (S n). split; [lia|]. split; [cbn [steps]; rewrite Hs1; exact Hsteps|].
      split; [exact Hphase|]. intros m sm Hm Hsm. destruct m as [|m].
      * injection Hsm as <-. exact Hp.
      * cbn [steps] in Hsm. rewrite Hs1 in Hsm. apply (Hfirst m sm); [lia|exact Hsm].
Qed.

(** X19.  [solveUntilPhase(phase)] returns the first state, in the
    sequence of states that calls of [step()] produce, whose current phase
    is [phase]: it returns a state within [fuel] iterations exactly when
    that state is reached by some number [n <= fuel] of calls of [step()],
    has [phase] as its current phase, and no state reached by fewer calls
    has. *)
Theorem solveUntilPhase_first fuel phase s s' :
  solveUntilPhase fuel phase s = Some (Ok s') ↔
  ∃ n, n ≤ fuel ∧ steps n s = Ok s' ∧ getCurrentPhase s' = phase ∧
       ∀ m sm, m < n → steps m s = Ok sm → getCurrentPhase sm ≠ phase.
Proof.
  split; [apply solveUntilPhase_steps|].
  intros (n & Hn & Hsteps & Hphase & Hfirst).
  revert s n Hn Hsteps Hfirst. induction fuel as [|fuel IH]; intros s n Hn Hsteps Hfirst.
  - assert (n = 0) as -> by lia. injection Hsteps as <-.
    cbn [solveUntilPhase]. rewrite decide_True by exact Hphase. reflexivity.
  - destruct n as [|n].
    + injection Hsteps as <-.
      cbn [solveUntilPhase]. rewrite decide_True by exact Hphase. reflexivity.
    + cbn [solveUntilPhase].
      rewrite decide_False by (apply (Hfirst 0 s); [lia|reflexivity]).
      cbn [steps] in Hsteps. destruct (step s) as [s1|e] eqn:Hs1; [|discriminate].
      apply (IH s1 n); [lia|exact Hsteps|].
      intros m sm Hm Hsm. apply (Hfirst (S m) sm); [lia|].
      cbn [steps]. rewrite Hs1. exact Hsm.
Qed.

End MoreRuns.

Section PhaseBoundaries.
Context `{Collaborators}.
Implicit Types s : LayoutPipelineSolver.

Lemma complete_phase_frame d s s' :
  pipelineDef !! currentPipelineStepIndex s = Some d →
  complete_phase d s = Ok s' →
  solved s' = solved s ∧ failed s' = failed s ∧ iterations s' = iterations s ∧
  MAX_ITERATIONS s' = MAX_ITERATIONS s ∧
  currentPipelineStepIndex s' = S (currentPipelineStepIndex s).
Proof.
  intros Hd Hrun. unfold complete_phase in Hrun. fields.
  destruct (run_onSolved d _) as [s2|] eqn:Hhook; [|discriminate].
  fields. injection Hrun as <-.
  destruct (run_onSolved_frame _ _ _ _ Hd Hhook) as (cp & pp & ->). fields. auto.
Qed.

Lemma complete_phase_returns d s l sub :
  pipelineDef !! currentPipelineStepIndex s = Some d →
  solvers s !! solverName d = Some l → heap s !! l = Some sub →
  ∃ s', complete_phase d s = Ok s'.
Proof.
  intros Hd Hslot Hl. unfold complete_phase. fields.
  match goal with
  | |- context [run_onSolved d ?s1] =>
      destruct (run_onSolved_returns (currentPipelineStepIndex s) d s1 l sub)
        as (s2 & -> & ->)
  end; [exact Hd|exact Hslot|exact Hl|].
  fields. eexists. reflexivity.
Qed.

Lemma steps_add a b s s1 s2 :
  steps a s = Ok s1 → steps b s1 = Ok s2 → steps (a + b) s = Ok s2.
Proof.
  revert s. induction a as [|a IH]; intros s Ha Hb.
  - injection Ha as <-. exact Hb.
  - cbn [steps Nat.add] in *. destruct (step s) as [s'|]; [|discriminate].
    cbn [mbind result_bind] in *. eauto.
Qed.

Lemma linked_iterations problem clk s p v :
  linked problem clk s p → linked problem clk (set_iterations v s) p.
Proof.
  intros Hc. pose proof (linked_done _ _ _ _ Hc) as Hdone.
  revert Hc. apply linked_frame; auto.
Qed.

Lemma linked_active_solver problem clk s :
  linked problem clk s Started →
  ∃ d sub, pipelineDef !! currentPipelineStepIndex s = Some d ∧
           activeSubSolver s = Some (currentPipelineStepIndex s) ∧
           solvers s !! solverName d = Some (currentPipelineStepIndex s) ∧
           heap s !! currentPipelineStepIndex s = Some sub.
Proof.
  intros Hc. pose proof (linked_index _ _ _ _ Hc) as [_ Hlt].
  specialize (Hlt ltac:(discriminate)).
  pose proof (linked_heap _ _ _ _ Hc) as Hheap. cbv iota in Hheap.
  destruct (lookup_lt_is_Some_2 _ _ Hlt) as [d Hd].
  destruct (lookup_lt_is_Some_2 (heap s) (currentPipelineStepIndex s)) as [sub Hsub];
    [lia|].
  exists d, sub. split; [exact Hd|]. split; [apply (linked_active _ _ _ _ Hc)|].
  split; [|exact Hsub].
  pose proof (linked_fields _ _ _ _ Hc _ _ (phase_names_lookup _ _ Hd)) as Hf.
  unfold loc in *. rewrite Hf, decide_True by lia. reflexivity.
Qed.

(** A call of [step()] that changes the index completes a phase. *)
Lemma step_index_change problem clk s s' p :
  linked problem clk s p → step s = Ok s' →
  currentPipelineStepIndex s' ≠ currentPipelineStepIndex s →
  linked problem clk s' NotStarted ∧ solved s' = false.
Proof.
  intros Hc Hstep Hne. unfold step in Hstep.
  destruct (solved s || failed s) eqn:Hstop.
  { injection Hstep as <-. congruence. }
  apply orb_false_iff in Hstop as [Hns Hnf].
  destruct (_step _) as [s1|] eqn:Hs1; [|discriminate]. cbn [mbind result_bind] in Hstep.
  assert (linked problem clk s1 NotStarted ∧ solved s1 = false) as [Hc1 Hns1].
  { assert (currentPipelineStepIndex s1 ≠ currentPipelineStepIndex s) as Hne1.
    { destruct (negb _ && _); injection Hstep as <-; exact Hne. }
    clear Hstep Hne.
    pose proof (linked_iterations _ _ _ _ (iterations s + 1)%Z Hc) as Hc0.
    set (s0 := set_iterations (iterations s + 1) s) in *.
    change (currentPipelineStepIndex s) with (currentPipelineStepIndex s0) in Hne1.
    change (solved s) with (solved s0) in Hns.
    clearbody s0.
    destruct (pipelineDef !! currentPipelineStepIndex s0) as [d|] eqn:Hd.
    - destruct (activeSubSolver s0) as [l|] eqn:Ha.
      + assert (p = Started ∧ l = currentPipelineStepIndex s0) as [-> ->].
        { pose proof (linked_active _ _ _ _ Hc0) as Hact. rewrite Ha in Hact.
          destruct p; try discriminate. injection Hact as ->. auto. }
        destruct (linked_active_solver _ _ _ Hc0) as (d' & sub & Hd' & _ & _ & Hsub).
        rewrite (_step_active s0 d _ sub Hd Ha Hsub) in Hs1. cbv zeta in Hs1.
        pose proof (linked_working _ _ s0 (sub_step sub) Hc0) as Hcw.
        destruct (sub_solved (sub_step sub)) eqn:Hsolved.
        * destruct (complete_phase_frame d
                      (set_heap (<[currentPipelineStepIndex s0:=sub_step sub]> (heap s0)) s0)
                      s1 Hd Hs1) as (Hso & _).
          split; [|rewrite Hso; exact Hns].
          apply (linked_complete_phase _ _
                   (set_heap (<[currentPipelineStepIndex s0:=sub_step sub]> (heap s0)) s0)
                   d (sub_step sub));
            [exact Hd|exact Hns| |exact Hsolved|exact Hcw|exact Hs1].
          fields. apply list_lookup_insert_eq. eapply lookup_lt_Some. exact Hsub.
        * destruct (sub_failed (sub_step sub)); injection Hs1 as <-;
            exfalso; apply Hne1; reflexivity.
      + rewrite (_step_idle s0 d Hd Ha) in Hs1. injection Hs1 as <-.
        exfalso. apply Hne1. reflexivity.
    - unfold _step in Hs1. rewrite Hd in Hs1. injection Hs1 as <-.
      exfalso. apply Hne1. reflexivity. }
  destruct (negb _ && _); injection Hstep as <-; [|auto].
  split; [|exact Hns1]. pose proof (linked_done _ _ _ _ Hc1) as Hdone.
  revert Hc1. apply linked_frame; auto.
Qed.

(** X20.  When [solveUntilPhase(phase)] returns on a new orchestrator,
    [phase] is the current phase and nothing of it has happened yet: no
    sub-solver is active and no solver was constructed for it.  In
    particular the orchestrator is not solved, also when the phase asked
    for is "none", and [getOutputLayout()] throws the incompleteness
    error. *)
Theorem solveUntilPhase_stops_before_construction problem clk fuel phase s :
  solveUntilPhase fuel phase (new_LayoutPipelineSolver problem clk) = Some (Ok s) →
  getCurrentPhase s = phase ∧
  activeSubSolver s = None ∧
  length (heap s) = currentPipelineStepIndex s ∧
  solved s = false ∧
  getOutputLayout s = Throw IncompleteError.
Proof.
  intros Hrun. apply solveUntilPhase_steps in Hrun as (n & _ & Hsteps & Hphase & Hfirst).
  assert (linked problem clk s NotStarted ∧ solved s = false) as [Hc Hns].
  { destruct n as [|m].
    - injection Hsteps as <-. split; [apply linked_new|reflexivity].
    - apply steps_snoc in Hsteps as (sm & Hsm & Hstep).
      destruct (reachable_linked _ _ _ _ Hsm) as [p Hcm].
      apply (step_index_change _ _ sm s p Hcm Hstep).
      intros Hk. apply (Hfirst m sm ltac:(lia) Hsm).
      rewrite <- Hphase. symmetry. apply getCurrentPhase_index. exact Hk. }
  split; [exact Hphase|]. split; [apply (linked_active _ _ _ _ Hc)|].
  split; [rewrite (linked_heap _ _ _ _ Hc); lia|]. split; [exact Hns|].
  unfold getOutputLayout. rewrite Hns. reflexivity.
Qed.

End PhaseBoundaries.

Section Liveness.
Context `{Collaborators}.
Implicit Types s : LayoutPipelineSolver.
Variable problem : InputProblem.t.
Variable clk : nat → R.

Lemma step_run s s1 :
  solved s = false → failed s = false →
  _step (set_iterations (iterations s + 1) s) = Ok s1 →
  (solved s1 = true ∨ (iterations s1 ≤ MAX_ITERATIONS s1)%Z) →
  step s = Ok s1.
Proof.
  intros Hns Hnf Hs1 Hlimit. unfold step. rewrite Hns, Hnf, Hs1.
  cbn [orb mbind result_bind].
  destruct Hlimit as [->|Hle]; [reflexivity|].
  rewrite bool_decide_eq_false_2 by lia. rewrite andb_false_r. reflexivity.
Qed.

Lemma working_phase m : ∀ s sub,
  linked problem clk s Started → solved s = false → failed s = false →
  heap s !! currentPipelineStepIndex s = Some sub → solves_in m sub →
  (iterations s + Z.of_nat (S m) ≤ MAX_ITERATIONS s)%Z →
  ∃ s', steps (S m) s = Ok s' ∧ linked problem clk s' NotStarted ∧
        solved s' = false ∧ failed s' = false ∧
        currentPipelineStepIndex s' = S (currentPipelineStepIndex s) ∧
        iterations s' = (iterations s + Z.of_nat (S m))%Z ∧
        MAX_ITERATIONS s' = MAX_ITERATIONS s.
Proof.
  induction m as [|m IH]; intros s sub Hc Hns Hnf Hsub Hm Hlimit.
  - cbn [solves_in] in Hm.
    pose proof (linked_iterations _ _ _ _ (iterations s + 1)%Z Hc) as Hc0.
    destruct (linked_active_solver _ _ _ Hc0) as (d & sub' & Hd & Ha & Hslot & Hsub').
    assert (sub' = sub) as -> by (revert Hsub'; fields; congruence).
    pose proof (_step_active _ d _ sub Hd Ha Hsub') as Hstep.
    cbv zeta in Hstep. rewrite Hm in Hstep.
    pose proof (linked_working _ _ _ (sub_step sub) Hc0) as Hcw.
    match type of Hstep with
    | _ = complete_phase d ?sw =>
        destruct (complete_phase_returns d sw (currentPipelineStepIndex s) (sub_step sub))
          as [s' Hs'];
          [exact Hd|exact Hslot| |];
          [fields; apply list_lookup_insert_eq; eapply lookup_lt_Some; exact Hsub|];
        destruct (complete_phase_frame d sw s' Hd Hs') as (Hso & Hfa & Hit & Hmax & Hidx);
        pose proof (linked_complete_phase _ _ sw d (sub_step sub) s' Hd Hns
                      ltac:(fields; apply list_lookup_insert_eq;
                            eapply lookup_lt_Some; exact Hsub)
                      Hm Hcw Hs') as Hc'
    end.
    rewrite Hs' in Hstep. revert Hso Hfa Hit Hmax Hidx. fields.
    intros Hso Hfa Hit Hmax Hidx.
    exists s'. split.
    { cbn [steps]. rewrite (step_run s s' Hns Hnf Hstep); [reflexivity|].
      right. rewrite Hit, Hmax. lia. }
    split; [exact Hc'|]. split; [congruence|]. split; [congruence|].
    split; [exact Hidx|]. split; [rewrite Hit; lia|exact Hmax].
  - cbn [solves_in] in Hm. destruct Hm as (Hnsolved & Hnfailed & Hm).
    pose proof (linked_iterations _ _ _ _ (iterations s + 1)%Z Hc) as Hc0.
    destruct (linked_active_solver _ _ _ Hc0) as (d & sub' & Hd & Ha & Hslot & Hsub').
    assert (sub' = sub) as -> by (revert Hsub'; fields; congruence).
    pose proof (_step_active _ d _ sub Hd Ha Hsub') as Hstep.
    cbv zeta in Hstep. rewrite Hnsolved, Hnfailed in Hstep.
    pose proof (linked_working _ _ _ (sub_step sub) Hc0) as Hcw.
    match type of Hstep with
    | _ = Ok ?sw =>
        destruct (IH sw (sub_step sub)) as (s' & Hs' & Hc' & Hso & Hfa & Hidx & Hit & Hmax);
          [exact Hcw|exact Hns|exact Hnf
          |fields; apply list_lookup_insert_eq; eapply lookup_lt_Some; exact Hsub
          |exact Hm
          |fields; lia|]
    end.
    revert Hs' Hidx Hit Hmax. fields. intros Hs' Hidx Hit Hmax.
    exists s'. split.
    { change (steps (S (S m)) s) with (s1 ← step s; steps (S m) s1).
      rewrite (step_run s _ Hns Hnf Hstep); [exact Hs'|]. right. fields. lia. }
    split; [exact Hc'|]. split; [exact Hso|]. split; [exact Hfa|].
    split; [exact Hidx|]. split; [rewrite Hit; lia|exact Hmax].
Qed.

Lemma start_of_phase s d :
  linked problem clk s NotStarted → solved s = false → failed s = false →
  pipelineDef !! currentPipelineStepIndex s = Some d →
  (iterations s + 1 ≤ MAX_ITERATIONS s)%Z →
  ∃ s', step s = Ok s' ∧ linked problem clk s' Started ∧
        solved s' = false ∧ failed s' = false ∧
        currentPipelineStepIndex s' = currentPipelineStepIndex s ∧
        iterations s' = (iterations s + 1)%Z ∧
        MAX_ITERATIONS s' = MAX_ITERATIONS s ∧
        heap s' !! currentPipelineStepIndex s
        = Some (construct d (set_iterations (iterations s + 1) s)).
Proof.
  intros Hc Hns Hnf Hd Hlimit.
  pose proof (linked_iterations _ _ _ _ (iterations s + 1)%Z Hc) as Hc0.
  pose proof (linked_active _ _ _ _ Hc0) as Ha. cbv iota in Ha.
  pose proof (linked_heap _ _ _ _ Hc) as Hheap. cbv iota in Hheap.
  pose proof (_step_idle (set_iterations (iterations s + 1) s) d Hd Ha) as Hstep.
  pose proof (linked_start_phase _ _ (set_iterations (iterations s + 1) s) d Hd Hns Hc0)
    as Hc'.
  eexists. split; [apply (step_run s _ Hns Hnf Hstep)|].
  { right. unfold start_phase. fields. lia. }
  split; [exact Hc'|]. unfold start_phase. fields.
  split; [exact Hns|]. split; [exact Hnf|]. split; [reflexivity|].
  split; [reflexivity|]. split; [reflexivity|].
  rewrite lookup_app_r by lia.
  replace (currentPipelineStepIndex s - length (heap s)) with 0 by lia. reflexivity.
Qed.

Lemma phase_completes bound s :
  prompt bound → linked problem clk s NotStarted →
  solved s = false → failed s = false →
  currentPipelineStepIndex s < length pipelineDef →
  (iterations s + Z.of_nat (bound + 1) ≤ MAX_ITERATIONS s)%Z →
  ∃ m s', m ≤ bound + 1 ∧ steps m s = Ok s' ∧ linked problem clk s' NotStarted ∧
          solved s' = false ∧ failed s' = false ∧
          currentPipelineStepIndex s' = S (currentPipelineStepIndex s) ∧
          iterations s' = (iterations s + Z.of_nat m)%Z ∧
          MAX_ITERATIONS s' = MAX_ITERATIONS s.
Proof.
  intros Hprompt Hc Hns Hnf Hlt Hlimit.
  destruct (lookup_lt_is_Some_2 _ _ Hlt) as [d Hd].
  destruct (Hprompt _ d (set_iterations (iterations s + 1) s) Hd) as (n & Hn & Hsolves).
  destruct (start_of_phase s d Hc Hns Hnf Hd ltac:(lia))
    as (s1 & Hstep & Hc1 & Hns1 & Hnf1 & Hidx1 & Hit1 & Hmax1 & Hsub).
  rewrite <- Hidx1 in Hsub.
  destruct (working_phase n s1 _ Hc1 Hns1 Hnf1 Hsub Hsolves ltac:(lia))
    as (s' & Hs' & Hc' & Hso & Hfa & Hidx & Hit & Hmax).
  exists (S (S n)), s'. split; [lia|]. split.
  { change (steps (S (S n)) s) with (s1 ← step s; steps (S n) s1).
    rewrite Hstep. exact Hs'. }
  split; [exact Hc'|]. split; [exact Hso|]. split; [exact Hfa|].
  split; [congruence|]. split; [lia|congruence].
Qed.

Lemma phases_complete bound r : ∀ s,
  prompt bound → linked problem clk s NotStarted →
  solved s = false → failed s = false →
  currentPipelineStepIndex s + r = length pipelineDef →
  (iterations s + Z.of_nat (r * (bound + 1)) ≤ MAX_ITERATIONS s)%Z →
  ∃ m s', m ≤ r * (bound + 1) ∧ steps m s = Ok s' ∧
          linked problem clk s' NotStarted ∧
          solved s' = false ∧ failed s' = false ∧
          currentPipelineStepIndex s' = length pipelineDef.
Proof.
  induction r as [|r IH]; intros s Hprompt Hc Hns Hnf Hk Hlimit.
  - exists 0, s. split; [lia|]. split; [reflexivity|]. split; [exact Hc|].
    split; [exact Hns|]. split; [exact Hnf|]. lia.
  - destruct (phase_completes bound s Hprompt Hc Hns Hnf ltac:(lia) ltac:(lia))
      as (m1 & s1 & Hm1 & Hs1 & Hc1 & Hns1 & Hnf1 & Hidx1 & Hit1 & Hmax1).
    destruct (IH s1 Hprompt Hc1 Hns1 Hnf1 ltac:(lia) ltac:(lia))
      as (m2 & s2 & Hm2 & Hs2 & Hrest).
    exists (m1 + m2), s2. split; [lia|]. split; [|exact Hrest].
    eapply steps_add; eassumption.
Qed.

Lemma final_step s :
  solved s = false → failed s = false →
  currentPipelineStepIndex s = length pipelineDef →
  ∃ s', step s = Ok s' ∧ solved s' = true ∧ failed s' = false.
Proof.
  intros Hns Hnf Hk. eexists. split; [apply (step_run s _ Hns Hnf)|].
  - apply _step_exhausted. fields. lia.
  - left. reflexivity.
  - fields. auto.
Qed.

End Liveness.

Section Termination.
Context `{Collaborators}.
Implicit Types s : LayoutPipelineSolver.

(** X21.  When every solver that the table constructs is solved within
    [bound] of its steps, whatever its arguments, and four phases of
    [bound + 1] iterations fit in the iteration bound of the constructor,
    calls of [step()] solve a new orchestrator, without failure, within
    [4 * (bound + 1) + 1] calls. *)
Theorem prompt_run_is_solved problem clk bound :
  prompt bound → (4 * (Z.of_nat bound + 1) ≤ 1000000)%Z →
  ∃ n s, n ≤ 4 * (bound + 1) + 1 ∧
         steps n (new_LayoutPipelineSolver problem clk) = Ok s ∧
         solved s = true ∧ failed s = false.
Proof.
  intros Hprompt Hbound.
  destruct (phases_complete problem clk bound 4 (new_LayoutPipelineSolver problem clk)
              Hprompt (linked_new problem clk) eq_refl eq_refl eq_refl)
    as (m & s4 & Hm & Hs4 & Hc4 & Hns4 & Hnf4 & Hidx4).
  { cbn [iterations MAX_ITERATIONS new_LayoutPipelineSolver]. lia. }
  destruct (final_step s4 Hns4 Hnf4 Hidx4) as (s' & Hstep & Hsolved & Hnfailed).
  exists (m + 1), s'. split; [lia|]. split; [|auto].
  apply (steps_add m 1 _ s4 s' Hs4). cbn [steps]. rewrite Hstep. reflexivity.
Qed.

Lemma _step_index s s' :
  _step s = Ok s' →
  currentPipelineStepIndex s' = currentPipelineStepIndex s ∨
  currentPipelineStepIndex s' = S (currentPipelineStepIndex s).
Proof.
  intros Hstep. unfold _step in Hstep.
  destruct (pipelineDef !! currentPipelineStepIndex s) as [d|] eqn:Hd.
  - destruct (activeSubSolver s) as [l|].
    + destruct (deref s l) as [sub|]; [|discriminate]. cbv zeta in Hstep.
      destruct (sub_solved (sub_step sub)).
      * right.
        apply (complete_phase_frame d (set_heap (<[l:=sub_step sub]> (heap s)) s) s'
                 Hd Hstep).
      * destruct (sub_failed (sub_step sub)); injection Hstep as <-; left; reflexivity.
    + injection Hstep as <-. left. reflexivity.
  - injection Hstep as <-. left. reflexivity.
Qed.

Lemma step_index s s' :
  step s = Ok s' →
  currentPipelineStepIndex s' = currentPipelineStepIndex s ∨
  currentPipelineStepIndex s' = S (currentPipelineStepIndex s).
Proof.
  intros Hstep. unfold step in Hstep.
  destruct (solved s || failed s); [injection Hstep as <-; auto|].
  destruct (_step _) as [s1|] eqn:Hs1; [|discriminate].
  apply _step_index in Hs1. revert Hs1. fields. intros Hs1.
  destruct (negb _ && _); injection Hstep as <-; exact Hs1.
Qed.

Lemma solveUntilPhase_reaches phase k fuel : ∀ s s',
  (∀ x, currentPipelineStepIndex x = k → getCurrentPhase x = phase) →
  steps fuel s = Ok s' →
  currentPipelineStepIndex s ≤ k ≤ currentPipelineStepIndex s' →
  ∃ r, solveUntilPhase fuel phase s = Some (Ok r).
Proof.
  induction fuel as [|fuel IH]; intros s s' Hk Hrun Hbetween.
  - injection Hrun as <-. exists s. cbn [solveUntilPhase].
    rewrite decide_True; [reflexivity|]. apply Hk. lia.
  - cbn [solveUntilPhase].
    destruct (decide (getCurrentPhase s = phase)) as [Hp|Hp]; [eauto|].
    cbn [steps] in Hrun. destruct (step s) as [s1|] eqn:Hs1; [|discriminate].
    assert (currentPipelineStepIndex s ≠ k) as Hne by (intros Heq; apply Hp, Hk, Heq).
    apply step_index in Hs1. apply (IH s1 s' Hk Hrun). lia.
Qed.

(** X22.  Under the same conditions, [solveUntilPhase(phase)] returns on
    a new orchestrator for the name of each phase of the table and for
    "none", within [4 * (bound + 1)] iterations of its loop. *)
Theorem solveUntilPhase_returns_when_prompt problem clk bound phase :
  prompt bound → (4 * (Z.of_nat bound + 1) ≤ 1000000)%Z →
  phase ∈ "none" :: phase_names →
  ∃ fuel s, fuel ≤ 4 * (bound + 1) ∧
            solveUntilPhase fuel phase (new_LayoutPipelineSolver problem clk)
            = Some (Ok s).
Proof.
  intros Hprompt Hbound Hphase.
  destruct (phases_complete problem clk bound 4 (new_LayoutPipelineSolver problem clk)
              Hprompt (linked_new problem clk) eq_refl eq_refl eq_refl)
    as (m & s4 & Hm & Hs4 & Hc4 & Hns4 & Hnf4 & Hidx4).
  { cbn [iterations MAX_ITERATIONS new_LayoutPipelineSolver]. lia. }
  assert (∃ k, k ≤ length pipelineDef ∧
               ∀ x, currentPipelineStepIndex x = k → getCurrentPhase x = phase)
    as (k & Hk & Hat).
  { apply elem_of_cons in Hphase as [->|Hin].
    - exists (length pipelineDef). split; [lia|].
      intros x Hx. apply getCurrentPhase_exhausted. lia.
    - apply list_elem_of_lookup in Hin as [k Hk]. exists k. split.
      + apply lookup_lt_Some in Hk. unfold phase_names in Hk.
        rewrite length_fmap in Hk. lia.
      + intros x Hx. unfold getCurrentPhase. rewrite Hx.
        unfold phase_names in Hk. rewrite list_lookup_fmap in Hk.
        destruct (pipelineDef !! k); [|discriminate]. injection Hk as <-. reflexivity. }
  destruct (solveUntilPhase_reaches phase k m _ s4 Hat Hs4) as [r Hr].
  { cbn [currentPipelineStepIndex new_LayoutPipelineSolver]. lia. }
  exists m, r. split; [lia|exact Hr].
Qed.

End Termination.

(** * Examples of the further properties *)

Lemma calculateOverlapArea_range_witness :
  (0 <= calculateOverlapArea Sample.box Sample.shifted_box)%R ∧
  (calculateOverlapArea Sample.box Sample.shifted_box <= area_of Sample.box)%R ∧
  calculateOverlapArea Sample.box Sample.box = area_of Sample.box.
Proof.
  assert (well_formed Sample.box) as H1 by (unfold well_formed; cbn; lra).
  assert (well_formed Sample.shifted_box) as H2 by (unfold well_formed; cbn; lra).
  destruct (calculateOverlapArea_range Sample.box Sample.shifted_box H1 H2)
    as (Hpos & Hle & _ & Hself).
  exact (conj Hpos (conj Hle Hself)).
Defined.

Lemma getRotatedBounds_encloses_witness :
  inside (getRotatedBounds Toy.origin (Chip.size (Toy.square 2)))
    (placed_point Toy.origin 1 1).
Proof. apply getRotatedBounds_encloses; cbn; rewrite Rabs_R1; lra. Defined.


Section DoubleKeyOrderExample.
Local Open Scope float_scope.

Lemma checkForOverlaps_key_order_witness :
  NoDup (Object_keys (Double.OutputLayout.chipPlacements Double.two_boxes_layout)) /\
  ∃ overlaps overlaps',
    @Double.checkForOverlaps Double.tabulated Double.two_boxes_problem
      Double.two_boxes_layout = Ok overlaps /\
    @Double.checkForOverlaps Double.tabulated Double.two_boxes_problem
      Double.two_boxes_reversed = Ok overlaps' /\
    (Double.reported_with overlaps "U1" "U2" 2 ↔
     Double.reported_with overlaps' "U1" "U2" 2).
Proof.
  split; [exact double_two_boxes_keys|].
  destruct (@checkForOverlaps_key_order Double.tabulated Double.two_boxes_problem
              Double.two_boxes_layout Double.two_boxes_reversed double_two_boxes_keys)
    as [[Hthrow _]|(overlaps & overlaps' & H1 & H2 & Hsame)].
  { apply Permutation_swap. }
  { rewrite double_checkForOverlaps_two_boxes in Hthrow. discriminate Hthrow. }
  exists overlaps, overlaps'. exact (conj H1 (conj H2 (Hsame "U1" "U2" 2))).
Defined.

End DoubleKeyOrderExample.

Lemma immediate_running__step :
  _step Toy.immediate_running = Ok Sample.immediate_completed.
Proof. vm_compute. reflexivity. Qed.

Lemma _step_moves_forward_witness :
  (currentPipelineStepIndex Sample.immediate_completed
   = currentPipelineStepIndex Toy.immediate_running ∨
   currentPipelineStepIndex Sample.immediate_completed
   = S (currentPipelineStepIndex Toy.immediate_running)) ∧
  inputProblem Sample.immediate_completed = inputProblem Toy.immediate_running ∧
  iterations Sample.immediate_completed = iterations Toy.immediate_running.
Proof.
  destruct (_step_moves_forward Toy.immediate_running Sample.immediate_completed
              immediate_running__step)
    as (Hidx & _ & _ & _ & _ & Hpb & _ & Hit & _).
  exact (conj Hidx (conj Hpb Hit)).
Defined.

Lemma immediate_three_steps : steps 3 Toy.immediate_start = Ok Sample.immediate_third.
Proof. vm_compute. reflexivity. Qed.

Lemma immediate_four_steps : steps 4 Toy.immediate_start = Ok Sample.immediate_fourth.
Proof. vm_compute. reflexivity. Qed.

Lemma immediate_nine_steps : steps 9 Toy.immediate_start = Ok Toy.immediate_done.
Proof. vm_compute. reflexivity. Qed.

Lemma solvers_of_a_run_witness :
  length (heap Sample.immediate_third) = 2 ∧
  solvers Sample.immediate_third !! "chipPartitionsSolver" = Some 1 ∧
  solvers Sample.immediate_third !! "packInnerPartitionsSolver" = None ∧
  activeSubSolver Sample.immediate_third = Some 1.
Proof.
  destruct (solvers_of_a_run Toy.no_chips Toy.ten_apart 3 Sample.immediate_third
              immediate_three_steps) as (_ & _ & Hfields & _ & Hactive).
  assert (activeSubSolver Sample.immediate_third = Some 1) as Ha
    by (vm_compute; reflexivity).
  destruct (Hactive 1 Ha) as (_ & Hlen & _).
  destruct (Hfields 1 "chipPartitionsSolver" eq_refl) as [H1 _].
  destruct (Hfields 2 "packInnerPartitionsSolver" eq_refl) as [H2 _].
  rewrite Hlen in H1, H2. exact (conj Hlen (conj H1 (conj H2 Ha))).
Defined.

Lemma handoff_of_a_run_witness :
  inputProblem Sample.immediate_fourth = Toy.no_chips ∧
  chipPartitions Sample.immediate_fourth
  = deref_opt Sample.immediate_fourth (chipPartitionsSolver Sample.immediate_fourth)
      ≫= partitions ∧
  packedPartitions Sample.immediate_fourth = None.
Proof.
  destruct (handoff_of_a_run Toy.no_chips Toy.ten_apart 4 Sample.immediate_fourth
              immediate_four_steps) as (Hpb & _ & Hparts & Hpacked).
  assert (currentPipelineStepIndex Sample.immediate_fourth = 2) as Hk
    by (vm_compute; reflexivity).
  rewrite Hk in Hparts, Hpacked.
  rewrite decide_True in Hparts by lia. rewrite decide_False in Hpacked by lia.
  split; [exact Hpb|]. split; [exact Hparts|exact Hpacked].
Defined.

Lemma solver_arguments_witness :
  ∃ s', _step Toy.immediate_second = Ok s' ∧
        activeSubSolver s' = Some 1 ∧
        heap s' = heap Toy.immediate_second
                  ++ [ChipPartitionsSolver Toy.no_chips
                        (heap Toy.immediate_second !! 0 ≫= outputDecouplingCapGroups)].
Proof.
  destruct (solver_arguments Toy.no_chips Toy.ten_apart 2 Toy.immediate_second
              immediate_two_steps) as (s' & Hstep & Hactive & Hheap).
  { vm_compute. reflexivity. }
  { vm_compute. lia. }
  exists s'. exact (conj Hstep (conj Hactive Hheap)).
Defined.

Lemma immediate_done_solved : solved Toy.immediate_done = true.
Proof. vm_compute. reflexivity. Qed.

Lemma solved_run_witness :
  currentPipelineStepIndex Toy.immediate_done = 4 ∧
  activeSubSolver Toy.immediate_done = None ∧
  ticks Toy.immediate_done = 8 ∧
  trace Toy.immediate_done
  = @phase_names Toy.immediate ≫= (fun name => events_of name (starting ++ completing)).
Proof.
  destruct (solved_run Toy.no_chips Toy.ten_apart 9 Toy.immediate_done
              immediate_nine_steps immediate_done_solved)
    as (Hidx & _ & Hactive & _ & _ & Hticks & Htrace).
  exact (conj Hidx (conj Hactive (conj Hticks Htrace))).
Defined.


Lemma preview_of_a_run_witness :
  @preview Toy.immediate Toy.picture (fun _ => Toy.background) Toy.immediate_second
  = match last (heap Toy.immediate_second) with
    | None => Toy.background
    | Some o =>
        match activeSubSolver Toy.immediate_second with
        | Some _ => Toy.picture o
        | None => sub_visualize o
        end
    end.
Proof.
  exact (@preview_of_a_run Toy.immediate Toy.picture (fun _ => Toy.background)
           Toy.no_chips Toy.ten_apart 2 Toy.immediate_second immediate_two_steps).
Defined.

Lemma phase_times_witness :
  startTimeOfPhase Toy.immediate_second !! "identifyDecouplingCapsSolver"
  = Some (Num (Toy.ten_apart 0)) ∧
  endTimeOfPhase Toy.immediate_second !! "identifyDecouplingCapsSolver"
  = Some (Num (Toy.ten_apart 1)) ∧
  timeSpentOnPhase Toy.immediate_second !! "identifyDecouplingCapsSolver"
  = Some (Num (Toy.ten_apart 1 - Toy.ten_apart 0)) ∧
  ticks Toy.immediate_second = 2.
Proof.
  destruct (phase_times Toy.no_chips Toy.ten_apart 2 Toy.immediate_second 0
              "identifyDecouplingCapsSolver" immediate_two_steps eq_refl)
    as (Hstart & Hend & Hspent & Hticks).
  assert (length (heap Toy.immediate_second) = 1) as Hl by (vm_compute; reflexivity).
  assert (currentPipelineStepIndex Toy.immediate_second = 1) as Hk
    by (vm_compute; reflexivity).
  rewrite Hl in Hstart, Hticks. rewrite Hk in Hend, Hspent, Hticks.
  rewrite decide_True in Hstart by lia. rewrite decide_True in Hend by lia.
  split; [exact Hstart|]. split; [exact Hend|]. split; [apply Hspent; lia|exact Hticks].
Defined.



Lemma fallback_of_a_run_witness :
  omap (fun viz => viz) (available_viz Toy.immediate_second)
  = Toy.background :: (Toy.picture <$> heap Toy.immediate_second).
Proof.
  exact (proj1 (fallback_of_a_run Toy.no_chips Toy.ten_apart 2 Toy.immediate_second
                  immediate_two_steps)).
Defined.

Lemma solveUntilPhase_stops_before_construction_witness :
  getCurrentPhase Toy.immediate_second = "chipPartitionsSolver" ∧
  activeSubSolver Toy.immediate_second = None ∧
  length (heap Toy.immediate_second) = currentPipelineStepIndex Toy.immediate_second ∧
  solved Toy.immediate_second = false ∧
  getOutputLayout Toy.immediate_second = Throw IncompleteError.
Proof.
  exact (solveUntilPhase_stops_before_construction Toy.no_chips Toy.ten_apart 2
           "chipPartitionsSolver" Toy.immediate_second solveUntilPhase_second_phase).
Defined.

Lemma immediate_is_prompt : @prompt Toy.immediate 1.
Proof.
  intros k d this Hd. exists 0. split; [lia|].
  destruct k as [|[|[|[|k]]]]; cbn in Hd; try discriminate; injection Hd as <-;
    reflexivity.
Qed.

Lemma prompt_run_is_solved_witness :
  ∃ n s, n ≤ 9 ∧ steps n Toy.immediate_start = Ok s ∧
         solved s = true ∧ failed s = false.
Proof.
  apply (prompt_run_is_solved Toy.no_chips Toy.ten_apart 1 immediate_is_prompt).
  vm_compute. discriminate.
Defined.

Lemma solveUntilPhase_returns_when_prompt_witness :
  ∃ fuel s, fuel ≤ 8 ∧
            solveUntilPhase fuel "partitionPackingSolver" Toy.immediate_start
            = Some (Ok s).
Proof.
  apply (solveUntilPhase_returns_when_prompt Toy.no_chips Toy.ten_apart 1
           "partitionPackingSolver" immediate_is_prompt).
  - vm_compute. discriminate.
  - apply (bool_decide_unpack _). vm_compute. exact I.
Defined.
